(** * Gateway wrapper (src/server.js): model and verified properties

    A shallow embedding of the request-handling core of [src/server.js]:
    the archive path filter, the secret redaction filter, the setup
    authentication guard, the allowlisted debug console, the external
    command runner, the gateway supervisor and the catch-all proxy; then
    the start-up code (environment and legacy config migration, the
    gateway token), the config artifact and the handlers that write it,
    restart, the reading of an upload, the export layout, the pending
    device requests and the onboarding arguments.

    JavaScript strings are modelled as lists of characters.  Every
    character class the source uses is an ASCII class, so a code unit
    outside ASCII behaves as any other character that is in no class. *)

From Stdlib Require Import String Ascii List ZArith Lia Bool Arith DecimalString
  DecimalPos DecimalZ.
Import ListNotations.

(* ================================================================== *)
(** * Part I.  The model                                               *)
(* ================================================================== *)

(** ** JavaScript string primitives *)

Module Js.

Definition jsstring := list ascii.

Definition str (s : string) : jsstring := list_ascii_of_string s.

Definition codeUnit (c : ascii) : nat := nat_of_ascii c.

Definition between (lo hi : nat) (c : ascii) : bool :=
  (lo <=? codeUnit c) && (codeUnit c <=? hi).

Definition chr_eqb (a b : ascii) : bool := Ascii.eqb a b.

(** The double-quote character. *)
Definition dquote : ascii := ascii_of_nat 34.

(** [\d] without the unicode flag *)
Definition isDigit : ascii -> bool := between 48 57.
(** [A-Za-z] *)
Definition isAlpha (c : ascii) : bool := between 65 90 c || between 97 122 c.
(** [A-Za-z0-9] *)
Definition isAlnum (c : ascii) : bool := isAlpha c || isDigit c.
(** [A-Za-z0-9_] *)
Definition isWord (c : ascii) : bool := isAlnum c || chr_eqb c "_".
(** [A-Za-z0-9_-] *)
Definition isWordDash (c : ascii) : bool := isWord c || chr_eqb c "-".
(** [A-Za-z0-9-] *)
Definition isAlnumDash (c : ascii) : bool := isAlnum c || chr_eqb c "-".
(** [\s] restricted to one-byte code units: TAB, LF, VT, FF, CR, SP, NBSP *)
Definition isSpace (c : ascii) : bool :=
  between 9 13 c || (codeUnit c =? 32) || (codeUnit c =? 160).
(** [\S] *)
Definition isNonSpace (c : ascii) : bool := negb (isSpace c).

Fixpoint str_eqb (a b : jsstring) : bool :=
  match a, b with
  | [], [] => true
  | x :: a', y :: b' => chr_eqb x y && str_eqb a' b'
  | _, _ => false
  end.

(** [s.startsWith(pre)] *)
Fixpoint startsWith (pre s : jsstring) : bool :=
  match pre, s with
  | [], _ => true
  | x :: pre', y :: s' => chr_eqb x y && startsWith pre' s'
  | _ :: _, [] => false
  end.

(** [s.split(sep)] for a one-character separator: the result is never
    empty, the empty string splits to one empty piece. *)
Fixpoint split (sep : ascii) (s : jsstring) : list jsstring :=
  match s with
  | [] => [[]]
  | c :: t =>
      if chr_eqb c sep then [] :: split sep t
      else match split sep t with
           | seg :: segs => (c :: seg) :: segs
           | [] => [[c]]
           end
  end.

(** [arr.includes(x)] on an array of strings *)
Definition includes (x : jsstring) (arr : list jsstring) : bool :=
  existsb (str_eqb x) arr.

Fixpoint dropWhile (p : ascii -> bool) (s : jsstring) : jsstring :=
  match s with
  | [] => []
  | c :: t => if p c then dropWhile p t else s
  end.

(** [s.trim()] *)
Definition trim (s : jsstring) : jsstring :=
  rev (dropWhile isSpace (rev (dropWhile isSpace s))).

(** A string is falsy exactly when it is empty. *)
Definition truthy (s : jsstring) : bool :=
  match s with [] => false | _ :: _ => true end.

(** [s.indexOf(c)] for a one-character needle; [None] stands for -1. *)
Fixpoint indexOf (c : ascii) (s : jsstring) : option nat :=
  match s with
  | [] => None
  | x :: t => if chr_eqb x c then Some 0 else option_map S (indexOf c t)
  end.

(** Length of the longest prefix of [s] whose characters satisfy [p]. *)
Fixpoint runLen (p : ascii -> bool) (s : jsstring) : nat :=
  match s with
  | c :: t => if p c then S (runLen p t) else 0
  | [] => 0
  end.

(** [w] occurs in [t] as a contiguous substring. *)
Definition Infix (w t : jsstring) : Prop := exists a b, t = a ++ w ++ b.

End Js.
Import Js.

(** ** The regular-expression fragment used by the source

    Every pattern of the source that matters here is a sequence of single
    characters, single character classes and greedy [{k,}] repetitions of a
    class.  [matchSeq r s] is the backtracking match of [r] anchored at the
    head of [s]; it yields the number of characters consumed. *)

Module Regex.

Inductive atom : Type :=
| Chr (c : ascii)                          (* a literal character *)
| Cls (p : ascii -> bool)                  (* one character of a class *)
| AtLeast (k : nat) (p : ascii -> bool).   (* class{k,}, greedy *)

Definition pattern := list atom.

Definition lit (s : string) : pattern := map Chr (str s).

(** Try the repetition counts [k + j], [k + j - 1], ..., [k] in that order. *)
Fixpoint backtrack (rest : jsstring -> option nat) (k j : nat) (s : jsstring)
  : option nat :=
  match rest (skipn (k + j) s) with
  | Some l => Some (k + j + l)
  | None => match j with
            | 0 => None
            | S j' => backtrack rest k j' s
            end
  end.

Fixpoint matchSeq (r : pattern) (s : jsstring) {struct r} : option nat :=
  match r with
  | [] => Some 0
  | Chr c :: r' =>
      match s with
      | x :: s' => if chr_eqb x c then option_map S (matchSeq r' s') else None
      | [] => None
      end
  | Cls p :: r' =>
      match s with
      | x :: s' => if p x then option_map S (matchSeq r' s') else None
      | [] => None
      end
  | AtLeast k p :: r' =>
      let m := runLen p s in
      if k <=? m then backtrack (matchSeq r') k (m - k) s else None
  end.

(** [re.test(s)] for a pattern anchored with [^] *)
Definition testAnchored (r : pattern) (s : jsstring) : bool :=
  match matchSeq r s with Some _ => true | None => false end.

(** [re.test(s)] for a pattern anchored with [^] and [$] whose last atom
    is a repetition that may run to the end of the string *)
Definition testWhole (r : pattern) (s : jsstring) : bool :=
  match matchSeq r s with
  | Some n => n =? length s
  | None => false
  end.

(** [s.replace(/r/g, rep)]: scan left to right; at a position where [r]
    matches a non-empty piece, emit [rep] and resume after the match;
    otherwise copy the character.  [skip] counts the characters of the
    current match still to be consumed.  (An empty match, which no
    pattern of the source admits, copies the character.) *)
Fixpoint scan (r : pattern) (rep : jsstring) (skip : nat) (s : jsstring)
  : jsstring :=
  match s with
  | [] => []
  | c :: t =>
      match skip with
      | S k => scan r rep k t
      | 0 =>
          match matchSeq r s with
          | Some (S n) => rep ++ scan r rep n t
          | _ => c :: scan r rep 0 t
          end
      end
  end.

Definition replaceAll (r : pattern) (rep s : jsstring) : jsstring :=
  scan r rep 0 s.

(** The strings a pattern matches as a whole. *)
Inductive matches : pattern -> jsstring -> Prop :=
| matches_nil : matches [] []
| matches_chr c r w : matches r w -> matches (Chr c :: r) (c :: w)
| matches_cls (p : ascii -> bool) r x w :
    p x = true -> matches r w -> matches (Cls p :: r) (x :: w)
| matches_rep k (p : ascii -> bool) r u w :
    k <= length u -> forallb p u = true -> matches r w ->
    matches (AtLeast k p :: r) (u ++ w).

(** No string shorter than [minLen r] matches [r]. *)
Fixpoint minLen (r : pattern) : nat :=
  match r with
  | [] => 0
  | Chr _ :: r' | Cls _ :: r' => S (minLen r')
  | AtLeast k _ :: r' => k + minLen r'
  end.

(** [avoids c r]: no string matched by [r] contains the character [c]. *)
Fixpoint avoids (c : ascii) (r : pattern) : bool :=
  match r with
  | [] => true
  | Chr x :: r' => negb (chr_eqb x c) && avoids c r'
  | Cls p :: r' | AtLeast _ p :: r' => negb (p c) && avoids c r'
  end.

End Regex.
Import Regex.

(** ** Archive path filter ([looksSafeTarPath], [isUnderDir], import) *)

(** [/^[A-Za-z]:[\\/]/] *)
Definition driveLetterRe : pattern :=
  [Cls isAlpha; Chr ":"; Cls (fun c => chr_eqb c "\" || chr_eqb c "/")].

Definition looksSafeTarPath (p : jsstring) : bool :=
  if negb (truthy p) then false
  else if startsWith (str "/") p || startsWith (str "\") p then false
  else if testAnchored driveLetterRe p then false
  else if includes (str "..") (split "/" p) then false
  else true.

(** POSIX [path.resolve] on a path already cut at [/]: empty and [.]
    segments vanish, [..] drops the last directory kept so far (and is a
    no-op at the root).  The directory stack [acc] is kept innermost
    first. *)
Fixpoint resolveFrom (acc : list jsstring) (segs : list jsstring)
  : list jsstring :=
  match segs with
  | [] => acc
  | seg :: rest =>
      if str_eqb seg [] || str_eqb seg (str ".") then resolveFrom acc rest
      else if str_eqb seg (str "..") then resolveFrom (tl acc) rest
      else resolveFrom (seg :: acc) rest
  end.

(** [path.resolve(cwd, p)] for an absolute [cwd], as the list of directory
    names from the root down. *)
Definition resolve (cwd p : jsstring) : list jsstring :=
  if startsWith (str "/") p then rev (resolveFrom [] (split "/" p))
  else rev (resolveFrom (resolveFrom [] (split "/" cwd)) (split "/" p)).

(** The test of [isUnderDir] on resolved paths: [abs] is [root] or lies
    below it. *)
Fixpoint segsStartWith (root abs : list jsstring) : bool :=
  match root, abs with
  | [], _ => true
  | r :: root', a :: abs' => str_eqb r a && segsStartWith root' abs'
  | _ :: _, [] => false
  end.

(** [isUnderDir(p, root)] *)
Definition isUnderDir (p root : jsstring) : bool :=
  segsStartWith (resolve (str "/") root) (resolve (str "/") p).

Definition dataRoot : jsstring := str "/data".

(** What [POST /setup/import] itself decides about an archive: the
    [filter] callback it hands to [tar.x],
    [filter: (p) => looksSafeTarPath(p)].  [importAccepted] lists the entry
    paths for which the callback answers true.  What the archive library
    then does with such an entry (its own handling of entry paths, entry
    types and the [strict] option) is the library's affair and is not
    modelled. *)
Definition importAccepted (entries : list jsstring) : list jsstring :=
  List.filter looksSafeTarPath entries.

(** The three kinds of entry path the import must refuse. *)
Definition isAbsolutePath (p : jsstring) : Prop :=
  exists t, p = "/"%char :: t \/ p = "\"%char :: t.

(** A Windows drive-letter prefix: a letter and a colon. *)
Definition carriesDriveLetter (p : jsstring) : Prop :=
  exists d t, p = d :: ":"%char :: t /\ isAlpha d = true.

(** A drive-letter prefix that is followed by a separator. *)
Definition hasDrivePrefix (p : jsstring) : Prop :=
  exists d sep t,
    p = d :: ":"%char :: sep :: t /\ isAlpha d = true
    /\ (sep = "\"%char \/ sep = "/"%char).

Definition hasParentSegment (p : jsstring) : Prop :=
  In (str "..") (split "/" p).

(** ** Secret redaction ([redactSecrets]) *)

Definition REDACTED : jsstring := str "[REDACTED]".

(** [/(sk-[A-Za-z0-9_-]{10,})/g] *)
Definition skRe : pattern := lit "sk-" ++ [AtLeast 10 isWordDash].
(** [/(gho_[A-Za-z0-9_]{10,})/g] *)
Definition ghoRe : pattern := lit "gho_" ++ [AtLeast 10 isWord].
(** [/(xox[baprs]-[A-Za-z0-9-]{10,})/g] *)
Definition isBaprs (c : ascii) : bool :=
  existsb (chr_eqb c) (str "baprs").
Definition xoxRe : pattern :=
  lit "xox" ++ [Cls isBaprs; Chr "-"; AtLeast 10 isAlnumDash].
(** [/(\d{5,}:[A-Za-z0-9_-]{10,})/g] *)
Definition telegramRe : pattern :=
  [AtLeast 5 isDigit; Chr ":"; AtLeast 10 isWordDash].
(** [/(AA[A-Za-z0-9_-]{10,}:\S{10,})/g] *)
Definition aaRe : pattern :=
  lit "AA" ++ [AtLeast 10 isWordDash; Chr ":"; AtLeast 10 isNonSpace].

Definition redactSecrets (text : jsstring) : jsstring :=
  if negb (truthy text) then text
  else
    replaceAll aaRe REDACTED
      (replaceAll telegramRe REDACTED
        (replaceAll xoxRe REDACTED
          (replaceAll ghoRe REDACTED
            (replaceAll skRe REDACTED text)))).

(** The secret shapes the redaction is meant for: an [sk-], [gho_] or
    [xox?-] prefixed key, or a Telegram style [digits:token]. *)
Definition secretShape (w : jsstring) : Prop :=
  matches skRe w \/ matches ghoRe w \/ matches xoxRe w \/ matches telegramRe w.

(** ** HTTP requests and responses *)

Module Http.

Definition headers := list (jsstring * jsstring).

(** [h[name]]: [None] is [undefined]. *)
Fixpoint get (name : jsstring) (h : headers) : option jsstring :=
  match h with
  | [] => None
  | (k, v) :: h' => if str_eqb k name then Some v else get name h'
  end.

(** [h[name] = v] *)
Fixpoint set (name v : jsstring) (h : headers) : headers :=
  match h with
  | [] => [(name, v)]
  | (k, x) :: h' =>
      if str_eqb k name then (k, v) :: h' else (k, x) :: set name v h'
  end.

Record request : Type := {
  path : jsstring;
  reqHeaders : headers
}.

Inductive body : Type :=
| Json (ok : bool) (output error : option jsstring)
| Send (text : jsstring).

Record response : Type := {
  status : Z;
  resHeaders : headers;
  resBody : body
}.

Definition json (st : Z) (b : body) : response :=
  {| status := st; resHeaders := []; resBody := b |}.

Definition okOutput (st : Z) (ok : bool) (output : jsstring) : response :=
  json st (Json ok (Some output) None).

Definition failError (st : Z) (error : jsstring) : response :=
  json st (Json false None (Some error)).

(** The text a response carries back to the caller, if any. *)
Definition textOf (r : response) : list jsstring :=
  match resBody r with
  | Json _ o e =>
      (match o with Some x => [x] | None => [] end)
      ++ (match e with Some x => [x] | None => [] end)
  | Send t => [t]
  end.

End Http.
Import Http.

(** [String(v || <empty string>)] for a request-body field that is absent
    or holds a string. *)
Definition fieldString (v : option jsstring) : jsstring :=
  match v with Some s => s | None => [] end.

(** ** Setup authentication ([requireSetupAuth]) *)

Definition authorizationName : jsstring := str "authorization".

Section SetupAuth.

(** [Buffer.from(encoded, "base64").toString("utf8")], a runtime
    primitive. *)
Variable base64Decode : jsstring -> jsstring.

(** [process.env.SETUP_PASSWORD]; [None] when the variable is unset. *)
Variable envSetupPassword : option jsstring.

(** [const SETUP_PASSWORD = process.env.SETUP_PASSWORD?.trim();] *)
Definition SETUP_PASSWORD : option jsstring := option_map trim envSetupPassword.

Inductive authResult : Type :=
| Next                      (* [next()]: the guarded handler runs *)
| Answered (r : response).  (* the guard answered the request itself *)

Definition noPasswordMessage : jsstring :=
  str "SETUP_PASSWORD is not set. Set it in Railway Variables before using /setup.".

(** [Basic realm="OpenClaw Setup"] *)
Definition basicRealm : jsstring :=
  str "Basic realm=" ++ [dquote] ++ str "OpenClaw Setup" ++ [dquote].

Definition challenge (text : jsstring) : response :=
  {| status := 401;
     resHeaders := [(str "WWW-Authenticate", basicRealm)];
     resBody := Send text |}.

Definition requireSetupAuth (req : request) : authResult :=
  if negb (truthy (fieldString SETUP_PASSWORD)) then
    Answered {| status := 500;
                resHeaders := [(str "Content-Type", str "text/plain")];
                resBody := Send noPasswordMessage |}
  else
    let header := fieldString (get authorizationName (reqHeaders req)) in
    let parts := split " " header in
    let scheme := nth 0 parts [] in
    let encoded := nth 1 parts [] in
    if negb (str_eqb scheme (str "Basic")) || negb (truthy encoded) then
      Answered (challenge (str "Auth required"))
    else
      let decoded := base64Decode encoded in
      let password :=
        match indexOf ":" decoded with
        | Some idx => skipn (idx + 1) decoded
        | None => []
        end in
      if negb (str_eqb password (fieldString SETUP_PASSWORD)) then
        Answered (challenge (str "Invalid password"))
      else Next.

(** A route registered as [app.METHOD(path, requireSetupAuth, handler)]:
    the handler, with whatever effects it performs, runs only after
    [next()]. *)
Definition guarded (E : Type) (handler : request -> response * list E)
  (req : request) : response * list E :=
  match requireSetupAuth req with
  | Answered r => (r, [])
  | Next => handler req
  end.

End SetupAuth.

(** ** Bearer token injection ([attachGatewayAuthHeader]) *)

Definition bearer (token : jsstring) : jsstring := str "Bearer " ++ token.

Definition attachGatewayAuthHeader (OPENCLAW_GATEWAY_TOKEN : jsstring)
  (req : request) : request :=
  if negb (truthy (fieldString (get authorizationName (reqHeaders req))))
     && truthy OPENCLAW_GATEWAY_TOKEN
  then {| path := path req;
          reqHeaders := set authorizationName (bearer OPENCLAW_GATEWAY_TOKEN)
                            (reqHeaders req) |}
  else req.

(** ** External commands ([runCmd]) *)

Module Cmd.

Local Open Scope Z_scope.

(** What [runCmd] resolves with: [{ code, output }]. *)
Record result : Type := { code : Z; output : jsstring }.

Inductive signal : Type := SIGTERM | SIGKILL.

(** What the event loop can deliver to one [runCmd] invocation. *)
Inductive event : Type :=
| Data (chunk : jsstring)      (* a [data] event of stdout or stderr *)
| TimerFired                   (* the [timeoutMs] timer callback *)
| KillTimerFired               (* the inner grace timer callback *)
| ProcError (err : jsstring)   (* the [error] event, [String(err)] *)
| Close (exit : option Z).     (* the [close] event; [None] is a null code *)

Record state : Type := {
  out : jsstring;                (* [let out] *)
  timer : option Z;              (* pending [timer] and its delay in ms *)
  killTimer : option Z;          (* pending [killTimer] and its delay in ms *)
  sent : list signal;            (* [proc.kill] calls so far, oldest first *)
  settled : option result        (* the value the promise resolved with *)
}.

(** [String(n)] for an integer of ordinary size (no exponent form) *)
Definition decimal (n : Z) : jsstring :=
  str (DecimalString.NilZero.string_of_int (Z.to_int n)).

Definition newline : ascii := ascii_of_nat 10.

(** [`\n[timeout] Command exceeded ${timeoutMs}ms and was terminated.\n`] *)
Definition timeoutMarker (timeoutMs : Z) : jsstring :=
  [newline] ++ str "[timeout] Command exceeded " ++ decimal timeoutMs
  ++ str "ms and was terminated." ++ [newline].

(** [`\n[spawn error] ${String(err)}\n`] *)
Definition spawnErrorMarker (err : jsstring) : jsstring :=
  [newline] ++ str "[spawn error] " ++ err ++ [newline].

(** [Number.isFinite(opts.timeoutMs) ? opts.timeoutMs : 120_000] *)
Definition timeoutOf (optsTimeoutMs : option Z) : Z :=
  match optsTimeoutMs with Some t => t | None => 120000 end.

(** The state right after [runCmd] has spawned the process and armed the
    timeout. *)
Definition start (optsTimeoutMs : option Z) : state :=
  {| out := []; timer := Some (timeoutOf optsTimeoutMs); killTimer := None;
     sent := []; settled := None |}.

(** [resolve(v)]: only the first call settles the promise. *)
Definition resolve (v : result) (st : state) : state :=
  match settled st with
  | Some _ => st
  | None => {| out := out st; timer := timer st; killTimer := killTimer st;
               sent := sent st; settled := Some v |}
  end.

Definition step (timeoutMs : Z) (st : state) (ev : event) : state :=
  match ev with
  | Data d =>
      {| out := out st ++ d; timer := timer st; killTimer := killTimer st;
         sent := sent st; settled := settled st |}
  | TimerFired =>
      match timer st with
      | None => st                      (* cleared: the callback never runs *)
      | Some _ =>
          let o := out st ++ timeoutMarker timeoutMs in
          resolve {| code := 124; output := o |}
            {| out := o; timer := None; killTimer := Some 2000;
               sent := sent st ++ [SIGTERM]; settled := settled st |}
      end
  | KillTimerFired =>
      match killTimer st with
      | None => st
      | Some _ =>
          {| out := out st; timer := timer st; killTimer := None;
             sent := sent st ++ [SIGKILL]; settled := settled st |}
      end
  | ProcError err =>
      let o := out st ++ spawnErrorMarker err in
      resolve {| code := 127; output := o |}
        {| out := o; timer := None; killTimer := None;
           sent := sent st; settled := settled st |}
  | Close exit =>
      resolve {| code := match exit with Some c => c | None => 0 end;
                 output := out st |}
        {| out := out st; timer := None; killTimer := None;
           sent := sent st; settled := settled st |}
  end.

(** [runCmd(cmd, args, opts)] followed by the events [evs]. *)
Definition runCmd (optsTimeoutMs : option Z) (evs : list event) : state :=
  fold_left (step (timeoutOf optsTimeoutMs)) evs (start optsTimeoutMs).

(** The events that end the process's life as [runCmd] sees it. *)
Definition isExit (ev : event) : bool :=
  match ev with ProcError _ | Close _ => true | _ => false end.

Definition isData (ev : event) : bool :=
  match ev with Data _ => true | _ => false end.

(** Everything the process wrote during [evs], in order. *)
Fixpoint written (evs : list event) : jsstring :=
  match evs with
  | [] => []
  | Data d :: rest => d ++ written rest
  | _ :: rest => written rest
  end.

End Cmd.

(** ** The gateway supervisor ([startGateway], [ensureGatewayRunning])

    The source runs on one event loop: a handler runs undisturbed up to its
    next [await], and whatever else happens is delivered as a later event.
    The supervisor is therefore modelled as a state and a step function over
    the events that touch it. *)

Module Supervisor.

(** How a call of [ensureGatewayRunning()] settles. *)
Inductive outcome : Type :=
| Started                    (* resolved with [{ ok: true }] *)
| NotConfigured              (* resolved with [{ ok: false, reason }] *)
| StartFailed (attempt : nat).  (* rejected with the error of that attempt *)

(** Where the body of the in-flight start promise is suspended. *)
Inductive phase : Type :=
| Waiting      (* at [await waitForGatewayReady(...)] *)
| Diagnosing.  (* in the [catch], at [await runDoctorBestEffort()] *)

Inductive event : Type :=
| Call (caller : nat)   (* some handler calls [ensureGatewayRunning()] *)
| Ready                 (* [waitForGatewayReady] resolved [true] *)
| NotReady              (* [waitForGatewayReady] resolved [false] *)
| DoctorDone            (* [runDoctorBestEffort] returned *)
| ProcExit              (* the child's [exit] event *)
| ProcError (err : jsstring).   (* the child's [error] event, [String(err)] *)

Record state : Type := {
  configured : bool;                        (* [isConfigured()] *)
  gatewayProc : option nat;                 (* the child handle *)
  gatewayStarting : option (nat * phase);   (* the in-flight attempt *)
  lastGatewayError : option jsstring;
  spawns : nat;                      (* [childProcess.spawn] calls so far *)
  attempts : nat;                    (* start attempts created so far *)
  awaiting : list (nat * nat);       (* caller, attempt it awaits *)
  observed : list (nat * outcome)    (* settled calls, oldest first *)
}.

Definition stopped (isConfigured : bool) : state :=
  {| configured := isConfigured; gatewayProc := None; gatewayStarting := None;
     lastGatewayError := None; spawns := 0; attempts := 0;
     awaiting := []; observed := [] |}.

Definition notConfiguredError : jsstring :=
  str "Error: Gateway cannot start: not configured".
Definition notReadyError : jsstring :=
  str "Error: Gateway did not become ready in time".
Definition startFailure (err : jsstring) : jsstring :=
  str "[gateway] start failure: " ++ err.
Definition spawnError (err : jsstring) : jsstring :=
  str "[gateway] spawn error: " ++ err.

(** [startGateway()]: the flag tells whether it threw. *)
Definition startGateway (st : state) : state * bool :=
  match gatewayProc st with
  | Some _ => (st, false)
  | None =>
      if negb (configured st) then (st, true)
      else
        ({| configured := configured st;
            gatewayProc := Some (spawns st);
            gatewayStarting := gatewayStarting st;
            lastGatewayError := lastGatewayError st;
            spawns := S (spawns st);
            attempts := attempts st;
            awaiting := awaiting st;
            observed := observed st |}, false)
  end.

Definition setError (e : option jsstring) (st : state) : state :=
  {| configured := configured st; gatewayProc := gatewayProc st;
     gatewayStarting := gatewayStarting st; lastGatewayError := e;
     spawns := spawns st; attempts := attempts st;
     awaiting := awaiting st; observed := observed st |}.

(** The synchronous part of the start promise's body, up to its first
    [await]; the promise becomes [gatewayStarting]. *)
Definition beginAttempt (st : state) : state :=
  let a := attempts st in
  let (st1, threw) := startGateway (setError None st) in
  let st2 := if threw then setError (Some (startFailure notConfiguredError)) st1
             else st1 in
  {| configured := configured st2; gatewayProc := gatewayProc st2;
     gatewayStarting := Some (a, if threw then Diagnosing else Waiting);
     lastGatewayError := lastGatewayError st2;
     spawns := spawns st2; attempts := S a;
     awaiting := awaiting st2; observed := observed st2 |}.

Definition await (caller attempt : nat) (st : state) : state :=
  {| configured := configured st; gatewayProc := gatewayProc st;
     gatewayStarting := gatewayStarting st;
     lastGatewayError := lastGatewayError st;
     spawns := spawns st; attempts := attempts st;
     awaiting := awaiting st ++ [(caller, attempt)];
     observed := observed st |}.

Definition settle (caller : nat) (o : outcome) (st : state) : state :=
  {| configured := configured st; gatewayProc := gatewayProc st;
     gatewayStarting := gatewayStarting st;
     lastGatewayError := lastGatewayError st;
     spawns := spawns st; attempts := attempts st;
     awaiting := awaiting st;
     observed := observed st ++ [(caller, o)] |}.

(** [ensureGatewayRunning()] up to its [await gatewayStarting]. *)
Definition ensureGatewayRunning (caller : nat) (st : state) : state :=
  if negb (configured st) then settle caller NotConfigured st
  else match gatewayProc st with
       | Some _ => settle caller Started st
       | None =>
           let st' := match gatewayStarting st with
                      | None => beginAttempt st
                      | Some _ => st
                      end in
           match gatewayStarting st' with
           | Some (a, _) => await caller a st'
           | None => st'
           end
       end.

(** The start promise settles: [finally] clears [gatewayStarting] and
    every caller awaiting it resumes with the promise's outcome. *)
Definition finish (o : outcome) (st : state) : state :=
  {| configured := configured st; gatewayProc := gatewayProc st;
     gatewayStarting := None;
     lastGatewayError := lastGatewayError st;
     spawns := spawns st; attempts := attempts st;
     awaiting := [];
     observed := observed st ++ map (fun ca => (fst ca, o)) (awaiting st) |}.

Definition setPhase (a : nat) (p : phase) (st : state) : state :=
  {| configured := configured st; gatewayProc := gatewayProc st;
     gatewayStarting := Some (a, p);
     lastGatewayError := lastGatewayError st;
     spawns := spawns st; attempts := attempts st;
     awaiting := awaiting st; observed := observed st |}.

Definition dropProc (st : state) : state :=
  {| configured := configured st; gatewayProc := None;
     gatewayStarting := gatewayStarting st;
     lastGatewayError := lastGatewayError st;
     spawns := spawns st; attempts := attempts st;
     awaiting := awaiting st; observed := observed st |}.

Definition step (st : state) (ev : event) : state :=
  match ev with
  | Call c => ensureGatewayRunning c st
  | Ready =>
      match gatewayStarting st with
      | Some (_, Waiting) => finish Started st
      | _ => st
      end
  | NotReady =>
      match gatewayStarting st with
      | Some (a, Waiting) =>
          setPhase a Diagnosing
            (setError (Some (startFailure notReadyError)) st)
      | _ => st
      end
  | DoctorDone =>
      match gatewayStarting st with
      | Some (a, Diagnosing) => finish (StartFailed a) st
      | _ => st
      end
  | ProcExit => dropProc st
  | ProcError err => dropProc (setError (Some (spawnError err)) st)
  end.

Definition run (st : state) (evs : list event) : state :=
  fold_left step evs st.

(** The supervisor after a burst of calls made while it was stopped and
    configured: one spawn, one attempt in flight that only the first caller
    awaits, every other caller already answered. *)
Definition afterBurst (first : nat) (others : list nat) : state :=
  {| configured := true; gatewayProc := Some 0;
     gatewayStarting := Some (0, Waiting);
     lastGatewayError := None; spawns := 1; attempts := 1;
     awaiting := [(first, 0)];
     observed := map (fun c => (c, Started)) others |}.

(** What a caller's call settled with, if it has settled. *)
Definition outcomeOf (caller : nat) (st : state) : option outcome :=
  option_map snd (find (fun co => fst co =? caller) (observed st)).

End Supervisor.

(** ** The catch-all proxy middleware and the upgrade handler *)

Module Proxy.

Inductive effect : Type :=
| EnsureGatewayRunning            (* [await ensureGatewayRunning()] *)
| ProxyWeb (req : request)        (* [proxy.web(req, res, ...)] *)
| ProxyWs (req : request)         (* [proxy.ws(req, socket, head, ...)] *)
| SocketDestroy.                  (* [socket.destroy()] *)

(** What the wrapper itself answers: [None] when the request was handed
    to the proxy. *)
Definition answer := option response.

(** [res.redirect(url)]: status 302 and a [Location] header. *)
Definition redirect (url : jsstring) : response :=
  {| status := 302; resHeaders := [(str "Location", url)]; resBody := Send [] |}.

Definition isRedirectTo (url : jsstring) (a : answer) : bool :=
  match a with
  | Some r => (status r =? 302)%Z
              && match get (str "Location") (resHeaders r) with
                 | Some l => str_eqb l url
                 | None => false
                 end
  | None => false
  end.

(** [parts.join("\n")] *)
Fixpoint join (parts : list jsstring) : jsstring :=
  match parts with
  | [] => []
  | [p] => p
  | p :: rest => p ++ [Cmd.newline] ++ join rest
  end.

Definition hint (err : jsstring) (lastGatewayError : option jsstring) : jsstring :=
  join [ str "Gateway not ready.";
         err;
         (if truthy (fieldString lastGatewayError)
          then [Cmd.newline] ++ fieldString lastGatewayError else []);
         [Cmd.newline] ++ str "Troubleshooting:";
         str "- Visit /setup and check the Debug Console";
         str "- Visit /setup/api/debug for config + gateway diagnostics" ].

Section Handlers.

Variable OPENCLAW_GATEWAY_TOKEN : jsstring.
(** [isConfigured()] while the handler runs. *)
Variable isConfigured : bool.
(** How [ensureGatewayRunning()] settles: [Some err] is a rejection. *)
Variable ensureRejects : option jsstring.
Variable lastGatewayError : option jsstring.

(** [app.use(async (req, res) => ...)] *)
Definition middleware (req : request) : answer * list effect :=
  if negb isConfigured && negb (startsWith (str "/setup") (path req)) then
    (Some (redirect (str "/setup")), [])
  else
    let forward (before : list effect) :=
      (None,
       before ++ [ProxyWeb (attachGatewayAuthHeader OPENCLAW_GATEWAY_TOKEN req)]) in
    if isConfigured then
      match ensureRejects with
      | Some err =>
          (Some {| status := 503;
                   resHeaders := [(str "Content-Type", str "text/plain")];
                   resBody := Send (hint err lastGatewayError) |},
           [EnsureGatewayRunning])
      | None => forward [EnsureGatewayRunning]
      end
    else forward [].

(** [server.on("upgrade", async (req, socket, head) => ...)]: a raw
    socket is involved, the wrapper writes no response. *)
Definition upgrade (req : request) : answer * list effect :=
  if negb isConfigured then (None, [SocketDestroy])
  else
    match ensureRejects with
    | Some _ => (None, [EnsureGatewayRunning; SocketDestroy])
    | None =>
        (None,
         [EnsureGatewayRunning;
          ProxyWs (attachGatewayAuthHeader OPENCLAW_GATEWAY_TOKEN req)])
    end.

End Handlers.

End Proxy.

(** ** The debug console and its sibling endpoints *)

Module Console.

Local Open Scope Z_scope.

Inductive effect : Type :=
| RunCmd (cmd : jsstring) (args : list jsstring)  (* [runCmd]: one spawned process *)
| RestartGateway                                  (* [restartGateway()] *)
| StopGateway              (* SIGTERM to the gateway, then the handle is dropped *)
| EnsureGatewayRunning.                           (* [ensureGatewayRunning()] *)

(** How a supervisor call made by a handler settles. *)
Inductive settled : Type :=
| Resolved (ok : bool) (reason : jsstring)
| Rejected (err : jsstring).

(** Everything outside the handler that its result depends on. *)
Record world : Type := {
  exec : jsstring -> list jsstring -> Cmd.result;  (* what [runCmd] resolves with *)
  gatewayUp : bool;                                (* [gatewayProc] is set *)
  restartSettles : settled;                        (* [restartGateway()] *)
  ensureSettles : settled                          (* [ensureGatewayRunning()] *)
}.

(** [req.body] of a console request *)
Record payload : Type := { cmd : option jsstring; arg : option jsstring }.

Definition ALLOWED_CONSOLE_COMMANDS : list jsstring :=
  map str
    [ "gateway.restart"; "gateway.stop"; "gateway.start";
      "openclaw.version"; "openclaw.status"; "openclaw.health";
      "openclaw.doctor"; "openclaw.logs.tail"; "openclaw.config.get";
      "openclaw.devices.list"; "openclaw.devices.approve";
      "openclaw.plugins.list"; "openclaw.plugins.enable" ]%string.

(** [ALLOWED_CONSOLE_COMMANDS.has(c)] *)
Definition has (c : jsstring) : bool := includes c ALLOWED_CONSOLE_COMMANDS.

(** [/^[A-Za-z0-9_-]+$/] *)
Definition identifierRe : pattern := [AtLeast 1 isWordDash].

Definition digitValue (c : ascii) : Z := Z.of_nat (codeUnit c) - 48.

(** [Number.parseInt(s, 10)]: leading white space, an optional sign, then
    the longest run of digits; [None] is [NaN].  The value is kept exact:
    clamping it to the range 50..1000 gives what clamping the nearest
    double gives, as rounding is monotone and leaves 50 and 1000 alone. *)
Definition parseInt10 (s : jsstring) : option Z :=
  let s1 := dropWhile isSpace s in
  let '(neg, t) :=
    match s1 with
    | c :: t' => if chr_eqb c "-" then (true, t')
                 else if chr_eqb c "+" then (false, t')
                 else (false, s1)
    | [] => (false, s1)
    end in
  let n := runLen isDigit t in
  if (n =? 0)%nat then None
  else
    let v := fold_left (fun acc c => 10 * acc + digitValue c) (firstn n t) 0 in
    Some (if neg then - v else v).

(** [Math.max(50, Math.min(1000, Number.parseInt(arg || "200", 10) || 200))] *)
Definition tailLines (arg : jsstring) : Z :=
  let parsed := parseInt10 (if truthy arg then arg else str "200") in
  let n := match parsed with
           | Some v => if v =? 0 then 200 else v
           | None => 200
           end in
  Z.max 50 (Z.min 1000 n).

Section Handlers.

Variables OPENCLAW_ENTRY OPENCLAW_NODE : jsstring.

Definition clawArgs (args : list jsstring) : list jsstring :=
  OPENCLAW_ENTRY :: args.

(** The common tail of the command branches:
    [const r = await runCmd(OPENCLAW_NODE, clawArgs(args));
     return res.status(r.code === 0 ? 200 : 500)
               .json({ ok: r.code === 0, output: redactSecrets(r.output) });] *)
Definition runAndReport (w : world) (args : list string)
  (extra : list jsstring) : response * list effect :=
  let argv := clawArgs (map str args ++ extra) in
  let r := exec w OPENCLAW_NODE argv in
  let ok := Cmd.code r =? 0 in
  (okOutput (if ok then 200 else 500) ok (redactSecrets (Cmd.output r)),
   [RunCmd OPENCLAW_NODE argv]).

Definition isCmd (c : jsstring) (name : string) : bool := str_eqb c (str name).

Definition nl : jsstring := [Cmd.newline].

(** [app.post("/setup/api/console/run", requireSetupAuth, ...)], the
    handler proper *)
Definition consoleRun (w : world) (p : payload) : response * list effect :=
  let cmd := trim (fieldString (cmd p)) in
  let arg := trim (fieldString (arg p)) in
  if negb (has cmd) then (failError 400 (str "Command not allowed"), [])
  else if isCmd cmd "gateway.restart" then
    match restartSettles w with
    | Rejected err => (failError 500 err, [RestartGateway])
    | Resolved _ _ =>
        (okOutput 200 true (str "Gateway restarted (wrapper-managed)." ++ nl),
         [RestartGateway])
    end
  else if isCmd cmd "gateway.stop" then
    (okOutput 200 true (str "Gateway stopped (wrapper-managed)." ++ nl),
     if gatewayUp w then [StopGateway] else [])
  else if isCmd cmd "gateway.start" then
    match ensureSettles w with
    | Rejected err => (failError 500 err, [EnsureGatewayRunning])
    | Resolved ok reason =>
        (okOutput 200 ok
           (if ok then str "Gateway started." ++ nl
            else str "Gateway not started: " ++ reason ++ nl),
         [EnsureGatewayRunning])
    end
  else if isCmd cmd "openclaw.version" then runAndReport w ["--version"]%string []
  else if isCmd cmd "openclaw.status" then runAndReport w ["status"]%string []
  else if isCmd cmd "openclaw.health" then runAndReport w ["health"]%string []
  else if isCmd cmd "openclaw.doctor" then runAndReport w ["doctor"]%string []
  else if isCmd cmd "openclaw.logs.tail" then
    runAndReport w ["logs"; "--tail"]%string [Cmd.decimal (tailLines arg)]
  else if isCmd cmd "openclaw.config.get" then
    if negb (truthy arg) then (failError 400 (str "Missing config path"), [])
    else runAndReport w ["config"; "get"]%string [arg]
  else if isCmd cmd "openclaw.devices.list" then
    runAndReport w ["devices"; "list"]%string []
  else if isCmd cmd "openclaw.devices.approve" then
    let requestId := trim arg in
    if negb (truthy requestId) then
      (failError 400 (str "Missing device request ID"), [])
    else if negb (testWhole identifierRe requestId) then
      (failError 400 (str "Invalid device request ID"), [])
    else runAndReport w ["devices"; "approve"]%string [requestId]
  else if isCmd cmd "openclaw.plugins.list" then
    runAndReport w ["plugins"; "list"]%string []
  else if isCmd cmd "openclaw.plugins.enable" then
    let name := trim arg in
    if negb (truthy name) then (failError 400 (str "Missing plugin name"), [])
    else if negb (testWhole identifierRe name) then
      (failError 400 (str "Invalid plugin name"), [])
    else runAndReport w ["plugins"; "enable"]%string [name]
  else (failError 400 (str "Unhandled command"), []).

(** The argument vectors the console can hand to [runCmd], as a verb
    of fixed words followed by what was derived from the caller's
    argument [arg]. *)
Inductive argvTemplate (arg : jsstring) : list string -> list jsstring -> Prop :=
| template_fixed verb :
    In verb [ ["--version"]; ["status"]; ["health"]; ["doctor"];
              ["devices"; "list"]; ["plugins"; "list"] ]%string ->
    argvTemplate arg verb []
| template_tail n :
    50 <= n <= 1000 ->
    argvTemplate arg ["logs"; "--tail"]%string [Cmd.decimal n]
| template_device id :
    id <> [] -> forallb isWordDash id = true ->
    argvTemplate arg ["devices"; "approve"]%string [id]
| template_plugin name :
    name <> [] -> forallb isWordDash name = true ->
    argvTemplate arg ["plugins"; "enable"]%string [name]
| template_config :
    arg <> [] ->
    argvTemplate arg ["config"; "get"]%string [arg].

(** [app.post("/setup/api/pairing/approve", ...)]: the command output is
    returned as it was captured. *)
Definition pairingApprove (w : world) (channel code : option jsstring)
  : response * list effect :=
  if negb (truthy (fieldString channel)) || negb (truthy (fieldString code)) then
    (failError 400 (str "Missing channel or code"), [])
  else
    let argv := clawArgs (map str ["pairing"; "approve"]%string
                          ++ [fieldString channel; fieldString code]) in
    let r := exec w OPENCLAW_NODE argv in
    let ok := Cmd.code r =? 0 in
    (okOutput (if ok then 200 else 500) ok (Cmd.output r),
     [RunCmd OPENCLAW_NODE argv]).

(** [app.post("/setup/api/devices/approve", ...)] *)
Definition devicesApprove (w : world) (requestIdField : option jsstring)
  : response * list effect :=
  let requestId := trim (fieldString requestIdField) in
  if negb (truthy requestId) then
    (failError 400 (str "Missing device request ID"), [])
  else if negb (testWhole identifierRe requestId) then
    (failError 400 (str "Invalid device request ID"), [])
  else runAndReport w ["devices"; "approve"]%string [requestId].

(** *** [runDoctorBestEffort] *)

Record doctorState : Type := {
  lastDoctorAt : option Z;
  lastDoctorOutput : option jsstring
}.

Definition truncatedMarker : jsstring :=
  nl ++ str "... (truncated)" ++ nl.

(** The size above which the stored doctor output is cut. *)
Definition doctorCeiling : nat := Z.to_nat 50000.

(** [out.length > 50_000 ? out.slice(0, 50_000) + "\n... (truncated)\n" : out] *)
Definition clip (out : jsstring) : jsstring :=
  if (doctorCeiling <? length out)%nat
  then firstn doctorCeiling out ++ truncatedMarker
  else out.

(** [lastDoctorAt && now - lastDoctorAt < 5 * 60 * 1000], where [now]
    is [Date.now()] *)
Definition ranRecently (now : Z) (st : doctorState) : bool :=
  match lastDoctorAt st with
  | Some t => negb (t =? 0) && (now - t <? 5 * 60 * 1000)
  | None => false
  end.

Definition runDoctorBestEffort (w : world) (now : Z) (st : doctorState)
  : doctorState * list effect :=
  if ranRecently now st then (st, [])
  else
    let argv := clawArgs [str "doctor"] in
    let r := exec w OPENCLAW_NODE argv in
    let out := redactSecrets (Cmd.output r) in
    ({| lastDoctorAt := Some now; lastDoctorOutput := Some (clip out) |},
     [RunCmd OPENCLAW_NODE argv]).

(** The reading of "validated before it is interpolated": the argument
    passes the identifier pattern, or is the decimal form of a number
    within the bounds of the tail count. *)
Definition boundedNumber (x : jsstring) : bool :=
  match parseInt10 x with
  | Some n => (50 <=? n) && (n <=? 1000) && str_eqb x (Cmd.decimal n)
  | None => false
  end.

Definition argumentChecked (x : jsstring) : bool :=
  testWhole identifierRe x || boundedNumber x.

End Handlers.

(** A run of the handler that starts no external command. *)
Definition spawnsNothing (effs : list effect) : Prop :=
  forall c argv, ~ In (RunCmd c argv) effs.

(** A command output one character longer than the doctor ceiling. *)
Definition longOutput : jsstring := repeat "a"%char (Z.to_nat 50001).

(** The defaults of [OPENCLAW_ENTRY] and [OPENCLAW_NODE]. *)
Definition defaultEntry : jsstring := str "/openclaw/dist/entry.js".
Definition defaultNode : jsstring := str "node".

(** A world in which every command exits with 0 and prints [text]. *)
Definition printing (text : jsstring) : world :=
  {| exec := fun _ _ => {| Cmd.code := 0; Cmd.output := text |};
     gatewayUp := false;
     restartSettles := Resolved true [];
     ensureSettles := Resolved true [] |}.

End Console.

(** ** Restarting the gateway ([restartGateway])

    [restartGateway] spans two turns of the event loop: up to its
    [await sleep(750)], and from there on.  The supervisor model is extended
    with these two steps; callers asleep in a restart are remembered with
    the handle they signalled. *)

Module Lifecycle.

Record state : Type := {
  sup : Supervisor.state;
  sleeping : list (nat * nat);   (* caller, handle it sent SIGTERM to *)
  signalled : list nat           (* handles sent SIGTERM so far *)
}.

Inductive event : Type :=
| Sup (ev : Supervisor.event)     (* an event of the supervisor proper *)
| RestartBegin (caller : nat)     (* [restartGateway()] up to the sleep *)
| RestartResume (caller : nat).   (* the sleep of that caller is over *)

Definition initial (isConfigured : bool) : state :=
  {| sup := Supervisor.stopped isConfigured; sleeping := []; signalled := [] |}.

Definition asleep (caller : nat) (st : state) : option nat :=
  option_map snd (find (fun ch => fst ch =? caller) (sleeping st)).

Definition wake (caller : nat) (st : state) : list (nat * nat) :=
  List.filter (fun ch => negb (fst ch =? caller)) (sleeping st).

Definition step (st : state) (ev : event) : state :=
  match ev with
  | Sup e =>
      {| sup := Supervisor.step (sup st) e;
         sleeping := sleeping st; signalled := signalled st |}
  | RestartBegin c =>
      match Supervisor.gatewayProc (sup st) with
      | Some h =>
          {| sup := sup st;
             sleeping := sleeping st ++ [(c, h)];
             signalled := signalled st ++ [h] |}
      | None =>
          {| sup := Supervisor.ensureGatewayRunning c (sup st);
             sleeping := sleeping st; signalled := signalled st |}
      end
  | RestartResume c =>
      match asleep c st with
      | Some _ =>
          {| sup := Supervisor.ensureGatewayRunning c
                      (Supervisor.dropProc (sup st));
             sleeping := wake c st; signalled := signalled st |}
      | None => st
      end
  end.

Definition run (st : state) (evs : list event) : state :=
  fold_left step evs st.

(** Handles are handed out in order: every handle in use or remembered
    was spawned before now, and whoever sleeps has signalled its handle. *)
Definition handlesKnown (st : state) : Prop :=
  (forall h, Supervisor.gatewayProc (sup st) = Some h ->
             h < Supervisor.spawns (sup st))
  /\ (forall c h, In (c, h) (sleeping st) ->
                  h < Supervisor.spawns (sup st) /\ In h (signalled st)).

End Lifecycle.

(** What the supervisor keeps true of the callers that wait: they all wait
    for the attempt in flight, and nobody waits when there is none. *)
Definition waitersAttached (st : Supervisor.state) : Prop :=
  match Supervisor.gatewayStarting st with
  | None => Supervisor.awaiting st = []
  | Some (a, _) =>
      Forall (fun ca => snd ca = a) (Supervisor.awaiting st)
      /\ a < Supervisor.attempts st
  end.

(** What [runCmd] keeps true after any sequence of events whatever. *)
Definition escalation (st : Cmd.state) : Prop :=
  match Cmd.timer st, Cmd.killTimer st with
  | Some _, _ =>
      Cmd.sent st = [] /\ Cmd.killTimer st = None /\ Cmd.settled st = None
  | None, Some _ => Cmd.sent st = [Cmd.SIGTERM] /\ Cmd.settled st <> None
  | None, None =>
      (Cmd.sent st = [] \/ Cmd.sent st = [Cmd.SIGTERM]
       \/ Cmd.sent st = [Cmd.SIGTERM; Cmd.SIGKILL])
      /\ Cmd.settled st <> None
  end.

(** The value of a run of decimal digits read from the left, as
    [parseInt10] accumulates it. *)
Definition digitsValue (ds : jsstring) (acc : Z) : Z :=
  fold_left (fun a c => (10 * a + Console.digitValue c)%Z) ds acc.

(** ** Files and the config artifact

    The file system as far as the wrapper reads and writes it: which
    regular files exist, and what they hold. *)

Module Files.

Definition files := jsstring -> option jsstring.

(** [fs.existsSync(p)] *)
Definition existsSync (f : files) (p : jsstring) : bool :=
  match f p with Some _ => true | None => false end.

(** [fs.writeFileSync(p, content)] *)
Definition writeFileSync (p content : jsstring) (f : files) : files :=
  fun q => if str_eqb q p then Some content else f q.

(** [fs.rmSync(p, { force: true })] *)
Definition rmSync (p : jsstring) (f : files) : files :=
  fun q => if str_eqb q p then None else f q.

(** [fs.copyFileSync(src, dst)], for an existing [src] *)
Definition copyFileSync (src dst : jsstring) (f : files) : files :=
  match f src with
  | Some content => writeFileSync dst content f
  | None => f
  end.

(** [fs.renameSync(src, dst)], for an existing [src] *)
Definition renameSync (src dst : jsstring) (f : files) : files :=
  match f src with
  | Some content => writeFileSync dst content (rmSync src f)
  | None => f
  end.

End Files.

Module Config.
Import Files.

Section Paths.

(** [path.join], a runtime primitive. *)
Variable pathJoin : jsstring -> jsstring -> jsstring.
Variable STATE_DIR : jsstring.
(** [process.env.OPENCLAW_CONFIG_PATH]; [None] when unset. *)
Variable envConfigPath : option jsstring.

Definition canonical : jsstring := pathJoin STATE_DIR (str "openclaw.json").

Definition resolveConfigCandidates : list jsstring :=
  let explicit := fieldString (option_map trim envConfigPath) in
  if truthy explicit then [explicit] else [canonical].

Definition configPath (f : files) : jsstring :=
  match find (existsSync f) resolveConfigCandidates with
  | Some candidate => candidate
  | None =>
      let first := nth 0 resolveConfigCandidates [] in
      if truthy first then first else canonical
  end.

Definition isConfigured (f : files) : bool :=
  existsb (existsSync f) resolveConfigCandidates.

(** *** [POST /setup/api/reset] *)

Definition resetMessage : jsstring :=
  str "OK - stopped gateway and deleted config file(s). You can rerun setup now.".

(** [rmFails p] tells whether [fs.rmSync(p)] throws; the handler swallows
    that. *)
Definition removeAll (rmFails : jsstring -> bool) (ps : list jsstring)
  (f : files) : files :=
  fold_left (fun g p => if rmFails p then g else rmSync p g) ps f.

Definition reset (rmFails : jsstring -> bool) (gatewayUp : bool) (f : files)
  : response * list Console.effect * files :=
  ({| status := 200;
      resHeaders := [(str "Content-Type", str "text/plain")];
      resBody := Send resetMessage |},
   if gatewayUp then [Console.StopGateway] else [],
   removeAll rmFails resolveConfigCandidates f).

(** *** [POST /setup/api/config/raw] *)

(** The step of the handler at which the file system throws, if any. *)
Inductive fault : Type :=
| NoFault
| MkdirFails (err : jsstring)
| CopyFails (err : jsstring)
| WriteFails (err : jsstring).

(** [res.status(..).json(..)] of this handler *)
Inductive rawAnswer : Type :=
| RawOk (path : jsstring)                  (* 200 [{ ok: true, path }] *)
| RawError (status : Z) (error : jsstring). (* [{ ok: false, error }] *)

(** [`${p}.bak-${stamp}`], where [stamp] is the time of the request with
    [:] and [.] replaced by [-] *)
Definition backupPath (p stamp : jsstring) : jsstring :=
  p ++ str ".bak-" ++ stamp.

Definition configTooLarge : nat := Z.to_nat 500000.

Definition writeRawConfig (io : fault) (stamp : jsstring)
  (restartSettles : Console.settled) (content : jsstring) (f : files)
  : rawAnswer * list Console.effect * files :=
  if (configTooLarge <? length content)%nat then
    (RawError 413 (str "Config too large"), [], f)
  else
    match io with
    | MkdirFails err => (RawError 500 err, [], f)
    | _ =>
        let p := configPath f in
        let backedUp :=
          if existsSync f p then
            match io with
            | CopyFails err => inr err
            | _ => inl (copyFileSync p (backupPath p stamp) f)
            end
          else inl f in
        match backedUp with
        | inr err => (RawError 500 err, [], f)
        | inl f1 =>
            match io with
            | WriteFails err => (RawError 500 err, [], f1)
            | _ =>
                let f2 := writeFileSync p content f1 in
                if isConfigured f2 then
                  match restartSettles with
                  | Console.Rejected err =>
                      (RawError 500 err, [Console.RestartGateway], f2)
                  | Console.Resolved _ _ =>
                      (RawOk p, [Console.RestartGateway], f2)
                  end
                else (RawOk p, [], f2)
            end
        end
    end.

(** *** Legacy config file migration *)

Definition legacyNames : list jsstring :=
  [str "clawdbot.json"; str "moltbot.json"].

(** [renameFails p] tells whether [fs.renameSync(p, canonical)] throws;
    the loop then goes on to the next legacy name. *)
Fixpoint renameFirstLegacy (renameFails : jsstring -> bool)
  (names : list jsstring) (f : files) : files :=
  match names with
  | [] => f
  | legacy :: rest =>
      let legacyPath := pathJoin STATE_DIR legacy in
      if existsSync f legacyPath then
        if renameFails legacyPath then renameFirstLegacy renameFails rest f
        else renameSync legacyPath canonical f
      else renameFirstLegacy renameFails rest f
  end.

Definition migrateLegacyConfigFile (renameFails : jsstring -> bool)
  (f : files) : files :=
  if truthy (fieldString (option_map trim envConfigPath)) then f
  else if existsSync f canonical then f
  else renameFirstLegacy renameFails legacyNames f.

(** *** The gateway token ([resolveGatewayToken]) *)

Definition tokenPath : jsstring := pathJoin STATE_DIR (str "gateway.token").

(** [generated] is [crypto.randomBytes(32).toString("hex")]; [writeFails]
    tells whether persisting it throws, which is swallowed. *)
Definition resolveGatewayToken (envToken : option jsstring)
  (generated : jsstring) (writeFails : bool) (f : files)
  : jsstring * files :=
  let envTok := fieldString (option_map trim envToken) in
  if truthy envTok then (envTok, f)
  else
    let existing := trim (fieldString (f tokenPath)) in
    if truthy existing then (existing, f)
    else
      (generated,
       if writeFails then f else writeFileSync tokenPath generated f).

End Paths.

End Config.

(** ** Environment variable migration *)

Module Env.

Definition env := jsstring -> option jsstring.

Definition setVar (k v : jsstring) (e : env) : env :=
  fun q => if str_eqb q k then Some v else e q.

Definition deleteVar (k : jsstring) (e : env) : env :=
  fun q => if str_eqb q k then None else e q.

Definition suffixes : list jsstring :=
  map str ["PUBLIC_PORT"; "STATE_DIR"; "WORKSPACE_DIR"; "GATEWAY_TOKEN";
           "CONFIG_PATH"]%string.

Definition oldKey (suffix : jsstring) : jsstring := str "CLAWDBOT_" ++ suffix.
Definition newKey (suffix : jsstring) : jsstring := str "OPENCLAW_" ++ suffix.

(** One turn of the loop. *)
Definition migrateOne (e : env) (suffix : jsstring) : env :=
  let e1 :=
    if truthy (fieldString (e (oldKey suffix)))
       && negb (truthy (fieldString (e (newKey suffix))))
    then setVar (newKey suffix) (fieldString (e (oldKey suffix))) e
    else e in
  deleteVar (oldKey suffix) e1.

Definition migrateEnv (e : env) : env := fold_left migrateOne suffixes e.

End Env.

(** ** Reading an upload ([readBodyBuffer]) *)

Module Body.

Inductive event : Type :=
| Data (chunk : jsstring)     (* a chunk of bytes *)
| End_                        (* the [end] event *)
| Error (err : jsstring).     (* the [error] event, [String(err)] *)

Inductive outcome : Type :=
| Resolved (buffer : jsstring)   (* [Buffer.concat(chunks)] *)
| Rejected (err : jsstring).

Record state : Type := {
  chunks : list jsstring;        (* [const chunks] *)
  total : nat;                   (* [let total] *)
  destroyed : bool;              (* [req.destroy()] was called *)
  settled : option outcome
}.

Definition start : state :=
  {| chunks := []; total := 0; destroyed := false; settled := None |}.

Definition settle (o : outcome) (st : state) : state :=
  match settled st with
  | Some _ => st
  | None => {| chunks := chunks st; total := total st;
               destroyed := destroyed st; settled := Some o |}
  end.

Definition tooLarge : jsstring := str "Error: payload too large".

Definition step (maxBytes : nat) (st : state) (ev : event) : state :=
  match ev with
  | Data chunk =>
      let t := total st + length chunk in
      if (maxBytes <? t)%nat then
        settle (Rejected tooLarge)
          {| chunks := chunks st; total := t; destroyed := true;
             settled := settled st |}
      else
        {| chunks := chunks st ++ [chunk]; total := t;
           destroyed := destroyed st; settled := settled st |}
  | End_ => settle (Resolved (concat (chunks st))) st
  | Error err => settle (Rejected err) st
  end.

Definition readBodyBuffer (maxBytes : nat) (evs : list event) : state :=
  fold_left (step maxBytes) evs start.

(** What the loop keeps true: the buffer holds [total] bytes or, once the
    limit was passed, fewer; it never holds more than the limit. *)
Definition bounded (maxBytes : nat) (st : state) : Prop :=
  length (concat (chunks st)) <= maxBytes
  /\ length (concat (chunks st)) <= total st
  /\ (total st <= maxBytes -> length (concat (chunks st)) = total st)
  /\ (forall b, settled st = Some (Resolved b) -> length b <= maxBytes).

End Body.

(** [path.join(dir, name)] for a directory in normal form and a plain file
    name. *)
Definition slashJoin (dir name : jsstring) : jsstring :=
  dir ++ "/"%char :: name.

(** ** Pending device requests ([extractDeviceRequestIds]) *)

Module Capture.

(** The search of [matchSeq], keeping how many characters each atom of
    the pattern takes in the match found. *)
Fixpoint backtrackParts (rest : jsstring -> option (list nat)) (k j : nat)
  (s : jsstring) : option (list nat) :=
  match rest (skipn (k + j) s) with
  | Some parts => Some ((k + j) :: parts)
  | None => match j with
            | 0 => None
            | S j' => backtrackParts rest k j' s
            end
  end.

Fixpoint matchParts (r : pattern) (s : jsstring) {struct r}
  : option (list nat) :=
  match r with
  | [] => Some []
  | Chr c :: r' =>
      match s with
      | x :: s' =>
          if chr_eqb x c then option_map (cons 1) (matchParts r' s') else None
      | [] => None
      end
  | Cls p :: r' =>
      match s with
      | x :: s' =>
          if p x then option_map (cons 1) (matchParts r' s') else None
      | [] => None
      end
  | AtLeast k p :: r' =>
      let m := runLen p s in
      if k <=? m then backtrackParts (matchParts r') k (m - k) s else None
  end.

(** What the atom at index [i] matched. *)
Definition piece (i : nat) (parts : list nat) (s : jsstring) : jsstring :=
  firstn (nth i parts 0) (skipn (list_sum (firstn i parts)) s).

(** [[...s.matchAll(/r/g)].map((m) => m[1])], where the capture group is
    the atom at index [group]: the matches are found left to right, each
    search resuming after the previous match.  [skip] counts the
    characters of the current match still to be passed over. *)
Fixpoint matchAll (r : pattern) (group : nat) (skip : nat) (s : jsstring)
  : list jsstring :=
  match s with
  | [] => []
  | _ :: t =>
      match skip with
      | S k => matchAll r group k t
      | 0 =>
          match matchParts r s with
          | Some parts =>
              match list_sum parts with
              | S n => piece group parts s :: matchAll r group n t
              | 0 => matchAll r group 0 t
              end
          | None => matchAll r group 0 t
          end
      end
  end.

(** [out.add(x)] on a [Set], which keeps insertion order *)
Definition add (out : list jsstring) (x : jsstring) : list jsstring :=
  if includes x out then out else out ++ [x].

End Capture.

Definition isEqualsOrColon (c : ascii) : bool :=
  chr_eqb c "=" || chr_eqb c ":".

(** [([A-Za-z0-9_-]{6,})] *)
Definition requestIdGroup : atom := AtLeast 6 isWordDash.

(** [/requestId\s*(?:=|:)\s*([A-Za-z0-9_-]{6,})/g], up to its group *)
Definition plainRequestIdHead : pattern :=
  lit "requestId" ++ [AtLeast 0 isSpace; Cls isEqualsOrColon; AtLeast 0 isSpace].

Definition plainRequestIdRe : pattern := plainRequestIdHead ++ [requestIdGroup].

(** [/"requestId"\s*:\s*"([A-Za-z0-9_-]{6,})"/g], up to its group *)
Definition quotedRequestIdHead : pattern :=
  [Chr dquote] ++ lit "requestId"
  ++ [Chr dquote; AtLeast 0 isSpace; Chr ":"; AtLeast 0 isSpace; Chr dquote].

Definition quotedRequestIdRe : pattern :=
  quotedRequestIdHead ++ [requestIdGroup; Chr dquote].

Definition extractDeviceRequestIds (text : jsstring) : list jsstring :=
  let s := text in
  let out :=
    fold_left Capture.add
      (Capture.matchAll plainRequestIdRe (length plainRequestIdHead) 0 s) [] in
  fold_left Capture.add
    (Capture.matchAll quotedRequestIdRe (length quotedRequestIdHead) 0 s) out.

(** [app.get("/setup/api/devices/pending", ...)] answers
    [{ ok, requestIds, output }]. *)
Record pendingAnswer : Type := {
  pendingStatus : Z;
  pendingOk : bool;
  requestIds : list jsstring;
  pendingOutput : jsstring
}.

Definition devicesPending (OPENCLAW_ENTRY OPENCLAW_NODE : jsstring)
  (w : Console.world) : pendingAnswer * list Console.effect :=
  let argv := Console.clawArgs OPENCLAW_ENTRY (map str ["devices"; "list"]%string) in
  let r := Console.exec w OPENCLAW_NODE argv in
  let output := redactSecrets (Cmd.output r) in
  let ok := (Cmd.code r =? 0)%Z in
  ({| pendingStatus := if ok then 200 else 500;
      pendingOk := ok;
      requestIds := extractDeviceRequestIds output;
      pendingOutput := output |},
   [Console.RunCmd OPENCLAW_NODE argv]).

(** ** Export ([GET /setup/export])

    What the handler decides before it hands over to the archive library:
    the directory the archive is taken from and the paths put into it. *)

Module Archive.

(** [segs.join("/")] *)
Fixpoint join (segs : list jsstring) : jsstring :=
  match segs with
  | [] => []
  | [seg] => seg
  | seg :: rest => seg ++ "/"%char :: join rest
  end.

(** [path.resolve(p)] as text, in a process whose working directory is
    [procCwd] *)
Definition resolved (procCwd p : jsstring) : jsstring :=
  "/"%char :: join (resolve procCwd p).

(** POSIX [path.relative] on resolved paths: the common leading
    directories are dropped, each directory left of [from] becomes [..]. *)
Fixpoint relativeSegs (from to : list jsstring) : list jsstring :=
  match from, to with
  | f :: from', t :: to' =>
      if str_eqb f t then relativeSegs from' to'
      else map (fun _ => str "..") from ++ to
  | _, _ => map (fun _ => str "..") from ++ to
  end.

(** [path.relative(from, to)] *)
Definition relative (procCwd from to : jsstring) : jsstring :=
  join (relativeSegs (resolve procCwd from) (resolve procCwd to)).

(** [(p) => p === dataRoot || p.startsWith(dataRoot + path.sep)] *)
Definition underData (p : jsstring) : bool :=
  str_eqb p dataRoot || startsWith (dataRoot ++ str "/") p.

(** [p.replace(/^\//, <empty string>)] *)
Definition stripRoot (p : jsstring) : jsstring :=
  match p with
  | c :: t => if chr_eqb c "/" then t else p
  | [] => p
  end.

(** [x || "."] *)
Definition orDot (x : jsstring) : jsstring :=
  if truthy x then x else str ".".

(** The [cwd] option and the [paths] argument of [tar.c]. *)
Record layout : Type := { cwd : jsstring; paths : list jsstring }.

Definition exportLayout (procCwd STATE_DIR WORKSPACE_DIR : jsstring) : layout :=
  let stateAbs := resolved procCwd STATE_DIR in
  let workspaceAbs := resolved procCwd WORKSPACE_DIR in
  if underData stateAbs && underData workspaceAbs then
    {| cwd := dataRoot;
       paths := [ orDot (relative procCwd dataRoot stateAbs);
                  orDot (relative procCwd dataRoot workspaceAbs) ] |}
  else
    {| cwd := str "/"; paths := map stripRoot [stateAbs; workspaceAbs] |}.

(** A directory name as [path.resolve] leaves it. *)
Definition plainName (seg : jsstring) : Prop :=
  seg <> [] /\ seg <> str "." /\ seg <> str ".." /\ ~ In "/"%char seg.

End Archive.

(** ** Onboarding arguments ([buildOnboardArgs]) *)

Module Onboard.

(** A field of [req.body], which is parsed JSON and is not checked before
    [buildOnboardArgs] reads it. *)
Inductive value : Type :=
| Missing                          (* absent, [null], [false] or [0] *)
| Str (s : jsstring)               (* a string *)
| Other (text : option jsstring).  (* a truthy value that is no string: a
                                      number, [true], an array, an object;
                                      [text] is its conversion to a string,
                                      [None] when the conversion throws *)

Definition truthyValue (v : value) : bool :=
  match v with
  | Missing => false
  | Str s => truthy s
  | Other _ => true
  end.

Definition isPlain (v : value) : bool :=
  match v with Other _ => false | _ => true end.

Record payload : Type := {
  flow : value;
  authChoice : value;
  authSecret : value
}.

(** An element of the argument array: a string; the member of the lookup
    table found under [key] when that is not one of the table's own
    strings; or a truthy payload value that is no string, pushed as it
    is. *)
Inductive arg : Type :=
| Text (s : jsstring)
| Member (key : jsstring)
| Raw (text : option jsstring).

(** A truthy payload value as an element of the array. *)
Definition pushed (v : value) : arg :=
  match v with
  | Str s => Text s
  | Other text => Raw text
  | Missing => Text []
  end.

(** [(v || <empty string>).trim()]; [None] is the [TypeError] thrown when
    the value is truthy and has no [trim] method. *)
Definition trimmed (v : value) : option jsstring :=
  match v with
  | Missing => Some []
  | Str s => Some (trim s)
  | Other _ => None
  end.

(** The property key of [map[v]], which is also the text of [v] in a
    template string; [None] is the [TypeError] thrown when [v] cannot be
    converted. *)
Definition keyOf (v : value) : option jsstring :=
  match v with
  | Missing => Some []
  | Str s => Some s
  | Other text => text
  end.

(** [v === "token"] *)
Definition isToken (v : value) : bool :=
  match v with
  | Str s => str_eqb s (str "token")
  | _ => false
  end.

(** The own properties of [map]. *)
Definition flags : list (jsstring * jsstring) :=
  map (fun kv => (str (fst kv), str (snd kv)))
    [ ("openai-api-key", "--openai-api-key");
      ("apiKey", "--anthropic-api-key");
      ("openrouter-api-key", "--openrouter-api-key");
      ("ai-gateway-api-key", "--ai-gateway-api-key");
      ("moonshot-api-key", "--moonshot-api-key");
      ("kimi-code-api-key", "--kimi-code-api-key");
      ("gemini-api-key", "--gemini-api-key");
      ("zai-api-key", "--zai-api-key");
      ("minimax-api", "--minimax-api-key");
      ("minimax-api-lightning", "--minimax-api-key");
      ("synthetic-api-key", "--synthetic-api-key");
      ("opencode-zen", "--opencode-zen-api-key") ]%string.

(** What an object literal inherits from [Object.prototype]: functions,
    and the prototype object itself under [__proto__]; all of them
    truthy. *)
Definition inherited : list jsstring :=
  map str
    [ "constructor"; "__defineGetter__"; "__defineSetter__";
      "hasOwnProperty"; "__lookupGetter__"; "__lookupSetter__";
      "isPrototypeOf"; "propertyIsEnumerable"; "toString"; "valueOf";
      "__proto__"; "toLocaleString" ]%string.

(** [map[key]]; [None] is [undefined]. *)
Definition lookup (key : jsstring) : option arg :=
  match Http.get key flags with
  | Some flag => Some (Text flag)
  | None => if includes key inherited then Some (Member key) else None
  end.

Definition isSome (v : option arg) : bool :=
  match v with Some _ => true | None => false end.

Inductive result : Type :=
| Args (args : list arg)
| Throws (message : jsstring)   (* [throw new Error(message)] *)
| ThrowsTypeError.              (* a [TypeError] of the runtime *)

Definition missingSecret (choice : jsstring) : jsstring :=
  str "Missing auth secret for authChoice=" ++ choice.

Section Build.

(** [WORKSPACE_DIR], [String(INTERNAL_GATEWAY_PORT)] and
    [OPENCLAW_GATEWAY_TOKEN] *)
Variables WORKSPACE_DIR port token : jsstring.

Definition baseArgs (p : payload) : list arg :=
  map Text
    (map str [ "onboard"; "--non-interactive"; "--accept-risk"; "--json";
               "--no-install-daemon"; "--skip-health"; "--workspace" ]%string
     ++ [WORKSPACE_DIR]
     ++ map str [ "--gateway-bind"; "loopback"; "--gateway-port" ]%string
     ++ [port]
     ++ map str [ "--gateway-auth"; "token"; "--gateway-token" ]%string
     ++ [token; str "--flow"])
  ++ [if truthyValue (flow p) then pushed (flow p)
      else Text (str "quickstart")].

Definition buildOnboardArgs (p : payload) : result :=
  let args := baseArgs p in
  if truthyValue (authChoice p) then
    let args1 :=
      args ++ [Text (str "--auth-choice"); pushed (authChoice p)] in
    match trimmed (authSecret p) with
    | None => ThrowsTypeError
    | Some secret =>
        match keyOf (authChoice p) with
        | None => ThrowsTypeError
        | Some key =>
            let flag := lookup key in
            if isSome flag && negb (truthy secret) then
              Throws (missingSecret key)
            else
              let args2 := match flag with
                           | Some member => args1 ++ [member; Text secret]
                           | None => args1
                           end in
              if isToken (authChoice p) then
                if negb (truthy secret) then
                  Throws (missingSecret (str "token"))
                else
                  Args (args2
                        ++ map Text [str "--token-provider"; str "anthropic";
                                     str "--token"; secret])
              else Args args2
        end
    end
  else Args args.

End Build.

(** The auth choices for which a secret is put on the command line. *)
Definition takesSecret (choice : value) : bool :=
  truthyValue choice
  && match keyOf choice with
     | Some key => isSome (lookup key) || isToken choice
     | None => false
     end.

(** The auth choice names a member the table inherits. *)
Definition namesInherited (choice : value) : bool :=
  match keyOf choice with
  | Some key => includes key inherited
  | None => false
  end.

Definition isText (a : arg) : bool :=
  match a with Text _ => true | _ => false end.

End Onboard.

(** ** The console route

    [app.post("/setup/api/console/run", requireSetupAuth, async (req, res)
    => ...)]: the guard first, and the handler, on the [req.body] the JSON
    body parser has left, only after [next()]. *)
Definition consoleRoute (base64Decode : jsstring -> jsstring)
  (envSetupPassword : option jsstring)
  (OPENCLAW_ENTRY OPENCLAW_NODE : jsstring) (w : Console.world)
  (req : request) (body : Console.payload)
  : response * list Console.effect :=
  guarded base64Decode envSetupPassword Console.effect
    (fun _ => Console.consoleRun OPENCLAW_ENTRY OPENCLAW_NODE w body) req.

(** ** Doctor runs over time

    [runDoctorBestEffort] sets [lastDoctorAt] before its first [await], so
    calls take effect in the order they are made.  [doctorCalls] makes the
    calls at the times [nows], one after the other, and lists the times at
    which the doctor command was run. *)

Definition doctorCall (OPENCLAW_ENTRY OPENCLAW_NODE : jsstring)
  (w : Console.world) (acc : Console.doctorState * list Z) (now : Z)
  : Console.doctorState * list Z :=
  let (st', effs) :=
    Console.runDoctorBestEffort OPENCLAW_ENTRY OPENCLAW_NODE w now (fst acc) in
  (st', match effs with
        | [] => snd acc
        | _ :: _ => snd acc ++ [now]
        end).

Definition doctorCalls (OPENCLAW_ENTRY OPENCLAW_NODE : jsstring)
  (w : Console.world) (nows : list Z) (st : Console.doctorState)
  : Console.doctorState * list Z :=
  fold_left (doctorCall OPENCLAW_ENTRY OPENCLAW_NODE w) nows (st, []).

(** [(5 * 60 * 1000)] ms have passed from [t0], if that is a time, to
    [t]; the time 0 is falsy and counts as no time, so that nothing is
    required after it. *)
Definition fiveMinutesOn (t0 : option Z) (t : Z) : Prop :=
  match t0 with
  | Some t0 => (t0 = 0 \/ 5 * 60 * 1000 <= t - t0)%Z
  | None => True
  end.

(** Each time in the list is five minutes or more after the one before,
    the first one after [after]; except that any time may follow the
    time 0. *)
Fixpoint spaced (after : option Z) (times : list Z) : Prop :=
  match times with
  | [] => True
  | t :: rest => fiveMinutesOn after t /\ spaced (Some t) rest
  end.


(** The time of the latest run. *)
Definition latest (before : option Z) (times : list Z) : option Z :=
  match times with
  | [] => before
  | _ :: _ => Some (last times 0%Z)
  end.

(* ================================================================== *)
(** * Part II.  Properties                                             *)
(* ================================================================== *)

(** ** Strings *)

Lemma chr_eqb_refl (c : ascii) : chr_eqb c c = true.
Proof. apply Ascii.eqb_refl. Qed.

Lemma chr_eqb_eq (a b : ascii) : chr_eqb a b = true <-> a = b.
Proof. apply Ascii.eqb_eq. Qed.

Lemma str_eqb_eq (a b : jsstring) : str_eqb a b = true <-> a = b.
Proof.
  revert b; induction a as [|x a IH]; intros [|y b]; simpl;
    try (split; [discriminate | congruence]); try tauto.
  rewrite andb_true_iff, chr_eqb_eq, IH.
  split; [intros [-> ->]; reflexivity | intros H; inversion H; auto].
Qed.

Lemma str_eqb_refl (a : jsstring) : str_eqb a a = true.
Proof. apply str_eqb_eq; reflexivity. Qed.

Lemma includes_In (x : jsstring) (arr : list jsstring) :
  includes x arr = true <-> In x arr.
Proof.
  unfold includes; rewrite existsb_exists; split.
  - intros (y & Hy & E); apply str_eqb_eq in E; subst; assumption.
  - intros H; exists x; split; [assumption | apply str_eqb_refl].
Qed.

Lemma includes_false (x : jsstring) (arr : list jsstring) :
  includes x arr = false -> ~ In x arr.
Proof.
  intros H HIn; apply includes_In in HIn; congruence.
Qed.

(** ** The archive path filter *)

Lemma looksSafeTarPath_no_parent (p : jsstring) :
  looksSafeTarPath p = true -> ~ In (str "..") (split "/" p).
Proof.
  unfold looksSafeTarPath; intros H.
  destruct (negb (truthy p)); [discriminate|].
  destruct (startsWith (str "/") p || startsWith (str "\") p); [discriminate|].
  destruct (testAnchored driveLetterRe p); [discriminate|].
  destruct (includes (str "..") (split "/" p)) eqn:E; [discriminate|].
  apply includes_false; assumption.
Qed.

Lemma unsafe_path_refused (p : jsstring) :
  isAbsolutePath p \/ hasDrivePrefix p \/ hasParentSegment p ->
  looksSafeTarPath p = false.
Proof.
  intros [(t & [-> | ->]) | [(d & sep & t & -> & Hd & Hsep) | Hpar]].
  - reflexivity.
  - reflexivity.
  - unfold looksSafeTarPath; simpl negb; cbv iota.
    destruct (startsWith (str "/") _ || startsWith (str "\") _); [reflexivity|].
    assert (E : testAnchored driveLetterRe (d :: ":"%char :: sep :: t) = true).
    { unfold testAnchored, driveLetterRe; simpl; rewrite Hd.
      destruct Hsep as [-> | ->]; reflexivity. }
    rewrite E; reflexivity.
  - destruct (looksSafeTarPath p) eqn:E; [|reflexivity].
    exfalso; exact (looksSafeTarPath_no_parent p E Hpar).
Qed.

(** Counterexample to C2 as stated: the drive-letter test wants a
    separator after the colon, so the drive-relative name [C:x] carries a
    drive-letter prefix and still passes the filter. *)
Lemma drive_relative_path_accepted :
  carriesDriveLetter (str "C:x")
  /\ looksSafeTarPath (str "C:x") = true
  /\ In (str "C:x") (importAccepted [str "C:x"]).
Proof.
  split; [|split].
  - exists "C"%char, (str "x"); split; reflexivity.
  - reflexivity.
  - simpl; left; reflexivity.
Qed.

(** C2.  An entry path that is absolute (starts with [/] or [\]), that
    starts with a drive letter, a colon and a separator, or that has a [..]
    segment is refused by [looksSafeTarPath], so the filter of the import
    never lets it through to the archive library; and every path the
    filter does let through is non-empty and has none of these three
    defects. *)
Theorem import_refuses_unsafe_paths (p : jsstring) :
  isAbsolutePath p \/ hasDrivePrefix p \/ hasParentSegment p ->
  looksSafeTarPath p = false
  /\ (forall entries, ~ In p (importAccepted entries))
  /\ (forall entries q,
        In q (importAccepted entries) ->
        q <> [] /\ ~ isAbsolutePath q /\ ~ hasDrivePrefix q
        /\ ~ hasParentSegment q).
Proof.
  intros Hbad; pose proof (unsafe_path_refused p Hbad) as Hrej.
  split; [exact Hrej | split].
  - intros entries HIn; unfold importAccepted in HIn.
    apply filter_In in HIn; destruct HIn as [_ Hok]; congruence.
  - intros entries q HIn; unfold importAccepted in HIn.
    apply filter_In in HIn; destruct HIn as [_ Hok].
    split; [intros ->; discriminate Hok|].
    assert (G : ~ (isAbsolutePath q \/ hasDrivePrefix q \/ hasParentSegment q)).
    { intros H; rewrite (unsafe_path_refused q H) in Hok; discriminate. }
    tauto.
Qed.

Lemma import_refuses_unsafe_paths_witness :
  looksSafeTarPath (str "../../etc/passwd") = false
  /\ (forall entries, ~ In (str "../../etc/passwd") (importAccepted entries)).
Proof.
  destruct (import_refuses_unsafe_paths (str "../../etc/passwd"))
    as (H1 & H2 & _).
  - right; right; unfold hasParentSegment; simpl; left; reflexivity.
  - split; [exact H1 | exact H2].
Defined.

(** The three paths the specification names are all refused, and a path
    inside the state directory is accepted. *)
Example looksSafeTarPath_examples :
  map looksSafeTarPath
      [str "../../etc/passwd"; str "/etc/passwd"; str "C:\x";
       str ".openclaw/openclaw.json"]
  = [false; false; false; true].
Proof. reflexivity. Qed.

(** ** The pattern matcher *)

Lemma runLen_app_ge (p : ascii -> bool) (u rest : jsstring) :
  forallb p u = true -> length u <= runLen p (u ++ rest).
Proof.
  induction u as [|c u IH]; simpl; intros H; [lia|].
  apply andb_true_iff in H; destruct H as [Hc Hu].
  rewrite Hc; specialize (IH Hu); lia.
Qed.

Lemma backtrack_finds (f : jsstring -> option nat) (k : nat) (s : jsstring) :
  forall j i, i <= j -> f (skipn (k + i) s) <> None ->
              backtrack f k j s <> None.
Proof.
  induction j as [|j IH]; intros i Hi Hf; simpl.
  - assert (i = 0) by lia; subst.
    destruct (f (skipn (k + 0) s)); [discriminate | congruence].
  - destruct (f (skipn (k + S j) s)) eqn:E; [discriminate|].
    apply (IH i); [|assumption].
    destruct (Nat.eq_dec i (S j)) as [->|]; [congruence | lia].
Qed.

Lemma backtrack_sound (f : jsstring -> option nat) (k : nat) (s : jsstring) :
  forall j n, backtrack f k j s = Some n ->
              exists i l, i <= j /\ f (skipn (k + i) s) = Some l /\ n = k + i + l.
Proof.
  induction j as [|j IH]; intros n H; simpl in H.
  - destruct (f (skipn (k + 0) s)) as [l|] eqn:E; [|discriminate].
    inversion H; subst; exists 0, l; auto.
  - destruct (f (skipn (k + S j) s)) as [l|] eqn:E.
    + inversion H; subst; exists (S j), l; auto.
    + destruct (IH n H) as (i & l & Hi & Hf & Hn).
      exists i, l; repeat split; auto.
Qed.

(** Completeness: where a matching string begins, the matcher succeeds. *)
Lemma matchSeq_complete (r : pattern) (w : jsstring) :
  matches r w -> forall rest, matchSeq r (w ++ rest) <> None.
Proof.
  induction 1 as [|c r w _ IH|p r x w Hx _ IH|k p r u w Hk Hu _ IH];
    intros rest; simpl.
  - discriminate.
  - rewrite chr_eqb_refl.
    specialize (IH rest); destruct (matchSeq r (w ++ rest)); simpl; congruence.
  - rewrite Hx.
    specialize (IH rest); destruct (matchSeq r (w ++ rest)); simpl; congruence.
  - rewrite <- app_assoc.
    pose proof (runLen_app_ge p u (w ++ rest) Hu) as Hrun.
    destruct (k <=? runLen p (u ++ w ++ rest)) eqn:E;
      [|apply Nat.leb_gt in E; lia].
    apply (backtrack_finds _ _ _ _ (length u - k)); [lia|].
    replace (k + (length u - k)) with (length u + 0) by lia.
    rewrite skipn_app, skipn_all2 by lia.
    replace (length u + 0 - length u) with 0 by lia.
    simpl; apply IH.
Qed.

(** A match is never shorter than the pattern's minimum length. *)
Lemma matchSeq_minLen (r : pattern) :
  forall s n, matchSeq r s = Some n -> minLen r <= n.
Proof.
  induction r as [|[c|p|k p] r IH]; intros s n H; simpl in *.
  - inversion H; lia.
  - destruct s as [|x s]; [discriminate|].
    destruct (chr_eqb x c); [|discriminate].
    destruct (matchSeq r s) as [l|] eqn:E; [|discriminate].
    inversion H; subst; specialize (IH _ _ E); lia.
  - destruct s as [|x s]; [discriminate|].
    destruct (p x); [|discriminate].
    destruct (matchSeq r s) as [l|] eqn:E; [|discriminate].
    inversion H; subst; specialize (IH _ _ E); lia.
  - destruct (k <=? runLen p s); [|discriminate].
    apply backtrack_sound in H; destruct H as (i & l & _ & Hf & ->).
    specialize (IH _ _ Hf); lia.
Qed.

Lemma matches_minLen (r : pattern) (w : jsstring) :
  matches r w -> minLen r <= length w.
Proof.
  induction 1; simpl; try lia.
  rewrite length_app; lia.
Qed.

Lemma forallb_not_in (p : ascii -> bool) (c : ascii) (u : jsstring) :
  p c = false -> forallb p u = true -> ~ In c u.
Proof.
  intros Hc Hu HIn.
  rewrite forallb_forall in Hu; specialize (Hu c HIn); congruence.
Qed.

Lemma matches_avoids (c : ascii) (r : pattern) (w : jsstring) :
  matches r w -> avoids c r = true -> ~ In c w.
Proof.
  induction 1 as [|x r w _ IH|p r x w Hx _ IH|k p r u w _ Hu _ IH];
    simpl; intros Hav.
  - tauto.
  - apply andb_true_iff in Hav; destruct Hav as [Hne Hav].
    intros [->|HIn]; [|exact (IH Hav HIn)].
    rewrite chr_eqb_refl in Hne; discriminate.
  - apply andb_true_iff in Hav; destruct Hav as [Hne Hav].
    intros [->|HIn]; [|exact (IH Hav HIn)].
    rewrite Hx in Hne; discriminate.
  - apply andb_true_iff in Hav; destruct Hav as [Hne Hav].
    apply negb_true_iff in Hne.
    intros HIn; apply in_app_or in HIn; destruct HIn as [HIn|HIn].
    + exact (forallb_not_in p c u Hne Hu HIn).
    + exact (IH Hav HIn).
Qed.

(** ** Global replacement

    The placeholder is a bracketed word.  A string without brackets that is
    longer than the word cannot overlap a placeholder, so wherever it occurs
    in the output of a replacement it was copied from the input, and the
    pattern did not match where it starts. *)

Lemma last_cases (l : jsstring) : l = [] \/ exists l' z, l = l' ++ [z].
Proof.
  destruct l as [|x l] using rev_ind; [left; reflexivity|].
  right; exists l, x; reflexivity.
Qed.

Section Replacement.

Variable r : pattern.
Variables lb rb : ascii.
Variable mid : jsstring.

Let rep : jsstring := lb :: mid ++ [rb].

Variable w : jsstring.
Hypothesis no_lb : ~ In lb w.
Hypothesis no_rb : ~ In rb w.
Hypothesis long : length mid < length w.

Lemma w_nonempty : exists x w', w = x :: w'.
Proof.
  destruct w as [|x w']; [simpl in long; lia | exists x, w'; reflexivity].
Qed.

Lemma w_last : exists w' z, w = w' ++ [z].
Proof.
  destruct (last_cases w) as [E|H]; [|exact H].
  rewrite E in long; simpl in long; lia.
Qed.

Lemma not_inside_placeholder (a b : jsstring) : rep <> a ++ w ++ b.
Proof.
  unfold rep; intros E.
  destruct a as [|x a]; simpl in E.
  - destruct w_nonempty as (y & w' & Hw); rewrite Hw in E.
    inversion E as [[Hy E']].
    apply no_lb; rewrite Hw, Hy; left; reflexivity.
  - inversion E as [[Hx E']]; clear E.
    destruct (last_cases b) as [->|(b' & z & ->)].
    + rewrite app_nil_r in E'.
      destruct w_last as (w' & z & Hw).
      rewrite Hw, app_assoc in E'; apply app_inj_tail in E'.
      destruct E' as [_ <-]; apply no_rb; rewrite Hw.
      apply in_or_app; right; left; reflexivity.
    + rewrite !app_assoc in E'; apply app_inj_tail in E'.
      destruct E' as [E' _]; rewrite E', !length_app in long; lia.
Qed.

(** An occurrence in [rep ++ X] lies in [X]. *)
Lemma infix_past_placeholder (X : jsstring) :
  Infix w (rep ++ X) -> Infix w X.
Proof.
  intros (a & b & E).
  apply app_eq_app in E; destruct E as (l & [[Hrep HX] | [Ha HX]]).
  - (* the occurrence starts inside the placeholder *)
    symmetry in HX; apply app_eq_app in HX.
    destruct HX as (l' & [[Hl Hb] | [Hw HX]]).
    + exfalso; apply (not_inside_placeholder a l').
      rewrite Hrep, Hl; reflexivity.
    + destruct (last_cases l) as [->|(l0 & z & Hl)].
      * simpl in Hw; exists [], b; simpl; rewrite HX, <- Hw; reflexivity.
      * exfalso; apply no_rb.
        assert (z = rb).
        { unfold rep in Hrep; rewrite Hl, app_assoc in Hrep.
          change (lb :: mid ++ [rb]) with ((lb :: mid) ++ [rb]) in Hrep.
          apply app_inj_tail in Hrep; destruct Hrep; congruence. }
        subst z; rewrite Hw, Hl; apply in_or_app; left.
        apply in_or_app; right; left; reflexivity.
  - exists l, b; exact HX.
Qed.

(** A bracket-free prefix of the output was copied from the input. *)
Lemma scan_prefix_copied :
  forall (v t rest : jsstring),
    ~ In lb v -> scan r rep 0 t = v ++ rest ->
    exists rest', t = v ++ rest'.
Proof.
  induction v as [|x v IH]; intros t rest Hv E.
  - exists t; reflexivity.
  - destruct t as [|c t]; [discriminate|].
    cbn [scan] in E.
    assert (Hcopy : c :: scan r rep 0 t = (x :: v) ++ rest ->
                    exists rest', c :: t = (x :: v) ++ rest').
    { intros E0; inversion E0; subst.
      destruct (IH t rest) as [rest' ->]; [|assumption|].
      - intros H; apply Hv; right; exact H.
      - exists rest'; reflexivity. }
    destruct (matchSeq r (c :: t)) as [[|n]|]; try (apply Hcopy; exact E).
    unfold rep in E; inversion E; subst.
    exfalso; apply Hv; left; reflexivity.
Qed.

(** Where [w] occurs in the output, it occurs in the input, at a place
    where the pattern has no non-empty match. *)
Lemma scan_infix :
  forall (s : jsstring) (skip : nat),
    Infix w (scan r rep skip s) ->
    exists a b, skipn skip s = a ++ w ++ b
                /\ forall n, matchSeq r (w ++ b) <> Some (S n).
Proof.
  induction s as [|c t IH]; intros skip Hin.
  - destruct Hin as (a & b & E); simpl in E.
    destruct w_nonempty as (y & w' & Hw); rewrite Hw in E.
    destruct a; discriminate.
  - destruct skip as [|k]; cbn [scan] in Hin.
    + assert (Hcopy : Infix w (c :: scan r rep 0 t) ->
                      (forall n, matchSeq r (c :: t) <> Some (S n)) ->
                      exists a b, skipn 0 (c :: t) = a ++ w ++ b
                         /\ forall n, matchSeq r (w ++ b) <> Some (S n)).
      { intros (a & b & E) Hno; destruct a as [|x a]; simpl in E.
        - destruct w_nonempty as (y & w' & Hw).
          rewrite Hw in E; injection E as Hc E'.
          destruct (scan_prefix_copied w' t b) as [rest' Ht]; [|exact E'|].
          + intros H; apply no_lb; rewrite Hw; right; exact H.
          + exists [], rest'; simpl; split.
            * rewrite Hw, Ht, Hc; reflexivity.
            * rewrite Hw; simpl; rewrite <- Ht, <- Hc; exact Hno.
        - injection E as Hc E'.
          destruct (IH 0) as (a' & b' & Ht & Hno').
          { exists a, b; exact E'. }
          simpl in Ht; exists (c :: a'), b'; simpl; split.
          + rewrite Ht; reflexivity.
          + exact Hno'. }
      destruct (matchSeq r (c :: t)) as [[|n]|] eqn:Em.
      * apply Hcopy; [exact Hin | intros n; discriminate].
      * apply infix_past_placeholder in Hin.
        destruct (IH n Hin) as (a' & b' & Ht & Hno').
        exists (c :: firstn n t ++ a'), b'; split; [|exact Hno'].
        simpl; rewrite <- app_assoc, <- Ht, firstn_skipn; reflexivity.
      * apply Hcopy; [exact Hin | intros n; discriminate].
    + simpl; apply IH; exact Hin.
Qed.

Lemma replaceAll_infix (t : jsstring) :
  Infix w (replaceAll r rep t) -> Infix w t.
Proof.
  intros H; destruct (scan_infix t 0 H) as (a & b & E & _).
  exists a, b; exact E.
Qed.

(** No string the pattern matches survives the replacement. *)
Lemma replaceAll_removes (t : jsstring) :
  matches r w -> 1 <= minLen r -> ~ Infix w (replaceAll r rep t).
Proof.
  intros Hm Hmin H; destruct (scan_infix t 0 H) as (a & b & _ & Hno).
  destruct (matchSeq r (w ++ b)) as [n|] eqn:E.
  - pose proof (matchSeq_minLen r (w ++ b) n E).
    destruct n as [|n]; [lia | exact (Hno n eq_refl)].
  - exact (matchSeq_complete r w Hm b E).
Qed.

End Replacement.

(** ** Redaction *)

Lemma secretShape_facts (w : jsstring) :
  secretShape w ->
  ~ In "["%char w /\ ~ In "]"%char w /\ length (str "REDACTED") < length w.
Proof.
  assert (G : forall r, matches r w ->
                avoids "[" r = true -> avoids "]" r = true -> 9 <= minLen r ->
                ~ In "["%char w /\ ~ In "]"%char w
                /\ length (str "REDACTED") < length w).
  { intros r Hm Hl Hr Hmin; repeat split.
    - exact (matches_avoids "[" r w Hm Hl).
    - exact (matches_avoids "]" r w Hm Hr).
    - pose proof (matches_minLen r w Hm); simpl; lia. }
  intros [H|[H|[H|H]]]; apply (G _ H); try reflexivity; simpl; lia.
Qed.

Lemma infix_nil (w : jsstring) : Infix w [] -> w = [].
Proof.
  intros (a & b & E); symmetry in E.
  apply app_eq_nil in E; destruct E as [_ E].
  apply app_eq_nil in E; tauto.
Qed.

(** What [redactSecrets] returns contains no piece with a secret shape,
    whatever the text was. *)
Lemma redactSecrets_no_secret (text w : jsstring) :
  secretShape w -> ~ Infix w (redactSecrets text).
Proof.
  intros Hs Hin.
  destruct (secretShape_facts w Hs) as (Hlb & Hrb & Hlong).
  unfold redactSecrets in Hin.
  destruct (negb (truthy text)) eqn:Et.
  - destruct text; [|discriminate].
    apply infix_nil in Hin; subst; simpl in Hlong; lia.
  - change REDACTED with ("["%char :: str "REDACTED" ++ ["]"%char]) in Hin.
    pose proof (replaceAll_infix aaRe _ _ _ w Hlb Hrb Hlong _ Hin) as H4.
    destruct Hs as [H|[H|[H|H]]].
    + pose proof (replaceAll_infix telegramRe _ _ _ w Hlb Hrb Hlong _ H4) as H3.
      pose proof (replaceAll_infix xoxRe _ _ _ w Hlb Hrb Hlong _ H3) as H2.
      pose proof (replaceAll_infix ghoRe _ _ _ w Hlb Hrb Hlong _ H2) as H1.
      refine (replaceAll_removes skRe _ _ _ w Hlb Hrb Hlong _ H _ H1); simpl; lia.
    + pose proof (replaceAll_infix telegramRe _ _ _ w Hlb Hrb Hlong _ H4) as H3.
      pose proof (replaceAll_infix xoxRe _ _ _ w Hlb Hrb Hlong _ H3) as H2.
      refine (replaceAll_removes ghoRe _ _ _ w Hlb Hrb Hlong _ H _ H2); simpl; lia.
    + pose proof (replaceAll_infix telegramRe _ _ _ w Hlb Hrb Hlong _ H4) as H3.
      refine (replaceAll_removes xoxRe _ _ _ w Hlb Hrb Hlong _ H _ H3); simpl; lia.
    + refine (replaceAll_removes telegramRe _ _ _ w Hlb Hrb Hlong _ H _ H4); simpl; lia.
Qed.

(** ** The debug console *)

Import Console.

Lemma truthy_nonempty (s : jsstring) : truthy s = true -> s <> [].
Proof. destruct s; [discriminate | discriminate]. Qed.

Lemma runLen_le (p : ascii -> bool) (s : jsstring) : runLen p s <= length s.
Proof. induction s as [|c s IH]; simpl; [lia | destruct (p c); lia]. Qed.

Lemma runLen_full (p : ascii -> bool) (s : jsstring) :
  runLen p s = length s -> forallb p s = true.
Proof.
  induction s as [|c s IH]; simpl; [reflexivity|].
  destruct (p c); [|discriminate].
  intros H; apply IH; lia.
Qed.

Lemma backtrack_first (k j : nat) (s : jsstring) :
  backtrack (matchSeq []) k j s = Some (k + j + 0).
Proof. destruct j; reflexivity. Qed.

(** [/^[A-Za-z0-9_-]+$/] accepts only non-empty strings made of letters,
    digits, [_] and [-]. *)
Lemma identifierRe_accepts (s : jsstring) :
  testWhole identifierRe s = true -> s <> [] /\ forallb isWordDash s = true.
Proof.
  unfold testWhole, identifierRe; cbn [matchSeq].
  destruct (1 <=? runLen isWordDash s) eqn:E; [|discriminate].
  apply Nat.leb_le in E; rewrite backtrack_first.
  intros H; apply Nat.eqb_eq in H; split.
  - intros ->; simpl in E; lia.
  - apply runLen_full; lia.
Qed.

Lemma tailLines_bounds (a : jsstring) : (50 <= tailLines a <= 1000)%Z.
Proof. unfold tailLines; lia. Qed.

Ltac no_spawn :=
  left; intros ? ? HIn; simpl in HIn;
  repeat (destruct HIn as [HIn|HIn]; [discriminate|]); exact HIn.

Ltac fixed_verb :=
  right; eexists _, []; split; [|reflexivity];
  apply template_fixed; simpl; tauto.

(** Every run of the handler either spawns nothing, or is one [runCmd] of
    an argument vector built from a template. *)
Lemma consoleRun_spec (E N : jsstring) (w : world) (p : payload) :
  spawnsNothing (snd (consoleRun E N w p))
  \/ exists verb extra,
       argvTemplate (trim (fieldString (arg p))) verb extra
       /\ consoleRun E N w p = runAndReport E N w verb extra.
Proof.
  unfold consoleRun.
  set (c := trim (fieldString (cmd p))).
  set (a := trim (fieldString (arg p))).
  destruct (negb (has c)); [no_spawn|].
  destruct (isCmd c "gateway.restart").
  { destruct (restartSettles w); no_spawn. }
  destruct (isCmd c "gateway.stop").
  { destruct (gatewayUp w); no_spawn. }
  destruct (isCmd c "gateway.start").
  { destruct (ensureSettles w); no_spawn. }
  destruct (isCmd c "openclaw.version"); [fixed_verb|].
  destruct (isCmd c "openclaw.status"); [fixed_verb|].
  destruct (isCmd c "openclaw.health"); [fixed_verb|].
  destruct (isCmd c "openclaw.doctor"); [fixed_verb|].
  destruct (isCmd c "openclaw.logs.tail").
  { right; eexists _, _; split; [|reflexivity].
    apply template_tail, tailLines_bounds. }
  destruct (isCmd c "openclaw.config.get").
  { destruct (truthy a) eqn:Ea; simpl negb; cbv iota; [|no_spawn].
    right; eexists _, _; split; [|reflexivity].
    apply template_config, truthy_nonempty; exact Ea. }
  destruct (isCmd c "openclaw.devices.list"); [fixed_verb|].
  destruct (isCmd c "openclaw.devices.approve").
  { destruct (truthy (trim a)); simpl negb; cbv iota; [|no_spawn].
    destruct (testWhole identifierRe (trim a)) eqn:Et; simpl negb; cbv iota;
      [|no_spawn].
    right; eexists _, _; split; [|reflexivity].
    apply template_device; apply (identifierRe_accepts _ Et). }
  destruct (isCmd c "openclaw.plugins.list"); [fixed_verb|].
  destruct (isCmd c "openclaw.plugins.enable").
  { destruct (truthy (trim a)); simpl negb; cbv iota; [|no_spawn].
    destruct (testWhole identifierRe (trim a)) eqn:Et; simpl negb; cbv iota;
      [|no_spawn].
    right; eexists _, _; split; [|reflexivity].
    apply template_plugin; apply (identifierRe_accepts _ Et). }
  no_spawn.
Qed.


Lemma consoleRun_runs (E N : jsstring) (w : world) (p : payload)
  (c : jsstring) (argv : list jsstring) :
  In (RunCmd c argv) (snd (consoleRun E N w p)) ->
  exists verb extra,
    argvTemplate (trim (fieldString (arg p))) verb extra
    /\ consoleRun E N w p = runAndReport E N w verb extra
    /\ c = N /\ argv = clawArgs E (map str verb ++ extra).
Proof.
  intros HIn.
  destruct (consoleRun_spec E N w p) as [Hno | (verb & extra & Ht & Heq)].
  - exfalso; exact (Hno c argv HIn).
  - exists verb, extra; split; [exact Ht | split; [exact Heq|]].
    rewrite Heq in HIn; simpl in HIn.
    destruct HIn as [HIn|[]]; inversion HIn; split; reflexivity.
Qed.



(** The allowlist is closed: membership is decided against a fixed list. *)
Lemma allowlist_closed (c : jsstring) :
  has c = true <-> In c ALLOWED_CONSOLE_COMMANDS.
Proof. apply includes_In. Qed.

(** Counterexample to C4 as stated: the config path of
    [openclaw.config.get] reaches the command line without having passed
    the identifier pattern or a numeric clamp. *)
Lemma config_path_not_checked :
  snd (consoleRun defaultEntry defaultNode (printing [])
         {| cmd := Some (str "openclaw.config.get");
            arg := Some (str "gateway.auth token") |})
  = [RunCmd defaultNode
       [defaultEntry; str "config"; str "get"; str "gateway.auth token"]]
  /\ argumentChecked (str "gateway.auth token") = false.
Proof. split; reflexivity. Qed.

(** C4.  Every process the console spawns is [OPENCLAW_NODE] run on the
    entry script, a verb of fixed words and at most one argument derived
    from the caller: a tail count clamped to 50..1000, a device request
    identifier or a plugin name that is non-empty and made of letters,
    digits, [_] and [-], or a config path, which is only required to be
    non-empty. *)
Theorem console_arguments_checked (E N : jsstring) (w : world) (p : payload)
  (c : jsstring) (argv : list jsstring) :
  In (RunCmd c argv) (snd (consoleRun E N w p)) ->
  c = N
  /\ exists verb extra,
       argv = clawArgs E (map str verb ++ extra)
       /\ argvTemplate (trim (fieldString (arg p))) verb extra.
Proof.
  intros HIn.
  destruct (consoleRun_runs E N w p c argv HIn)
    as (verb & extra & Ht & _ & Hc & Hargv).
  split; [exact Hc | exists verb, extra; split; assumption].
Qed.

Lemma console_arguments_checked_witness :
  defaultNode = defaultNode
  /\ exists verb extra,
       [defaultEntry; str "logs"; str "--tail"; str "1000"]
       = clawArgs defaultEntry (map str verb ++ extra)
       /\ argvTemplate (trim (fieldString (Some (str "5000")))) verb extra.
Proof.
  apply (console_arguments_checked defaultEntry defaultNode (printing [])
           {| cmd := Some (str "openclaw.logs.tail"); arg := Some (str "5000") |}
           defaultNode [defaultEntry; str "logs"; str "--tail"; str "1000"]).
  simpl; left; reflexivity.
Defined.


Lemma runAndReport_text (E N : jsstring) (w : world) (verb : list string)
  (extra : list jsstring) :
  textOf (fst (runAndReport E N w verb extra))
  = [redactSecrets
       (Cmd.output (exec w N (clawArgs E (map str verb ++ extra))))].
Proof. reflexivity. Qed.

Lemma sk_example_shape : secretShape (str "sk-abcdefghij0").
Proof.
  left; unfold skRe; simpl.
  do 3 apply matches_chr.
  change (matches [AtLeast 10 isWordDash] (str "abcdefghij0" ++ [])).
  apply matches_rep; [simpl; lia | reflexivity | apply matches_nil].
Qed.

(** C5.  [/setup/api/pairing/approve] hands the captured output of its
    command back as it was captured, so a piece of that output with a
    secret shape reaches the caller verbatim.  The other handlers that
    return the output of a command do redact it: what
    [/setup/api/devices/approve] and the console return after running a
    command is the output passed through [redactSecrets], and whatever
    went through [redactSecrets] has no piece with the shape of an [sk-],
    [gho_] or [xox?-] key or of a Telegram [digits:token]. *)
Theorem pairing_approve_skips_redaction (E N : jsstring) (w : world)
  (channel code : jsstring) :
  channel <> [] -> code <> [] ->
  let argv :=
    clawArgs E (map str ["pairing"; "approve"]%string ++ [channel; code]) in
  let out := Cmd.output (exec w N argv) in
  let answer := pairingApprove E N w (Some channel) (Some code) in
  snd answer = [RunCmd N argv]
  /\ textOf (fst answer) = [out]
  /\ (forall s, secretShape s -> Infix s out ->
        exists t, In t (textOf (fst answer)) /\ Infix s t)
  /\ (forall id c argv' t s,
        In (RunCmd c argv') (snd (devicesApprove E N w id)) ->
        In t (textOf (fst (devicesApprove E N w id))) ->
        secretShape s -> ~ Infix s t)
  /\ (forall p c argv' t s,
        In (RunCmd c argv') (snd (consoleRun E N w p)) ->
        In t (textOf (fst (consoleRun E N w p))) ->
        secretShape s -> ~ Infix s t)
  /\ (forall text s, secretShape s -> ~ Infix s (redactSecrets text)).
Proof.
  intros Hch Hco argv out answer; subst answer; unfold pairingApprove.
  cbn [fieldString].
  destruct channel as [|c0 channel]; [congruence|].
  destruct code as [|c1 code]; [congruence|].
  cbn [truthy negb orb]; fold argv; fold out.
  split; [reflexivity | split; [reflexivity | split; [|split; [|split]]]].
  - intros s _ Hin; exists out; split; [left; reflexivity | exact Hin].
  - intros id c argv' t s; unfold devicesApprove.
    destruct (negb (truthy (trim (fieldString id)))); [intros []|].
    destruct (negb (testWhole identifierRe (trim (fieldString id))));
      [intros []|].
    rewrite runAndReport_text.
    intros _ [<-|[]] Hs; apply redactSecrets_no_secret; exact Hs.
  - intros p c argv' t s HIn.
    destruct (consoleRun_runs E N w p c argv' HIn)
      as (verb & extra & _ & Heq & _ & _).
    rewrite Heq, runAndReport_text.
    intros [<-|[]] Hs; apply redactSecrets_no_secret; exact Hs.
  - intros text s; apply redactSecrets_no_secret.
Qed.

Lemma pairing_approve_skips_redaction_witness :
  textOf (fst (pairingApprove defaultEntry defaultNode
                 (printing (str "token sk-abcdefghij0"))
                 (Some (str "telegram")) (Some (str "ABC123"))))
  = [str "token sk-abcdefghij0"]
  /\ secretShape (str "sk-abcdefghij0")
  /\ Infix (str "sk-abcdefghij0") (str "token sk-abcdefghij0").
Proof.
  split; [|split; [exact sk_example_shape|]].
  - apply (pairing_approve_skips_redaction defaultEntry defaultNode
             (printing (str "token sk-abcdefghij0"))
             (str "telegram") (str "ABC123")); discriminate.
  - exists (str "token "), []; reflexivity.
Defined.

(** ** Output size *)

Lemma infix_in (w t : jsstring) (c : ascii) : Infix w t -> In c w -> In c t.
Proof.
  intros (a & b & ->) H; apply in_or_app; right; apply in_or_app; left; exact H.
Qed.

Lemma scan_copies_run (r : pattern) (rep : jsstring) (c : ascii) (n : nat) :
  (forall t, matchSeq r (c :: t) = None) ->
  scan r rep 0 (repeat c n) = repeat c n.
Proof.
  intros Hno; induction n as [|n IH]; simpl; [reflexivity|].
  rewrite Hno, IH; reflexivity.
Qed.

Lemma redactSecrets_plain_run (n : nat) :
  redactSecrets (repeat "a"%char n) = repeat "a"%char n.
Proof.
  unfold redactSecrets, replaceAll.
  destruct (negb (truthy (repeat "a"%char n))); [reflexivity|].
  rewrite !scan_copies_run; try reflexivity; intros t; reflexivity.
Qed.

(** Counterexample to C9 as stated: the console returns a doctor output
    of 50,001 characters whole, with no truncation marker. *)
Lemma console_output_not_truncated :
  doctorCeiling < length longOutput
  /\ textOf (fst (consoleRun defaultEntry defaultNode (printing longOutput)
                    {| cmd := Some (str "openclaw.doctor"); arg := None |}))
     = [longOutput]
  /\ ~ Infix truncatedMarker longOutput.
Proof.
  split; [|split].
  - unfold longOutput, doctorCeiling; rewrite repeat_length.
    apply Z2Nat.inj_lt; lia.
  - change (textOf (fst (runAndReport defaultEntry defaultNode
                           (printing longOutput) ["doctor"%string] []))
            = [longOutput]).
    rewrite runAndReport_text; unfold printing; cbn [exec Cmd.output].
    unfold longOutput; rewrite redactSecrets_plain_run; reflexivity.
  - intros H; apply (infix_in _ _ Cmd.newline) in H; [|left; reflexivity].
    apply repeat_spec in H; discriminate H.
Qed.

Lemma runCmd_captures_all (opts : option Z) (chunks : list jsstring) :
  Cmd.out (Cmd.runCmd opts (map Cmd.Data chunks)) = concat chunks.
Proof.
  unfold Cmd.runCmd.
  assert (G : forall st,
             Cmd.out (fold_left (Cmd.step (Cmd.timeoutOf opts))
                        (map Cmd.Data chunks) st)
             = Cmd.out st ++ concat chunks).
  { induction chunks as [|d chunks IH]; intros st; simpl.
    - rewrite app_nil_r; reflexivity.
    - rewrite IH; simpl; rewrite app_assoc; reflexivity. }
  rewrite G; reflexivity.
Qed.

(** C9.  Only the doctor diagnostic kept by [runDoctorBestEffort] is
    limited in size: when it runs the command, it stores the redacted
    output, cut to its first 50,000 characters followed by the truncation
    marker if it is longer than that.  The console returns the redacted
    output of a command in full, and [runCmd] accumulates every chunk it
    receives. *)
Theorem doctor_output_clipped (E N : jsstring) (w : world) (now : Z)
  (st : doctorState) :
  ranRecently now st = false ->
  let out := redactSecrets (Cmd.output (exec w N (clawArgs E [str "doctor"]))) in
  lastDoctorOutput (fst (runDoctorBestEffort E N w now st)) = Some (clip out)
  /\ (doctorCeiling < length out ->
      clip out = firstn doctorCeiling out ++ truncatedMarker)
  /\ (length out <= doctorCeiling -> clip out = out)
  /\ (forall p c argv,
        In (RunCmd c argv) (snd (consoleRun E N w p)) ->
        textOf (fst (consoleRun E N w p))
        = [redactSecrets (Cmd.output (exec w c argv))])
  /\ (forall opts chunks,
        Cmd.out (Cmd.runCmd opts (map Cmd.Data chunks)) = concat chunks).
Proof.
  intros Hrec out; unfold runDoctorBestEffort; rewrite Hrec; simpl fst.
  split; [reflexivity | split; [|split; [|split]]].
  - intros H; unfold clip.
    apply Nat.ltb_lt in H; rewrite H; reflexivity.
  - intros H; unfold clip.
    apply Nat.ltb_ge in H; rewrite H; reflexivity.
  - intros p c argv HIn.
    destruct (consoleRun_runs E N w p c argv HIn)
      as (verb & extra & _ & Heq & -> & ->).
    rewrite Heq; apply runAndReport_text.
  - apply runCmd_captures_all.
Qed.

Lemma doctor_output_clipped_witness :
  lastDoctorOutput
    (fst (runDoctorBestEffort defaultEntry defaultNode (printing longOutput)
            1000 {| lastDoctorAt := None; lastDoctorOutput := None |}))
  = Some (clip (redactSecrets longOutput)).
Proof.
  apply (doctor_output_clipped defaultEntry defaultNode (printing longOutput)
           1000 {| lastDoctorAt := None; lastDoctorOutput := None |}).
  reflexivity.
Defined.

(** ** Request headers *)

Lemma get_set_same (name v : jsstring) (h : headers) :
  get name (set name v h) = Some v.
Proof.
  induction h as [|[k x] h IH]; simpl.
  - rewrite str_eqb_refl; reflexivity.
  - destruct (str_eqb k name) eqn:E; simpl; rewrite E; [reflexivity | exact IH].
Qed.

Lemma get_set_other (name other v : jsstring) (h : headers) :
  other <> name -> get other (set name v h) = get other h.
Proof.
  intros Hne; induction h as [|[k x] h IH]; simpl.
  - destruct (str_eqb name other) eqn:E; [|reflexivity].
    apply str_eqb_eq in E; congruence.
  - destruct (str_eqb k name) eqn:E; simpl.
    + apply str_eqb_eq in E; subst k.
      destruct (str_eqb name other) eqn:E'; [|reflexivity].
      apply str_eqb_eq in E'; congruence.
    + rewrite IH; reflexivity.
Qed.

(** Counterexample to C7 as stated: an [authorization] header that is
    present but empty is replaced by the bearer token. *)
Lemma empty_authorization_replaced :
  get authorizationName
      (reqHeaders {| path := str "/"; reqHeaders := [(authorizationName, [])] |})
  = Some []
  /\ get authorizationName
       (reqHeaders
          (attachGatewayAuthHeader (str "tok")
             {| path := str "/"; reqHeaders := [(authorizationName, [])] |}))
     = Some (str "Bearer tok").
Proof. split; reflexivity. Qed.

(** C7.  [attachGatewayAuthHeader] sets [authorization] to
    [Bearer <token>] exactly when the gateway token is non-empty and the
    request has no [authorization] header or an empty one; a request with
    a non-empty [authorization] header, and any request when the token is
    empty, is left as it is.  No other header and not the path is ever
    changed. *)
Theorem attachGatewayAuthHeader_spec (token : jsstring) (req : request) :
  let before := get authorizationName (reqHeaders req) in
  let req' := attachGatewayAuthHeader token req in
  (token <> [] -> before = None \/ before = Some [] ->
   get authorizationName (reqHeaders req') = Some (bearer token))
  /\ (forall v, before = Some v -> v <> [] -> req' = req)
  /\ (token = [] -> req' = req)
  /\ (forall name, name <> authorizationName ->
        get name (reqHeaders req') = get name (reqHeaders req))
  /\ path req' = path req.
Proof.
  intros before req'; subst before req'; unfold attachGatewayAuthHeader.
  repeat split.
  - intros Htok Hb.
    assert (E : truthy (fieldString (get authorizationName (reqHeaders req)))
                = false) by (destruct Hb as [-> | ->]; reflexivity).
    rewrite E; destruct token; [congruence|]; simpl.
    apply get_set_same.
  - intros v -> Hv; destruct v; [congruence | reflexivity].
  - intros ->; rewrite andb_false_r; reflexivity.
  - intros name Hne.
    destruct (negb _ && truthy token); [|reflexivity].
    simpl; apply get_set_other; exact Hne.
  - destruct (negb _ && truthy token); reflexivity.
Qed.

Lemma attachGatewayAuthHeader_spec_witness :
  get authorizationName
      (reqHeaders (attachGatewayAuthHeader (str "tok")
                     {| path := str "/"; reqHeaders := [] |}))
  = Some (bearer (str "tok")).
Proof.
  apply (attachGatewayAuthHeader_spec (str "tok")
           {| path := str "/"; reqHeaders := [] |}).
  - discriminate.
  - left; reflexivity.
Defined.

(** ** The setup guard *)

Lemma requireSetupAuth_blank (base64Decode : jsstring -> jsstring)
  (env : option jsstring) (req : request) :
  fieldString (option_map trim env) = [] ->
  requireSetupAuth base64Decode env req
  = Answered {| status := 500;
                resHeaders := [(str "Content-Type", str "text/plain")];
                resBody := Send noPasswordMessage |}.
Proof.
  intros H; unfold requireSetupAuth, SETUP_PASSWORD; rewrite H; reflexivity.
Qed.

(** C10.  With [SETUP_PASSWORD] unset, a route guarded by
    [requireSetupAuth] answers every request with status 500 and the fixed
    message, and its handler does not run: the guard never calls [next()].
    The same holds when the variable is set to white space only. *)
Theorem setup_guard_fails_closed (base64Decode : jsstring -> jsstring)
  (E : Type) (handler : request -> response * list E) (req : request) :
  guarded base64Decode None E handler req
  = ({| status := 500;
        resHeaders := [(str "Content-Type", str "text/plain")];
        resBody := Send noPasswordMessage |}, [])
  /\ requireSetupAuth base64Decode None req <> Next
  /\ (forall blank,
        trim blank = [] ->
        guarded base64Decode (Some blank) E handler req
        = ({| status := 500;
              resHeaders := [(str "Content-Type", str "text/plain")];
              resBody := Send noPasswordMessage |}, [])).
Proof.
  split; [|split].
  - unfold guarded; rewrite requireSetupAuth_blank; reflexivity.
  - rewrite requireSetupAuth_blank by reflexivity; discriminate.
  - intros blank Hblank; unfold guarded.
    rewrite requireSetupAuth_blank; [reflexivity | exact Hblank].
Qed.

(** ** The proxy *)

Import Proxy.

(** Counterexample to C6 as stated: with no config, a WebSocket upgrade is
    not redirected, its socket is destroyed. *)
Lemma unconfigured_upgrade_not_redirected :
  upgrade (str "tok") false None {| path := str "/"; reqHeaders := [] |}
  = (None, [SocketDestroy])
  /\ isRedirectTo (str "/setup")
       (fst (upgrade (str "tok") false None
               {| path := str "/"; reqHeaders := [] |})) = false.
Proof. split; reflexivity. Qed.

(** C6.  With no config, the catch-all middleware answers a request whose
    path does not start with [/setup] with a redirect to [/setup] and does
    nothing else, and a WebSocket upgrade has its socket destroyed
    whatever its path.  With a config, both first call
    [ensureGatewayRunning]; if that succeeds the request, with the bearer
    token attached, is handed to the proxy, and if it fails the request is
    answered with status 503, the upgrade's socket destroyed. *)
Theorem proxy_gate (token : jsstring) (lastGatewayError : option jsstring)
  (req : request) :
  (startsWith (str "/setup") (path req) = false ->
   forall ensure,
     middleware token false ensure lastGatewayError req
     = (Some (redirect (str "/setup")), [])
     /\ isRedirectTo (str "/setup")
          (fst (middleware token false ensure lastGatewayError req)) = true)
  /\ (forall ensure, upgrade token false ensure req = (None, [SocketDestroy]))
  /\ middleware token true None lastGatewayError req
     = (None, [EnsureGatewayRunning;
               ProxyWeb (attachGatewayAuthHeader token req)])
  /\ upgrade token true None req
     = (None, [EnsureGatewayRunning;
               ProxyWs (attachGatewayAuthHeader token req)])
  /\ (forall err,
        exists r, middleware token true (Some err) lastGatewayError req
                  = (Some r, [EnsureGatewayRunning])
                  /\ status r = 503%Z)
  /\ (forall err,
        upgrade token true (Some err) req
        = (None, [EnsureGatewayRunning; SocketDestroy])).
Proof.
  split.
  { intros Hpath ensure; unfold middleware; rewrite Hpath; split; reflexivity. }
  repeat split.
  intros err; eexists; split; reflexivity.
Qed.

Lemma proxy_gate_witness :
  middleware (str "tok") false None None
    {| path := str "/chat"; reqHeaders := [] |}
  = (Some (redirect (str "/setup")), [])
  /\ isRedirectTo (str "/setup")
       (fst (middleware (str "tok") false None None
               {| path := str "/chat"; reqHeaders := [] |})) = true.
Proof.
  apply (proxy_gate (str "tok") None {| path := str "/chat"; reqHeaders := [] |}).
  reflexivity.
Defined.

(** ** The command runner *)

Module CmdFacts.
Import Cmd.

Lemma resolve_settled (v : result) (st : state) :
  settled (resolve v st) = match settled st with Some u => Some u | None => Some v end.
Proof.
  unfold resolve; destruct (settled st) eqn:E; simpl; [exact E | reflexivity].
Qed.

(** Once settled, the promise keeps its value. *)
Lemma step_keeps_settled (t : Z) (st : state) (ev : event) (v : result) :
  settled st = Some v -> settled (step t st ev) = Some v.
Proof.
  intros H; destruct ev; simpl.
  - exact H.
  - destruct (timer st); [|exact H].
    rewrite resolve_settled; simpl; rewrite H; reflexivity.
  - destruct (killTimer st); exact H.
  - rewrite resolve_settled; simpl; rewrite H; reflexivity.
  - rewrite resolve_settled; simpl; rewrite H; reflexivity.
Qed.

Lemma run_keeps_settled (t : Z) (evs : list event) (st : state) (v : result) :
  settled st = Some v -> settled (fold_left (step t) evs st) = Some v.
Proof.
  revert st; induction evs as [|ev evs IH]; intros st H; simpl; [exact H|].
  apply IH, step_keeps_settled; exact H.
Qed.

(** With both timers gone, no signal is sent any more. *)
Lemma step_quiet (t : Z) (st : state) (ev : event) :
  timer st = None -> killTimer st = None ->
  timer (step t st ev) = None /\ killTimer (step t st ev) = None
  /\ sent (step t st ev) = sent st.
Proof.
  intros Ht Hk; destruct ev; simpl; unfold resolve;
    rewrite ?Ht, ?Hk; try destruct (settled st); simpl; auto.
Qed.

Lemma run_quiet (t : Z) (evs : list event) (st : state) :
  timer st = None -> killTimer st = None ->
  sent (fold_left (step t) evs st) = sent st.
Proof.
  revert st; induction evs as [|ev evs IH]; intros st Ht Hk; simpl;
    [reflexivity|].
  destruct (step_quiet t st ev Ht Hk) as (Ht' & Hk' & Hs).
  rewrite IH; assumption.
Qed.

(** Output events only extend [out]. *)
Lemma run_data (t : Z) (evs : list event) (st : state) :
  forallb isData evs = true ->
  fold_left (step t) evs st
  = {| out := out st ++ written evs; timer := timer st;
       killTimer := killTimer st; sent := sent st; settled := settled st |}.
Proof.
  revert st; induction evs as [|ev evs IH]; intros st H; simpl.
  - rewrite app_nil_r; destruct st; reflexivity.
  - simpl in H; apply andb_true_iff in H; destruct H as [Hev Hevs].
    destruct ev; try discriminate.
    rewrite (IH _ Hevs); simpl; rewrite app_assoc; reflexivity.
Qed.

End CmdFacts.

(** C8.  [runCmd] always arms a timeout, of [opts.timeoutMs] or of
    120000 ms when none is given.  If the timeout fires while the process
    is still running, the process is sent SIGTERM, a 2000 ms kill timer is
    armed, and the caller's promise resolves at once with code 124 and the
    output so far followed by a line break, the text
    [[timeout] Command exceeded <timeout>ms and was terminated.] and a line
    break; nothing that happens later changes that result.  If the kill
    timer fires before the process has closed, SIGKILL is sent; if the
    process closes (or errors) first, the kill timer is cancelled and no
    SIGKILL is ever sent. *)
Theorem runCmd_timeout_sentinel (opts : option Z) (pre post : list Cmd.event) :
  forallb Cmd.isData pre = true ->
  let t := match opts with Some ms => ms | None => 120000%Z end in
  let marker :=
    "010"%char
    :: list_ascii_of_string "[timeout] Command exceeded "
       ++ list_ascii_of_string (NilZero.string_of_int (Z.to_int t))
       ++ list_ascii_of_string "ms and was terminated."
       ++ ["010"%char] in
  let st := Cmd.runCmd opts (pre ++ [Cmd.TimerFired]) in
  Cmd.timer (Cmd.start opts) = Some t
  /\ Cmd.settled st
     = Some {| Cmd.code := 124; Cmd.output := Cmd.written pre ++ marker |}
  /\ Cmd.sent st = [Cmd.SIGTERM]
  /\ Cmd.killTimer st = Some 2000%Z
  /\ Cmd.settled (Cmd.runCmd opts (pre ++ Cmd.TimerFired :: post)) = Cmd.settled st
  /\ (forall mid,
        forallb Cmd.isData mid = true ->
        Cmd.sent (Cmd.runCmd opts (pre ++ Cmd.TimerFired :: mid ++ [Cmd.KillTimerFired]))
        = [Cmd.SIGTERM; Cmd.SIGKILL])
  /\ (forall mid e rest,
        forallb Cmd.isData mid = true -> Cmd.isExit e = true ->
        Cmd.sent (Cmd.runCmd opts (pre ++ Cmd.TimerFired :: mid ++ e :: rest))
        = [Cmd.SIGTERM]).
Proof.
  intros Hpre t marker st.
  assert (Hst : st = {| Cmd.out := Cmd.written pre ++ Cmd.timeoutMarker t;
                        Cmd.timer := None; Cmd.killTimer := Some 2000%Z;
                        Cmd.sent := [Cmd.SIGTERM];
                        Cmd.settled :=
                          Some {| Cmd.code := 124;
                                  Cmd.output := Cmd.written pre
                                                ++ Cmd.timeoutMarker t |} |}).
  { subst st; unfold Cmd.runCmd; rewrite fold_left_app.
    rewrite (CmdFacts.run_data _ _ _ Hpre); reflexivity. }
  assert (Hcut : forall evs,
             Cmd.runCmd opts (pre ++ Cmd.TimerFired :: evs)
             = fold_left (Cmd.step t) evs st).
  { intros evs; subst st; unfold Cmd.runCmd.
    change (pre ++ Cmd.TimerFired :: evs)
      with (pre ++ [Cmd.TimerFired] ++ evs).
    rewrite app_assoc, fold_left_app; reflexivity. }
  split; [reflexivity|].
  split; [rewrite Hst; reflexivity|].
  split; [rewrite Hst; reflexivity|].
  split; [rewrite Hst; reflexivity|].
  split; [|split].
  - rewrite Hcut; rewrite Hst at 2; simpl.
    apply CmdFacts.run_keeps_settled; rewrite Hst; reflexivity.
  - intros mid Hmid.
    rewrite Hcut, fold_left_app, (CmdFacts.run_data _ _ _ Hmid), Hst.
    reflexivity.
  - intros mid e rest Hmid He.
    rewrite Hcut.
    change (mid ++ e :: rest) with (mid ++ [e] ++ rest).
    rewrite fold_left_app, (CmdFacts.run_data _ _ _ Hmid), Hst.
    rewrite fold_left_app, CmdFacts.run_quiet;
      destruct e; try discriminate; reflexivity.
Qed.

Lemma runCmd_timeout_sentinel_witness :
  Cmd.settled (Cmd.runCmd None
                 ([Cmd.Data (list_ascii_of_string "partial")]
                  ++ [Cmd.TimerFired]))
  = Some {| Cmd.code := 124;
            Cmd.output :=
              list_ascii_of_string "partial"
              ++ "010"%char
                 :: list_ascii_of_string
                      "[timeout] Command exceeded 120000ms and was terminated."
                 ++ ["010"%char] |}.
Proof.
  apply (runCmd_timeout_sentinel None
           [Cmd.Data (list_ascii_of_string "partial")] []).
  reflexivity.
Defined.

(** ** The supervisor *)

Module SupervisorFacts.
Import Supervisor.

(** While the child handle is set, a call is answered at once. *)
Lemma call_while_up (c : nat) (st : state) :
  configured st = true -> gatewayProc st <> None ->
  ensureGatewayRunning c st = settle c Started st.
Proof.
  intros Hc Hp; unfold ensureGatewayRunning; rewrite Hc; simpl.
  destruct (gatewayProc st); [reflexivity | congruence].
Qed.

Lemma calls_while_up (callers : list nat) (st : state) :
  configured st = true -> gatewayProc st <> None ->
  run st (map Call callers)
  = {| configured := configured st; gatewayProc := gatewayProc st;
       gatewayStarting := gatewayStarting st;
       lastGatewayError := lastGatewayError st;
       spawns := spawns st; attempts := attempts st;
       awaiting := awaiting st;
       observed := observed st ++ map (fun c => (c, Started)) callers |}.
Proof.
  revert st; induction callers as [|c callers IH]; intros st Hc Hp.
  - simpl; rewrite app_nil_r; destruct st; reflexivity.
  - change (run st (map Call (c :: callers)))
      with (run (step st (Call c)) (map Call callers)).
    cbn [step]; rewrite (call_while_up c st Hc Hp).
    rewrite IH by assumption.
    simpl; rewrite <- app_assoc; reflexivity.
Qed.

(** From a stopped, configured supervisor, any burst of calls spawns one
    process; the first caller awaits the start attempt and the others
    are told the gateway is up straight away. *)
Lemma burst_spawns_once (c : nat) (callers : list nat) :
  run (stopped true) (map Call (c :: callers)) = afterBurst c callers.
Proof.
  change (run (stopped true) (map Call (c :: callers)))
    with (run (step (stopped true) (Call c)) (map Call callers)).
  rewrite calls_while_up; [reflexivity | reflexivity | discriminate].
Qed.

Lemma find_started (others : list nat) (c : nat)
  (rest : list (nat * outcome)) :
  In c others ->
  option_map snd
    (find (fun co => fst co =? c)
          (map (fun c' => (c', Started)) others ++ rest))
  = Some Started.
Proof.
  induction others as [|x others IH]; intros HIn; [destruct HIn|].
  simpl; destruct (x =? c) eqn:E; [reflexivity|].
  apply IH; destruct HIn as [->|H]; [|exact H].
  rewrite Nat.eqb_refl in E; discriminate.
Qed.

Lemma find_absent (others : list nat) (c : nat) (o : outcome)
  (rest : list (nat * outcome)) :
  ~ In c others ->
  find (fun co => fst co =? c) (map (fun c' => (c', o)) others ++ rest)
  = find (fun co => fst co =? c) rest.
Proof.
  induction others as [|x others IH]; intros Hno; [reflexivity|].
  simpl; destruct (x =? c) eqn:E.
  - apply Nat.eqb_eq in E; subst; exfalso; apply Hno; left; reflexivity.
  - apply IH; intros H; apply Hno; right; exact H.
Qed.

End SupervisorFacts.

(** C1.  Handlers call [ensureGatewayRunning()] back to back while the
    gateway is stopped and configured, and the gateway then fails to become
    ready.  One process is spawned, but the callers do not share an
    outcome: every caller after the first is told [{ ok: true }] at once,
    while the attempt is still in flight, and only the first caller awaits
    the attempt and is rejected with its failure. *)
Theorem concurrent_callers_diverge (c : nat) (others : list nat) :
  ~ In c others ->
  let burst := Supervisor.run (Supervisor.stopped true)
                 (map Supervisor.Call (c :: others)) in
  let final := Supervisor.run burst [Supervisor.NotReady; Supervisor.DoctorDone] in
  Supervisor.spawns final = 1
  /\ Supervisor.gatewayStarting burst = Some (0, Supervisor.Waiting)
  /\ Supervisor.outcomeOf c burst = None
  /\ Supervisor.outcomeOf c final = Some (Supervisor.StartFailed 0)
  /\ (forall c', In c' others ->
         Supervisor.outcomeOf c' burst = Some Supervisor.Started
         /\ Supervisor.outcomeOf c' final = Some Supervisor.Started).
Proof.
  intros Hfresh burst final.
  assert (Hburst : burst = Supervisor.afterBurst c others)
    by apply SupervisorFacts.burst_spawns_once.
  subst final; rewrite Hburst.
  unfold Supervisor.outcomeOf; cbn.
  repeat split.
  - rewrite <- (app_nil_r (map _ others)).
    rewrite SupervisorFacts.find_absent by exact Hfresh; reflexivity.
  - rewrite SupervisorFacts.find_absent by exact Hfresh.
    cbn; rewrite Nat.eqb_refl; reflexivity.
  - rewrite <- (app_nil_r (map _ others)).
    apply SupervisorFacts.find_started; assumption.
  - apply SupervisorFacts.find_started; assumption.
Qed.

Lemma concurrent_callers_diverge_witness :
  Supervisor.outcomeOf 1
    (Supervisor.run
       (Supervisor.run (Supervisor.stopped true)
          (map Supervisor.Call [1; 2]))
       [Supervisor.NotReady; Supervisor.DoctorDone])
  = Some (Supervisor.StartFailed 0)
  /\ Supervisor.outcomeOf 2
       (Supervisor.run
          (Supervisor.run (Supervisor.stopped true)
             (map Supervisor.Call [1; 2]))
          [Supervisor.NotReady; Supervisor.DoctorDone])
     = Some Supervisor.Started.
Proof.
  destruct (concurrent_callers_diverge 1 [2]) as (_ & _ & _ & H1 & H2).
  - simpl; intros [H|[]]; discriminate H.
  - split; [exact H1 | apply (H2 2); left; reflexivity].
Defined.

(** ** More on strings *)

Lemma split_no_sep (c : ascii) (s : jsstring) :
  ~ In c s -> split c s = [s].
Proof.
  induction s as [|x s IH]; intros Hno; simpl; [reflexivity|].
  destruct (chr_eqb x c) eqn:E.
  - apply chr_eqb_eq in E; subst; exfalso; apply Hno; left; reflexivity.
  - rewrite IH; [reflexivity | intros H; apply Hno; right; exact H].
Qed.

Lemma split_at_sep (c : ascii) (a b : jsstring) :
  ~ In c a -> split c (a ++ c :: b) = a :: split c b.
Proof.
  induction a as [|x a IH]; intros Hno; simpl.
  - rewrite chr_eqb_refl; reflexivity.
  - destruct (chr_eqb x c) eqn:E.
    + apply chr_eqb_eq in E; subst; exfalso; apply Hno; left; reflexivity.
    + rewrite IH; [reflexivity | intros H; apply Hno; right; exact H].
Qed.

Lemma indexOf_split (c : ascii) (s : jsstring) (i : nat) :
  indexOf c s = Some i ->
  exists before, s = before ++ c :: skipn (i + 1) s /\ ~ In c before.
Proof.
  revert i; induction s as [|x s IH]; intros i H; simpl in H; [discriminate|].
  destruct (chr_eqb x c) eqn:E.
  - inversion H; subst; apply chr_eqb_eq in E; subst.
    exists []; split; [reflexivity | intros []].
  - destruct (indexOf c s) as [j|] eqn:Ej; [|discriminate].
    inversion H; subst; destruct (IH j eq_refl) as (before & Hs & Hno).
    exists (x :: before); split.
    + simpl; f_equal; exact Hs.
    + intros [->|HIn]; [rewrite chr_eqb_refl in E; discriminate | exact (Hno HIn)].
Qed.

Lemma indexOf_first (c : ascii) (a b : jsstring) :
  ~ In c a -> indexOf c (a ++ c :: b) = Some (length a).
Proof.
  induction a as [|x a IH]; intros Hno; simpl.
  - rewrite chr_eqb_refl; reflexivity.
  - destruct (chr_eqb x c) eqn:E.
    + apply chr_eqb_eq in E; subst; exfalso; apply Hno; left; reflexivity.
    + rewrite IH; [reflexivity | intros H; apply Hno; right; exact H].
Qed.

Lemma truthy_iff (s : jsstring) : truthy s = true <-> s <> [].
Proof. destruct s; simpl; split; congruence. Qed.

(** ** The setup guard: who gets through *)

(** X1.  [requireSetupAuth] calls [next()] only for a request whose
    [authorization] header reads [Basic <encoded>], where the decoded
    credentials are a user name without colon, a colon and exactly the
    configured, non-empty password.  Every other request is answered by the
    guard itself, with status 500 or with status 401 and a
    [WWW-Authenticate] challenge. *)
Theorem requireSetupAuth_sound (base64Decode : jsstring -> jsstring)
  (env : option jsstring) (req : request) :
  (requireSetupAuth base64Decode env req = Next ->
   exists envpw header user,
     env = Some envpw /\ trim envpw <> []
     /\ get authorizationName (reqHeaders req) = Some header
     /\ nth 0 (split " " header) [] = str "Basic"
     /\ nth 1 (split " " header) [] <> []
     /\ base64Decode (nth 1 (split " " header) [])
        = user ++ ":"%char :: trim envpw
     /\ ~ In ":"%char user)
  /\ (forall r,
        requireSetupAuth base64Decode env req = Answered r ->
        status r = 500%Z
        \/ (status r = 401%Z
            /\ get (str "WWW-Authenticate") (resHeaders r) = Some basicRealm)).
Proof.
  unfold requireSetupAuth, SETUP_PASSWORD; split.
  - destruct env as [envpw|]; cbn [option_map fieldString];
      [|intros H; discriminate H].
    destruct (truthy (trim envpw)) eqn:Epw; cbn [negb];
      [|intros H; discriminate H].
    destruct (get authorizationName (reqHeaders req)) as [header|] eqn:Eh;
      cbn [fieldString]; [|intros H; discriminate H].
    destruct (str_eqb (nth 0 (split " " header) []) (str "Basic")) eqn:Es;
      cbn [negb orb]; [|intros H; discriminate H].
    destruct (truthy (nth 1 (split " " header) [])) eqn:Ee; cbn [negb];
      [|intros H; discriminate H].
    set (decoded := base64Decode (nth 1 (split " " header) [])).
    destruct (indexOf ":" decoded) as [idx|] eqn:Ei.
    + destruct (str_eqb (skipn (idx + 1) decoded) (trim envpw)) eqn:Ep;
        cbn [negb]; [|intros H; discriminate H].
      intros _; apply str_eqb_eq in Ep, Es.
      destruct (indexOf_split ":" decoded idx Ei) as (user & Hd & Hu).
      exists envpw, header, user; repeat split; try assumption.
      * apply truthy_iff; exact Epw.
      * apply truthy_iff; exact Ee.
      * rewrite <- Ep; exact Hd.
    + destruct (str_eqb [] (trim envpw)) eqn:Ep; cbn [negb];
        [|intros H; discriminate H].
      apply str_eqb_eq in Ep; rewrite <- Ep in Epw; discriminate.
  - intros r.
    destruct (negb (truthy (fieldString (option_map trim env)))).
    { intros H; inversion H; left; reflexivity. }
    destruct (negb (str_eqb _ (str "Basic")) || negb (truthy _)).
    { intros H; inversion H; right; split; reflexivity. }
    destruct (negb (str_eqb _ _)); intros H; inversion H.
    right; split; reflexivity.
Qed.

Lemma requireSetupAuth_sound_witness :
  exists envpw header user,
    Some (str "s3cret") = Some envpw /\ trim envpw <> []
    /\ get authorizationName [(authorizationName, str "Basic YWRtaW46czNjcmV0")]
       = Some header
    /\ nth 0 (split " " header) [] = str "Basic"
    /\ nth 1 (split " " header) [] <> []
    /\ (fun _ => str "admin:s3cret") (nth 1 (split " " header) [])
       = user ++ ":"%char :: trim envpw
    /\ ~ In ":"%char user.
Proof.
  apply (requireSetupAuth_sound (fun _ => str "admin:s3cret")
           (Some (str "s3cret"))
           {| path := str "/setup";
              reqHeaders := [(authorizationName, str "Basic YWRtaW46czNjcmV0")] |}).
  reflexivity.
Defined.

(** X2.  A request with [authorization: Basic <encoded>] whose decoded
    credentials end, after their first colon, in the configured password
    is let through, whatever the user name; the password itself may
    contain colons. *)
Theorem requireSetupAuth_complete (base64Decode : jsstring -> jsstring)
  (envpw encoded user : jsstring) (req : request) :
  trim envpw <> [] ->
  get authorizationName (reqHeaders req) = Some (str "Basic " ++ encoded) ->
  encoded <> [] -> ~ In " "%char encoded ->
  base64Decode encoded = user ++ ":"%char :: trim envpw ->
  ~ In ":"%char user ->
  requireSetupAuth base64Decode (Some envpw) req = Next.
Proof.
  intros Hpw Hh Henc Hsp Hdec Huser.
  assert (Hsplit : split " " (str "Basic " ++ encoded) = [str "Basic"; encoded]).
  { change (str "Basic " ++ encoded) with (str "Basic" ++ " "%char :: encoded).
    rewrite split_at_sep by (simpl; intuition discriminate).
    rewrite (split_no_sep " " encoded Hsp); reflexivity. }
  assert (Hskip : skipn (length user + 1) (user ++ ":"%char :: trim envpw)
                  = trim envpw).
  { change (user ++ ":"%char :: trim envpw)
      with (user ++ [":"%char] ++ trim envpw).
    rewrite app_assoc, skipn_app, skipn_all2 by (rewrite length_app; simpl; lia).
    rewrite length_app; simpl.
    replace (length user + 1 - (length user + 1)) with 0 by lia.
    reflexivity. }
  apply truthy_iff in Hpw, Henc.
  unfold requireSetupAuth, SETUP_PASSWORD.
  cbn [option_map fieldString]; rewrite Hpw, Hh.
  cbn [negb fieldString]; rewrite Hsplit.
  cbn [nth]; rewrite str_eqb_refl, Henc.
  cbn [negb orb]; rewrite Hdec, (indexOf_first ":" user (trim envpw) Huser).
  rewrite Hskip, str_eqb_refl; reflexivity.
Qed.

Lemma requireSetupAuth_complete_witness :
  requireSetupAuth (fun _ => str "anyone:pa:ss") (Some (str " pa:ss "))
    {| path := str "/setup";
       reqHeaders := [(authorizationName, str "Basic " ++ str "YW55")] |}
  = Next.
Proof.
  apply (requireSetupAuth_complete (fun _ => str "anyone:pa:ss")
           (str " pa:ss ") (str "YW55") (str "anyone")); try reflexivity.
  - discriminate.
  - discriminate.
  - simpl; intuition discriminate.
  - simpl; intuition discriminate.
Defined.

(** ** The command runner: the other ways a run ends *)

Module CmdMore.
Import Cmd.

Lemma data_then (t : Z) (pre rest : list event) (st : state) :
  forallb isData pre = true ->
  fold_left (step t) (pre ++ rest) st
  = fold_left (step t) rest
      {| out := out st ++ written pre; timer := timer st;
         killTimer := killTimer st; sent := sent st; settled := settled st |}.
Proof.
  intros H; rewrite fold_left_app, (CmdFacts.run_data t pre st H); reflexivity.
Qed.

Lemma quiet_stays (t : Z) (evs : list event) (st : state) :
  timer st = None -> killTimer st = None ->
  timer (fold_left (step t) evs st) = None
  /\ killTimer (fold_left (step t) evs st) = None.
Proof.
  revert st; induction evs as [|ev evs IH]; intros st Ht Hk; simpl; [auto|].
  destruct (CmdFacts.step_quiet t st ev Ht Hk) as (Ht' & Hk' & _).
  apply IH; assumption.
Qed.

Lemma escalation_step (t : Z) (st : state) (ev : event) :
  escalation st -> escalation (step t st ev).
Proof.
  unfold escalation; destruct ev; simpl.
  - destruct (timer st), (killTimer st); auto.
  - destruct (timer st) eqn:Et; simpl.
    + intros (Hs & Hk & Hset); rewrite CmdFacts.resolve_settled; simpl.
      unfold resolve; rewrite Hset; simpl; rewrite Hs.
      split; [reflexivity | discriminate].
    + rewrite Et; auto.
  - destruct (killTimer st) eqn:Ek; simpl.
    + destruct (timer st) eqn:Et.
      * intros (_ & Hk & _); discriminate.
      * intros (Hs & Hset); rewrite Hs; auto.
    + rewrite Ek; auto.
  - unfold resolve; simpl.
    destruct (timer st), (killTimer st), (settled st) eqn:Hset; simpl;
      intuition (try congruence; try discriminate; auto).
  - unfold resolve; simpl.
    destruct (timer st), (killTimer st), (settled st) eqn:Hset; simpl;
      intuition (try congruence; try discriminate; auto).
Qed.

Lemma escalation_run (opts : option Z) (evs : list event) :
  escalation (runCmd opts evs).
Proof.
  unfold runCmd.
  assert (G : forall st, escalation st ->
                         escalation (fold_left (step (timeoutOf opts)) evs st)).
  { induction evs as [|ev evs IH]; intros st H; simpl; [exact H|].
    apply IH, escalation_step, H. }
  apply G; unfold escalation; simpl; auto.
Qed.

End CmdMore.

(** X3.  A command that closes before its timeout resolves [runCmd] with
    its own exit code (0 when the code is null) and exactly the output
    written before the close; a command that cannot be spawned resolves it
    with code 127 and the output followed by a line break, the text
    [[spawn error] <error>] and a line break.  In both cases the timers
    are cancelled, no signal is ever sent, and later events change nothing
    of this. *)
Theorem runCmd_normal_end (opts : option Z) (pre post : list Cmd.event) :
  forallb Cmd.isData pre = true ->
  (forall exit,
     let st := Cmd.runCmd opts (pre ++ Cmd.Close exit :: post) in
     Cmd.settled st
     = Some {| Cmd.code := match exit with Some c => c | None => 0%Z end;
               Cmd.output := Cmd.written pre |}
     /\ Cmd.sent st = []
     /\ Cmd.timer st = None /\ Cmd.killTimer st = None)
  /\ (forall err,
     let st := Cmd.runCmd opts (pre ++ Cmd.ProcError err :: post) in
     Cmd.settled st
     = Some {| Cmd.code := 127;
               Cmd.output :=
                 Cmd.written pre
                 ++ "010"%char
                    :: list_ascii_of_string "[spawn error] " ++ err
                    ++ ["010"%char] |}
     /\ Cmd.sent st = []
     /\ Cmd.timer st = None /\ Cmd.killTimer st = None).
Proof.
  intros Hpre; split; intros x st; subst st; unfold Cmd.runCmd;
    rewrite (CmdMore.data_then _ pre (_ :: post) _ Hpre); simpl.
  - repeat split.
    + apply CmdFacts.run_keeps_settled; reflexivity.
    + rewrite CmdFacts.run_quiet; reflexivity.
    + apply CmdMore.quiet_stays; reflexivity.
    + apply CmdMore.quiet_stays; reflexivity.
  - repeat split.
    + apply CmdFacts.run_keeps_settled; reflexivity.
    + rewrite CmdFacts.run_quiet; reflexivity.
    + apply CmdMore.quiet_stays; reflexivity.
    + apply CmdMore.quiet_stays; reflexivity.
Qed.

Lemma runCmd_normal_end_witness :
  Cmd.settled (Cmd.runCmd None ([Cmd.Data (str "v1.2")]
                                ++ Cmd.Close None :: [Cmd.TimerFired]))
  = Some {| Cmd.code := 0; Cmd.output := Cmd.written [Cmd.Data (str "v1.2")] |}.
Proof.
  destruct (runCmd_normal_end None [Cmd.Data (str "v1.2")] [Cmd.TimerFired]
              eq_refl) as [H _].
  apply (H None).
Defined.

(** X4.  Whatever events reach a [runCmd] invocation and in whatever order,
    the caller is still waiting exactly as long as the timeout is armed,
    SIGTERM is sent at most once and only by the timeout, and SIGKILL at
    most once and only after SIGTERM. *)
Theorem runCmd_escalation_order (opts : option Z) (evs : list Cmd.event) :
  let st := Cmd.runCmd opts evs in
  (Cmd.settled st = None <-> Cmd.timer st <> None)
  /\ (Cmd.sent st = [] \/ Cmd.sent st = [Cmd.SIGTERM]
      \/ Cmd.sent st = [Cmd.SIGTERM; Cmd.SIGKILL])
  /\ (Cmd.killTimer st <> None -> Cmd.sent st = [Cmd.SIGTERM]).
Proof.
  intros st; pose proof (CmdMore.escalation_run opts evs) as H.
  fold st in H; unfold escalation in H.
  destruct (Cmd.timer st), (Cmd.killTimer st).
  - destruct H as (_ & Hk & _); discriminate.
  - destruct H as (Hs & _ & Hset).
    split; [split; congruence | split; [auto | congruence]].
  - destruct H as (Hs & Hset).
    split; [split; [congruence | intros Hn; contradiction] | auto].
  - destruct H as (Hs & Hset).
    split; [split; [congruence | intros Hn; contradiction] |].
    split; [exact Hs | intros Hn; contradiction].
Qed.

(** ** The tail count: [String(n)] read back by [parseInt] *)

Lemma digit_facts (c : ascii) :
  isDigit c = true ->
  isSpace c = false /\ chr_eqb c "-" = false /\ chr_eqb c "+" = false.
Proof.
  destruct c as [[] [] [] [] [] [] [] []]; intros H; try discriminate H;
    repeat split; reflexivity.
Qed.

Lemma uint_digits (d : Decimal.uint) :
  forallb isDigit (str (NilEmpty.string_of_uint d)) = true.
Proof. induction d; simpl; auto. Qed.

Lemma uint_value_acc (d : Decimal.uint) (acc : positive) :
  digitsValue (str (NilEmpty.string_of_uint d)) (Z.pos acc)
  = Z.pos (Pos.of_uint_acc d acc).
Proof.
  unfold digitsValue; revert acc; induction d; intros acc;
    cbn [NilEmpty.string_of_uint str list_ascii_of_string fold_left
         Pos.of_uint_acc];
    try reflexivity.
  all: rewrite <- IHd; f_equal.
  all: unfold digitValue, codeUnit; cbn [nat_of_ascii].
  all: vm_compute (Z.of_nat _); lia.
Qed.

Lemma uint_value (d : Decimal.uint) :
  digitsValue (str (NilEmpty.string_of_uint d)) 0 = Z.of_N (Pos.of_uint d).
Proof.
  induction d;
    cbn [NilEmpty.string_of_uint str list_ascii_of_string Pos.of_uint];
    try reflexivity; try exact IHd.
  all: cbn [Z.of_N]; rewrite <- uint_value_acc; reflexivity.
Qed.

Lemma runLen_all (p : ascii -> bool) (s : jsstring) :
  forallb p s = true -> runLen p s = length s.
Proof.
  induction s as [|c s IH]; simpl; [reflexivity|].
  intros H; apply andb_true_iff in H; destruct H as [Hc Hs].
  rewrite Hc, IH; auto.
Qed.

(** [parseInt] of a run of digits, with or without a minus sign. *)
Lemma parseInt10_digits (ds : jsstring) :
  ds <> [] -> forallb isDigit ds = true ->
  parseInt10 ds = Some (digitsValue ds 0)
  /\ parseInt10 ("-"%char :: ds) = Some (- digitsValue ds 0)%Z.
Proof.
  intros Hne Hds.
  assert (Hrun : runLen isDigit ds = length ds) by (apply runLen_all, Hds).
  destruct ds as [|c ds']; [congruence|].
  assert (Hc : isDigit c = true) by (simpl in Hds; apply andb_true_iff in Hds; tauto).
  destruct (digit_facts c Hc) as (Hsp & Hm & Hp).
  split; unfold parseInt10.
  - cbn [dropWhile]; rewrite Hsp, Hm, Hp, Hrun.
    rewrite firstn_all; reflexivity.
  - cbn [dropWhile]; change (isSpace "-") with false; cbv iota.
    rewrite chr_eqb_refl, Hrun.
    rewrite firstn_all; reflexivity.
Qed.

Lemma uint_nonempty (d : Decimal.uint) :
  d <> Decimal.Nil -> str (NilEmpty.string_of_uint d) <> [].
Proof. destruct d; simpl; intros H; congruence. Qed.

Lemma decimal_pos (p : positive) :
  Cmd.decimal (Z.pos p) = str (NilEmpty.string_of_uint (Pos.to_uint p))
  /\ Cmd.decimal (Z.neg p)
     = "-"%char :: str (NilEmpty.string_of_uint (Pos.to_uint p)).
Proof.
  unfold Cmd.decimal; simpl.
  pose proof (Unsigned.to_uint_nonnil p) as Hn.
  destruct (Pos.to_uint p); try congruence; split; reflexivity.
Qed.

(** [Number.parseInt(String(n), 10)] is [n]. *)
Lemma parseInt10_decimal (n : Z) : parseInt10 (Cmd.decimal n) = Some n.
Proof.
  destruct n as [|p|p]; [reflexivity| |];
    destruct (decimal_pos p) as [Hpos Hneg];
    pose proof (Unsigned.to_uint_nonnil p) as Hn;
    destruct (parseInt10_digits _ (uint_nonempty _ Hn) (uint_digits _))
      as [H1 H2];
    rewrite uint_value, Unsigned.of_to in H1, H2.
  - rewrite Hpos; exact H1.
  - rewrite Hneg; exact H2.
Qed.

(** X5.  The tail count handed to [logs --tail] for a numeric argument:
    a count between 50 and 1000 goes through unchanged, a larger one
    becomes 1000, a smaller or negative one becomes 50, and 0, like an
    empty or non-numeric argument, becomes the default 200. *)
Theorem tailLines_of_number (n : Z) :
  tailLines (Cmd.decimal n)
  = (if n =? 0 then 200 else Z.max 50 (Z.min 1000 n))%Z
  /\ ((50 <= n <= 1000)%Z -> tailLines (Cmd.decimal n) = n)
  /\ tailLines [] = 200%Z
  /\ (forall junk c, isDigit c = false -> isSpace c = false ->
        c <> "-"%char -> c <> "+"%char -> tailLines (c :: junk) = 200%Z).
Proof.
  assert (H : tailLines (Cmd.decimal n)
              = (if n =? 0 then 200 else Z.max 50 (Z.min 1000 n))%Z).
  { unfold tailLines.
    assert (Ht : truthy (Cmd.decimal n) = true).
    { destruct n as [|p|p]; [reflexivity| |];
        destruct (decimal_pos p) as [Hpos Hneg].
      - rewrite Hpos; apply truthy_iff, uint_nonempty, Unsigned.to_uint_nonnil.
      - rewrite Hneg; reflexivity. }
    rewrite Ht, parseInt10_decimal.
    destruct (n =? 0)%Z; reflexivity. }
  split; [exact H | split; [|split]].
  - intros Hn; rewrite H.
    destruct (n =? 0)%Z eqn:E; [apply Z.eqb_eq in E; lia | lia].
  - reflexivity.
  - intros junk c Hd Hs Hm Hp; unfold tailLines, parseInt10.
    cbn [truthy dropWhile]; rewrite Hs.
    destruct (chr_eqb c "-") eqn:E1; [apply chr_eqb_eq in E1; congruence|].
    destruct (chr_eqb c "+") eqn:E2; [apply chr_eqb_eq in E2; congruence|].
    cbn [runLen]; rewrite Hd; reflexivity.
Qed.

Lemma tailLines_of_number_witness : tailLines (Cmd.decimal 321) = 321%Z.
Proof. apply (tailLines_of_number 321); lia. Defined.

(** ** The supervisor: what holds on every run *)

Module SupervisorMore.
Import Supervisor.

Lemma begin_spawns (st : state) :
  configured st = true -> gatewayProc st = None ->
  gatewayProc (beginAttempt st) = Some (spawns st)
  /\ spawns (beginAttempt st) = S (spawns st)
  /\ gatewayStarting (beginAttempt st) = Some (attempts st, Waiting)
  /\ attempts (beginAttempt st) = S (attempts st)
  /\ awaiting (beginAttempt st) = awaiting st
  /\ observed (beginAttempt st) = observed st
  /\ configured (beginAttempt st) = true.
Proof.
  intros Hc Hp; unfold beginAttempt, startGateway, setError; simpl.
  rewrite Hp, Hc; simpl; auto 10.
Qed.

Lemma ensure_unconfigured (c : nat) (st : state) :
  configured st = false ->
  ensureGatewayRunning c st = settle c NotConfigured st.
Proof. intros Hc; unfold ensureGatewayRunning; rewrite Hc; reflexivity. Qed.

Lemma ensure_attach (c a : nat) (ph : phase) (st : state) :
  configured st = true -> gatewayProc st = None ->
  gatewayStarting st = Some (a, ph) ->
  ensureGatewayRunning c st = await c a st.
Proof.
  intros Hc Hp Hs; unfold ensureGatewayRunning.
  rewrite Hc, Hp, Hs; simpl; rewrite Hs; reflexivity.
Qed.

Lemma ensure_begin (c : nat) (st : state) :
  configured st = true -> gatewayProc st = None ->
  gatewayStarting st = None ->
  ensureGatewayRunning c st = await c (attempts st) (beginAttempt st).
Proof.
  intros Hc Hp Hs; unfold ensureGatewayRunning.
  destruct (begin_spawns st Hc Hp) as (_ & _ & H3 & _).
  rewrite Hc, Hp, Hs; simpl; rewrite H3; reflexivity.
Qed.

(** The four ways a call can go. *)
Lemma ensure_cases (c : nat) (st : state) :
  (configured st = false
   /\ ensureGatewayRunning c st = settle c NotConfigured st)
  \/ (configured st = true /\ gatewayProc st <> None
      /\ ensureGatewayRunning c st = settle c Started st)
  \/ (configured st = true /\ gatewayProc st = None
      /\ (exists a ph, gatewayStarting st = Some (a, ph)
                       /\ ensureGatewayRunning c st = await c a st))
  \/ (configured st = true /\ gatewayProc st = None
      /\ gatewayStarting st = None
      /\ ensureGatewayRunning c st = await c (attempts st) (beginAttempt st)).
Proof.
  destruct (configured st) eqn:Hc.
  - right; destruct (gatewayProc st) as [h|] eqn:Hp.
    + left; repeat split; [discriminate|].
      apply SupervisorFacts.call_while_up; [exact Hc | congruence].
    + right; destruct (gatewayStarting st) as [[a ph]|] eqn:Hs.
      * left; repeat split; exists a, ph; split; [reflexivity|].
        apply (ensure_attach c a ph); assumption.
      * right; repeat split; apply ensure_begin; assumption.
  - left; split; [reflexivity | apply ensure_unconfigured; exact Hc].
Qed.

(** One step spawns at most one process, and only for a call that finds
    the system configured, no handle and no attempt in flight. *)
Lemma step_spawn (st : state) (ev : event) :
  spawns (step st ev) = spawns st
  \/ (spawns (step st ev) = S (spawns st)
      /\ configured st = true /\ gatewayProc st = None
      /\ gatewayStarting st = None
      /\ gatewayProc (step st ev) = Some (spawns st)
      /\ exists c, ev = Call c).
Proof.
  destruct ev as [c| | | | |err]; simpl.
  - destruct (ensure_cases c st)
      as [(Hc & ->)|[(Hc & Hp & ->)|[(Hc & Hp & a & ph & Hs & ->)
         |(Hc & Hp & Hs & ->)]]]; try (left; reflexivity).
    destruct (begin_spawns st Hc Hp) as (H1 & H2 & _).
    right; simpl; repeat split; auto.
    exists c; reflexivity.
  - destruct (gatewayStarting st) as [[a [|]]|]; left; reflexivity.
  - destruct (gatewayStarting st) as [[a [|]]|]; left; reflexivity.
  - destruct (gatewayStarting st) as [[a [|]]|]; left; reflexivity.
  - left; reflexivity.
  - left; reflexivity.
Qed.

Lemma attached_step (st : state) (ev : event) :
  waitersAttached st -> waitersAttached (step st ev).
Proof.
  unfold waitersAttached; destruct ev as [c| | | | |err]; simpl.
  - destruct (ensure_cases c st)
      as [(Hc & ->)|[(Hc & Hp & ->)|[(Hc & Hp & a & ph & Hs & ->)
         |(Hc & Hp & Hs & ->)]]]; simpl; auto.
    + rewrite Hs; intros [Hall Ha]; split; [|exact Ha].
      apply Forall_app; split; [exact Hall | repeat constructor].
    + destruct (begin_spawns st Hc Hp) as (_ & _ & H3 & H4 & H5 & _).
      rewrite Hs, H3, H4, H5.
      intros ->; split; [repeat constructor | lia].
  - destruct (gatewayStarting st) as [[a [|]]|] eqn:Hs; simpl;
      rewrite ?Hs; auto.
  - destruct (gatewayStarting st) as [[a [|]]|] eqn:Hs; simpl;
      rewrite ?Hs; auto.
  - destruct (gatewayStarting st) as [[a [|]]|] eqn:Hs; simpl;
      rewrite ?Hs; auto.
  - auto.
  - auto.
Qed.

Lemma attached_run (evs : list event) (st : state) :
  waitersAttached st -> waitersAttached (run st evs).
Proof.
  revert st; induction evs as [|ev evs IH]; intros st H; simpl; [exact H|].
  apply IH, attached_step, H.
Qed.

End SupervisorMore.

(** X6.  The supervisor never spawns a second process while it holds a
    handle or a start is in flight: whatever the state, one event spawns at
    most one process, and it does so only for a call of
    [ensureGatewayRunning] that finds the system configured, no handle and
    no attempt in flight; the new process becomes the handle. *)
Theorem supervisor_spawns_only_when_idle (st : Supervisor.state)
  (ev : Supervisor.event) :
  Supervisor.spawns (Supervisor.step st ev) <> Supervisor.spawns st ->
  Supervisor.spawns (Supervisor.step st ev) = S (Supervisor.spawns st)
  /\ Supervisor.configured st = true
  /\ Supervisor.gatewayProc st = None
  /\ Supervisor.gatewayStarting st = None
  /\ Supervisor.gatewayProc (Supervisor.step st ev)
     = Some (Supervisor.spawns st)
  /\ exists c, ev = Supervisor.Call c.
Proof.
  intros Hne; destruct (SupervisorMore.step_spawn st ev) as [H|H];
    [congruence | exact H].
Qed.

Lemma supervisor_spawns_only_when_idle_witness :
  Supervisor.spawns
    (Supervisor.step (Supervisor.stopped true) (Supervisor.Call 7)) = 1.
Proof.
  apply (supervisor_spawns_only_when_idle (Supervisor.stopped true)
           (Supervisor.Call 7)).
  discriminate.
Defined.

(** X7.  On every run of the supervisor from a stopped state, the callers
    that are waiting all wait for the one attempt in flight, and nobody is
    waiting when no attempt is in flight; so when the attempt settles, all
    of them are answered, with its outcome, and the waiting list is
    empty. *)
Theorem waiters_share_the_attempt (isConfigured : bool)
  (evs : list Supervisor.event) :
  let st := Supervisor.run (Supervisor.stopped isConfigured) evs in
  waitersAttached st
  /\ forall ev,
       Supervisor.gatewayStarting st <> None ->
       Supervisor.gatewayStarting (Supervisor.step st ev) = None ->
       Supervisor.awaiting (Supervisor.step st ev) = []
       /\ exists o,
            Supervisor.observed (Supervisor.step st ev)
            = Supervisor.observed st
              ++ map (fun ca => (fst ca, o)) (Supervisor.awaiting st).
Proof.
  intros st; split.
  - apply SupervisorMore.attached_run; reflexivity.
  - intros ev Hin Hout.
    destruct ev as [c| | | | |err]; simpl in *.
    + exfalso.
      destruct (SupervisorMore.ensure_cases c st)
        as [(Hc & E)|[(Hc & Hp & E)|[(Hc & Hp & a & ph & Hs & E)
           |(Hc & Hp & Hs & E)]]]; rewrite E in Hout; simpl in Hout;
        congruence.
    + destruct (Supervisor.gatewayStarting st) as [[a [|]]|] eqn:Hs;
        try congruence.
      split; [reflexivity | exists Supervisor.Started; reflexivity].
    + destruct (Supervisor.gatewayStarting st) as [[a [|]]|] eqn:Hs;
        simpl in Hout; congruence.
    + destruct (Supervisor.gatewayStarting st) as [[a [|]]|] eqn:Hs;
        try congruence.
      split; [reflexivity | exists (Supervisor.StartFailed a); reflexivity].
    + congruence.
    + congruence.
Qed.

(** X8.  While the system is not configured, nothing that happens makes
    the supervisor spawn the gateway: every call of
    [ensureGatewayRunning] is answered "not configured" and no process
    handle or start attempt ever exists. *)
Theorem unconfigured_never_spawns (evs : list Supervisor.event) :
  let st := Supervisor.run (Supervisor.stopped false) evs in
  Supervisor.spawns st = 0
  /\ Supervisor.gatewayProc st = None
  /\ Supervisor.gatewayStarting st = None
  /\ Forall (fun co => snd co = Supervisor.NotConfigured)
            (Supervisor.observed st).
Proof.
  intros st; subst st; unfold Supervisor.run.
  assert (G : forall st,
             Supervisor.configured st = false ->
             Supervisor.spawns st = 0 /\ Supervisor.gatewayProc st = None
             /\ Supervisor.gatewayStarting st = None
             /\ Forall (fun co => snd co = Supervisor.NotConfigured)
                       (Supervisor.observed st) ->
             let st' := fold_left Supervisor.step evs st in
             Supervisor.spawns st' = 0 /\ Supervisor.gatewayProc st' = None
             /\ Supervisor.gatewayStarting st' = None
             /\ Forall (fun co => snd co = Supervisor.NotConfigured)
                       (Supervisor.observed st')).
  { induction evs as [|ev evs IH]; intros st Hc H; simpl; [exact H|].
    destruct H as (H1 & H2 & H3 & H4).
    destruct ev as [c| | | | |err]; simpl.
    - rewrite (SupervisorMore.ensure_unconfigured c st Hc).
      apply IH; simpl; auto.
      repeat split; auto.
      apply Forall_app; split; [exact H4 | repeat constructor].
    - rewrite H3; apply IH; auto.
    - rewrite H3; apply IH; auto.
    - rewrite H3; apply IH; auto.
    - apply IH; simpl; auto.
    - apply IH; simpl; auto. }
  apply G; simpl; auto.
Qed.

(** ** Restart *)

Module LifecycleFacts.
Import Lifecycle.

Lemma sup_step_bound (st : Supervisor.state) (ev : Supervisor.event) :
  (forall h, Supervisor.gatewayProc st = Some h -> h < Supervisor.spawns st) ->
  (forall h, Supervisor.gatewayProc (Supervisor.step st ev) = Some h ->
             h < Supervisor.spawns (Supervisor.step st ev))
  /\ Supervisor.spawns st <= Supervisor.spawns (Supervisor.step st ev).
Proof.
  intros Hb.
  destruct (SupervisorMore.step_spawn st ev)
    as [Hsame | (Hs & _ & _ & _ & Hp & _)].
  - split; [|lia].
    intros h Hh; rewrite Hsame.
    destruct ev as [c| | | | |err]; simpl in Hh.
    + destruct (SupervisorMore.ensure_cases c st)
        as [(Hc & E)|[(Hc & Hp & E)|[(Hc & Hp & a & ph & Hs & E)
           |(Hc & Hp & Hs & E)]]]; rewrite E in Hh; simpl in Hh;
        try (apply Hb; exact Hh).
      destruct (SupervisorMore.begin_spawns st Hc Hp) as (H1 & H2 & _).
      simpl in Hsame; rewrite E in Hsame; simpl in Hsame; lia.
    + destruct (Supervisor.gatewayStarting st) as [[a [|]]|];
        apply Hb; exact Hh.
    + destruct (Supervisor.gatewayStarting st) as [[a [|]]|];
        apply Hb; exact Hh.
    + destruct (Supervisor.gatewayStarting st) as [[a [|]]|];
        apply Hb; exact Hh.
    + discriminate Hh.
    + discriminate Hh.
  - split; [|lia].
    intros h Hh; rewrite Hp in Hh; inversion Hh; lia.
Qed.

Lemma known_step (st : state) (ev : event) :
  handlesKnown st -> handlesKnown (step st ev).
Proof.
  intros [Hproc Hsleep]; destruct ev as [e|c|c]; simpl.
  - destruct (sup_step_bound (sup st) e Hproc) as [Hb Hle].
    split; simpl; [exact Hb|].
    intros c h HIn; destruct (Hsleep c h HIn); split; [lia | assumption].
  - destruct (Supervisor.gatewayProc (sup st)) as [h0|] eqn:Hp.
    + split; simpl; [rewrite Hp; exact Hproc|].
      intros c' h HIn; apply in_app_or in HIn; destruct HIn as [HIn|HIn].
      * destruct (Hsleep c' h HIn); split; [assumption|].
        apply in_or_app; left; assumption.
      * destruct HIn as [E|[]]; inversion E; subst; split.
        -- apply Hproc; reflexivity.
        -- apply in_or_app; right; left; reflexivity.
    + assert (Hproc' : forall h, Supervisor.gatewayProc (sup st) = Some h ->
                                 h < Supervisor.spawns (sup st))
        by (intros h Hh; congruence).
      destruct (sup_step_bound (sup st) (Supervisor.Call c) Hproc')
        as [Hb Hle].
      split; simpl; [exact Hb|].
      intros c' h HIn; destruct (Hsleep c' h HIn); split; [|assumption].
      simpl in Hle; lia.
  - destruct (asleep c st); [|split; assumption].
    assert (Hd : forall h,
               Supervisor.gatewayProc (Supervisor.dropProc (sup st)) = Some h ->
               h < Supervisor.spawns (Supervisor.dropProc (sup st)))
      by (intros h Hh; discriminate Hh).
    destruct (sup_step_bound (Supervisor.dropProc (sup st))
                (Supervisor.Call c) Hd) as [Hb Hle].
    split; simpl; [exact Hb|].
    intros c' h HIn; unfold wake in HIn; apply filter_In in HIn.
    destruct HIn as [HIn _]; destruct (Hsleep c' h HIn).
    split; [|assumption]; simpl in Hle; lia.
Qed.

Lemma known_run (evs : list event) (st : state) :
  handlesKnown st -> handlesKnown (run st evs).
Proof.
  revert st; induction evs as [|ev evs IH]; intros st H; simpl; [exact H|].
  apply IH, known_step, H.
Qed.

Lemma asleep_in (c h : nat) (st : state) :
  asleep c st = Some h -> exists c', In (c', h) (sleeping st).
Proof.
  unfold asleep; destruct (find _ (sleeping st)) as [[c' h']|] eqn:E;
    [|discriminate].
  intros H; inversion H; subst; apply find_some in E.
  exists c'; tauto.
Qed.

End LifecycleFacts.

(** X9.  On every run from a stopped state, when a [restartGateway] call
    wakes from its sleep, the process it had held before was sent SIGTERM,
    and the handle after the restart is never that old one: it is either
    empty (the system is not configured, or a start is already in flight
    and the caller joins it) or a process spawned by this very call. *)
Theorem restart_never_keeps_old_handle (isConfigured : bool)
  (evs : list Lifecycle.event) (c h : nat) :
  let st := Lifecycle.run (Lifecycle.initial isConfigured) evs in
  Lifecycle.asleep c st = Some h ->
  let st' := Lifecycle.step st (Lifecycle.RestartResume c) in
  In h (Lifecycle.signalled st)
  /\ Supervisor.gatewayProc (Lifecycle.sup st') <> Some h
  /\ (Supervisor.gatewayProc (Lifecycle.sup st') = None
      \/ (Supervisor.gatewayProc (Lifecycle.sup st')
          = Some (Supervisor.spawns (Lifecycle.sup st))
          /\ Supervisor.spawns (Lifecycle.sup st')
             = S (Supervisor.spawns (Lifecycle.sup st))))
  /\ Lifecycle.asleep c st' = None.
Proof.
  intros st Hasleep st'.
  assert (Hknown : Lifecycle.handlesKnown st).
  { apply LifecycleFacts.known_run; split; simpl; [discriminate | tauto]. }
  destruct (LifecycleFacts.asleep_in c h st Hasleep) as (c' & HIn).
  destruct Hknown as [_ Hsleep]; destruct (Hsleep c' h HIn) as [Hlt Hsig].
  assert (Hafter :
            Supervisor.gatewayProc (Lifecycle.sup st') = None
            \/ (Supervisor.gatewayProc (Lifecycle.sup st')
                = Some (Supervisor.spawns (Lifecycle.sup st))
                /\ Supervisor.spawns (Lifecycle.sup st')
                   = S (Supervisor.spawns (Lifecycle.sup st)))).
  { subst st'; simpl; rewrite Hasleep; simpl.
    set (d := Supervisor.dropProc (Lifecycle.sup st)).
    destruct (SupervisorMore.step_spawn d (Supervisor.Call c))
      as [Hsame | (Hs & _ & _ & _ & Hp & _)]; simpl in *.
    - left.
      destruct (SupervisorMore.ensure_cases c d)
        as [(Hc & E)|[(Hc & Hp & E)|[(Hc & Hp & a & ph & Hs & E)
           |(Hc & Hp & Hs & E)]]]; rewrite E; simpl; try reflexivity.
      destruct (SupervisorMore.begin_spawns d Hc Hp) as (_ & H2 & _).
      change (Supervisor.spawns d)
        with (Supervisor.spawns (Lifecycle.sup st)) in H2.
      rewrite E in Hsame; simpl in Hsame; lia.
    - right; split; assumption. }
  split; [exact Hsig | split; [|split; [exact Hafter|]]].
  - destruct Hafter as [-> | [-> _]]; [discriminate|].
    intros E; inversion E; lia.
  - subst st'; simpl; rewrite Hasleep; unfold Lifecycle.asleep, Lifecycle.wake.
    simpl.
    destruct (find _ (List.filter _ (Lifecycle.sleeping st)))
      as [[c2 h2]|] eqn:Ef; [|reflexivity].
    apply find_some in Ef; destruct Ef as [Ef1 Ef2].
    apply filter_In in Ef1; destruct Ef1 as [_ Ef1].
    simpl in *; rewrite Ef2 in Ef1; discriminate.
Qed.

Lemma restart_never_keeps_old_handle_witness :
  Supervisor.gatewayProc
    (Lifecycle.sup
       (Lifecycle.step
          (Lifecycle.run (Lifecycle.initial true)
             [Lifecycle.Sup (Supervisor.Call 1); Lifecycle.Sup Supervisor.Ready;
              Lifecycle.RestartBegin 2])
          (Lifecycle.RestartResume 2)))
  <> Some 0.
Proof.
  apply (restart_never_keeps_old_handle true
           [Lifecycle.Sup (Supervisor.Call 1); Lifecycle.Sup Supervisor.Ready;
            Lifecycle.RestartBegin 2] 2 0).
  reflexivity.
Defined.

(** ** The config artifact *)

Module ConfigFacts.
Import Files Config.

Lemma candidates_single (pathJoin : jsstring -> jsstring -> jsstring)
  (STATE_DIR : jsstring) (envConfigPath : option jsstring) :
  let explicit := fieldString (option_map trim envConfigPath) in
  (explicit <> []
   /\ resolveConfigCandidates pathJoin STATE_DIR envConfigPath = [explicit])
  \/ (explicit = []
      /\ resolveConfigCandidates pathJoin STATE_DIR envConfigPath
         = [canonical pathJoin STATE_DIR]).
Proof.
  unfold resolveConfigCandidates; simpl.
  destruct (fieldString (option_map trim envConfigPath)) eqn:E; simpl.
  - right; split; reflexivity.
  - left; split; [discriminate | reflexivity].
Qed.

Lemma write_same (p c : jsstring) (f : files) : writeFileSync p c f p = Some c.
Proof. unfold writeFileSync; rewrite str_eqb_refl; reflexivity. Qed.

Lemma write_other (p q c : jsstring) (f : files) :
  q <> p -> writeFileSync p c f q = f q.
Proof.
  intros H; unfold writeFileSync.
  destruct (str_eqb q p) eqn:E; [apply str_eqb_eq in E; congruence | reflexivity].
Qed.

Lemma rm_same (p : jsstring) (f : files) : rmSync p f p = None.
Proof. unfold rmSync; rewrite str_eqb_refl; reflexivity. Qed.

Lemma rm_other (p q : jsstring) (f : files) : q <> p -> rmSync p f q = f q.
Proof.
  intros H; unfold rmSync.
  destruct (str_eqb q p) eqn:E; [apply str_eqb_eq in E; congruence | reflexivity].
Qed.

Lemma backup_differs (p stamp : jsstring) : backupPath p stamp <> p.
Proof.
  unfold backupPath; intros E.
  apply (f_equal (@length ascii)) in E.
  rewrite !length_app in E; simpl in E; lia.
Qed.

End ConfigFacts.

Import Files Config.

Lemma cfgPath_candidate (pathJoin : jsstring -> jsstring -> jsstring)
  (STATE_DIR : jsstring) (envConfigPath : option jsstring)
  (f : files) :
  resolveConfigCandidates pathJoin STATE_DIR envConfigPath
  = [configPath pathJoin STATE_DIR envConfigPath f].
Proof.
  unfold configPath.
  destruct (ConfigFacts.candidates_single pathJoin STATE_DIR envConfigPath)
    as [[Hne ->] | [He ->]]; simpl.
  - destruct (existsSync f _); [reflexivity|].
    destruct (fieldString (option_map trim envConfigPath));
      [congruence | reflexivity].
  - destruct (existsSync f _); [reflexivity|].
    destruct (canonical pathJoin STATE_DIR); reflexivity.
Qed.

(** X10.  [configPath()] does not depend on what is on disk: it is the
    trimmed [OPENCLAW_CONFIG_PATH] when that is set and non-blank, and
    [<STATE_DIR>/openclaw.json] otherwise; and [isConfigured()] is true
    exactly when a file exists at [configPath()]. *)
Theorem configPath_is_the_candidate (pathJoin : jsstring -> jsstring -> jsstring)
  (STATE_DIR : jsstring) (envConfigPath : option jsstring)
  (f : files) :
  let cfgPath := configPath pathJoin STATE_DIR envConfigPath in
  let configured := isConfigured pathJoin STATE_DIR envConfigPath in
  cfgPath f
  = (if truthy (fieldString (option_map trim envConfigPath))
     then fieldString (option_map trim envConfigPath)
     else canonical pathJoin STATE_DIR)
  /\ configured f = existsSync f (cfgPath f)
  /\ forall g, cfgPath g = cfgPath f.
Proof.
  intros cfgPath configured.
  pose proof (cfgPath_candidate pathJoin STATE_DIR envConfigPath) as Hcand.
  fold cfgPath in Hcand.
  assert (H1 : cfgPath f
               = (if truthy (fieldString (option_map trim envConfigPath))
                  then fieldString (option_map trim envConfigPath)
                  else canonical pathJoin STATE_DIR)).
  { pose proof (Hcand f) as Hc.
    unfold resolveConfigCandidates in Hc.
    destruct (truthy (fieldString (option_map trim envConfigPath)));
      inversion Hc; reflexivity. }
  split; [exact H1 | split].
  - unfold configured, isConfigured.
    rewrite (Hcand f); simpl.
    apply orb_false_r.
  - intros g; pose proof (Hcand g) as Hg.
    rewrite (Hcand f) in Hg; inversion Hg; reflexivity.
Qed.

(** X11.  After [POST /setup/api/reset], when the removal does not fail,
    the system is no longer configured, no file other than the config
    candidate has changed, and the catch-all then redirects every request
    outside [/setup] to [/setup]. *)
Theorem reset_unconfigures (pathJoin : jsstring -> jsstring -> jsstring)
  (STATE_DIR : jsstring) (envConfigPath : option jsstring)
  (rmFails : jsstring -> bool) (gatewayUp : bool) (f : files) :
  (forall p, In p (resolveConfigCandidates pathJoin STATE_DIR envConfigPath) ->
             rmFails p = false) ->
  let cfgPath := configPath pathJoin STATE_DIR envConfigPath in
  let configured := isConfigured pathJoin STATE_DIR envConfigPath in
  let f' := snd (reset pathJoin STATE_DIR envConfigPath rmFails gatewayUp f) in
  configured f' = false
  /\ (forall q, q <> cfgPath f -> f' q = f q)
  /\ (forall token ensure lastError req,
        startsWith (str "/setup") (path req) = false ->
        Proxy.middleware token (configured f') ensure lastError req
        = (Some (Proxy.redirect (str "/setup")), [])).
Proof.
  intros Hrm cfgPath configured f'.
  pose proof (cfgPath_candidate pathJoin STATE_DIR envConfigPath) as Hcand.
  fold cfgPath in Hcand.
  assert (Hf' : forall q, f' q = rmSync (cfgPath f) f q).
  { intros q; subst f'; unfold reset, removeAll; simpl.
    rewrite (Hcand f); simpl.
    rewrite Hrm; [reflexivity|].
    rewrite (Hcand f); left; reflexivity. }
  assert (Hc : configured f' = false).
  { destruct (configPath_is_the_candidate pathJoin STATE_DIR envConfigPath f')
      as (_ & Hex & Hsame).
    fold cfgPath in Hex, Hsame; fold configured in Hex; rewrite Hex.
    unfold existsSync; rewrite Hf', <- (Hsame f), ConfigFacts.rm_same.
    reflexivity. }
  split; [exact Hc | split].
  - intros q Hq; rewrite Hf'; apply ConfigFacts.rm_other; exact Hq.
  - intros token ensure lastError req Hpath.
    rewrite Hc; unfold Proxy.middleware; rewrite Hpath; reflexivity.
Qed.

(** X12.  [POST /setup/api/config/raw]: a content of more than 500,000
    characters is refused with 413 and nothing is touched.  Otherwise,
    when no file operation fails, the config file holds the new content,
    its previous content is kept in the backup file, no other file
    changes, and the gateway is always restarted, as the file just written
    makes the system configured, even when the content is empty.  Whatever
    fails, the previous content is never lost: it is still in the config
    file or in the backup. *)
Theorem writeRawConfig_keeps_backup (pathJoin : jsstring -> jsstring -> jsstring)
  (STATE_DIR : jsstring) (envConfigPath : option jsstring)
  (io : fault) (stamp : jsstring)
  (restartSettles : Console.settled) (content : jsstring) (f : files) :
  let configured := isConfigured pathJoin STATE_DIR envConfigPath in
  let p := configPath pathJoin STATE_DIR envConfigPath f in
  let r := writeRawConfig pathJoin STATE_DIR envConfigPath io stamp
             restartSettles content f in
  ((configTooLarge < length content)%nat ->
   r = (RawError 413 (str "Config too large"), [], f))
  /\ ((length content <= configTooLarge)%nat -> io = NoFault ->
      snd r p = Some content
      /\ snd (fst r) = [Console.RestartGateway]
      /\ configured (snd r) = true
      /\ (forall old, f p = Some old ->
                      snd r (backupPath p stamp) = Some old)
      /\ (forall q, q <> p -> q <> backupPath p stamp -> snd r q = f q))
  /\ (forall old, f p = Some old ->
        snd r p = Some old \/ snd r (backupPath p stamp) = Some old).
Proof.
  intros configured p r.
  pose proof (ConfigFacts.backup_differs p stamp) as Hbk.
  assert (Hcopy : forall old, f p = Some old ->
            (forall q, copyFileSync p (backupPath p stamp) f q
                       = writeFileSync (backupPath p stamp) old f q)).
  { intros old Hold q; unfold copyFileSync; rewrite Hold; reflexivity. }
  assert (Hconf : forall g, g p = Some content -> configured g = true).
  { intros g Hg.
    destruct (configPath_is_the_candidate pathJoin STATE_DIR envConfigPath g)
      as (_ & Hex & Hsame).
    fold configured in Hex; rewrite Hex, <- (Hsame f).
    fold p; unfold existsSync; rewrite Hg; reflexivity. }
  subst r; unfold writeRawConfig.
  change (configPath pathJoin STATE_DIR envConfigPath f) with p.
  change (isConfigured pathJoin STATE_DIR envConfigPath) with configured.
  split; [|split].
  - intros Hbig; apply Nat.ltb_lt in Hbig; rewrite Hbig; reflexivity.
  - intros Hsmall ->; apply Nat.ltb_ge in Hsmall; rewrite Hsmall.
    destruct (existsSync f p) eqn:Ex.
    + rewrite (Hconf _ (ConfigFacts.write_same p content _)).
      destruct restartSettles; simpl;
        (split; [apply ConfigFacts.write_same|];
         split; [reflexivity|];
         split; [apply Hconf, ConfigFacts.write_same|];
         split;
         [intros old Hold;
          rewrite ConfigFacts.write_other by exact Hbk;
          rewrite (Hcopy old Hold); apply ConfigFacts.write_same
         |intros q Hq1 Hq2;
          rewrite ConfigFacts.write_other by exact Hq1;
          unfold existsSync in Ex; destruct (f p) as [old|] eqn:Hold;
            [|discriminate];
          rewrite (Hcopy old eq_refl);
          apply ConfigFacts.write_other; exact Hq2]).
    + rewrite (Hconf _ (ConfigFacts.write_same p content _)).
      destruct restartSettles; simpl;
        (split; [apply ConfigFacts.write_same|];
         split; [reflexivity|];
         split; [apply Hconf, ConfigFacts.write_same|];
         split;
         [intros old Hold; unfold existsSync in Ex; rewrite Hold in Ex;
          discriminate
         |intros q Hq1 Hq2; apply ConfigFacts.write_other; exact Hq1]).
  - intros old Hold.
    assert (Hex : existsSync f p = true)
      by (unfold existsSync; rewrite Hold; reflexivity).
    assert (Hkept : copyFileSync p (backupPath p stamp) f p = Some old).
    { rewrite (Hcopy old Hold), ConfigFacts.write_other; auto. }
    assert (Hbacked : forall c,
               writeFileSync p c (copyFileSync p (backupPath p stamp) f)
                 (backupPath p stamp) = Some old).
    { intros c; rewrite ConfigFacts.write_other by exact Hbk.
      rewrite (Hcopy old Hold); apply ConfigFacts.write_same. }
    destruct (configTooLarge <? length content)%nat; [left; exact Hold|].
    rewrite Hex.
    destruct io; simpl; try (left; assumption).
    destruct (configured _); [destruct restartSettles|]; simpl;
      right; apply Hbacked.
Qed.

(** ** The gateway token *)

Lemma dropWhile_head (p : ascii -> bool) (s : jsstring) :
  forallb (fun c => negb (p c)) s = true -> dropWhile p s = s.
Proof.
  destruct s as [|c s]; simpl; [reflexivity|].
  intros H; apply andb_true_iff in H; destruct H as [Hc _].
  apply negb_true_iff in Hc; rewrite Hc; reflexivity.
Qed.

Lemma forallb_rev (p : ascii -> bool) (s : jsstring) :
  forallb p s = true -> forallb p (rev s) = true.
Proof.
  rewrite !forallb_forall; intros H c Hc; apply H, in_rev; exact Hc.
Qed.

(** White space free strings are left alone by [trim]. *)
Lemma trim_plain (s : jsstring) : forallb isNonSpace s = true -> trim s = s.
Proof.
  intros H; unfold trim.
  rewrite (dropWhile_head isSpace s H).
  rewrite (dropWhile_head isSpace (rev s) (forallb_rev _ s H)).
  apply rev_involutive.
Qed.

(** X13.  [resolveGatewayToken]: a non-blank [OPENCLAW_GATEWAY_TOKEN]
    wins and no file is touched; the token is never empty when the random
    one is not; and with the variable unset the token is stable: once a
    token was read from the token file or a generated one was persisted,
    the next start resolves the same token, whatever new random value it
    draws. *)
Theorem gateway_token_stable (pathJoin : jsstring -> jsstring -> jsstring)
  (STATE_DIR : jsstring) (envToken : option jsstring)
  (generated : jsstring) (writeFails : bool) (f : Files.files) :
  generated <> [] -> forallb isNonSpace generated = true ->
  let r := Config.resolveGatewayToken pathJoin STATE_DIR envToken
             generated writeFails f in
  fst r <> []
  /\ (trim (fieldString envToken) <> [] ->
      fst r = trim (fieldString envToken) /\ forall q, snd r q = f q)
  /\ (trim (fieldString envToken) = [] -> writeFails = false ->
      forall generated' writeFails',
        fst (Config.resolveGatewayToken pathJoin STATE_DIR envToken
               generated' writeFails' (snd r))
        = fst r)
  /\ (forall q, q <> Config.tokenPath pathJoin STATE_DIR -> snd r q = f q).
Proof.
  intros Hgen Hplain r; subst r; unfold Config.resolveGatewayToken.
  assert (Henv : fieldString (option_map trim envToken)
                 = trim (fieldString envToken))
    by (destruct envToken; reflexivity).
  rewrite Henv.
  set (tp := Config.tokenPath pathJoin STATE_DIR).
  destruct (truthy (trim (fieldString envToken))) eqn:Et.
  - apply truthy_iff in Et; simpl.
    split; [exact Et | split; [auto | split; [congruence | auto]]].
  - assert (Het : trim (fieldString envToken) = [])
      by (destruct (trim (fieldString envToken)); [reflexivity | discriminate]).
    destruct (truthy (trim (fieldString (f tp)))) eqn:Ef; simpl.
    + split; [apply truthy_iff; exact Ef|].
      split; [congruence|].
      split; [|auto].
      intros _ _ generated' writeFails'; rewrite Ef; reflexivity.
    + split; [exact Hgen|].
      split; [congruence|].
      split.
      * intros _ Hw generated' writeFails'; rewrite Hw.
        rewrite ConfigFacts.write_same; cbn [fieldString].
        rewrite (trim_plain generated Hplain).
        apply truthy_iff in Hgen; rewrite Hgen; reflexivity.
      * intros q Hq; destruct writeFails; [reflexivity|].
        apply ConfigFacts.write_other; exact Hq.
Qed.

Lemma gateway_token_stable_witness :
  fst (Config.resolveGatewayToken slashJoin (str "/data/.openclaw") None
         (str "00ff") false (fun _ => None))
  <> [].
Proof.
  apply (gateway_token_stable slashJoin (str "/data/.openclaw") None
           (str "00ff") false (fun _ => None)).
  - discriminate.
  - reflexivity.
Defined.

(** ** Legacy config file *)

(** X14.  The legacy migration never touches an existing
    [openclaw.json] and does nothing when [OPENCLAW_CONFIG_PATH] is set.
    Otherwise the first legacy file that exists and can be renamed
    ([clawdbot.json] before [moltbot.json]) becomes [openclaw.json] with
    its content, and no other file changes. *)
Theorem legacy_config_migrated (pathJoin : jsstring -> jsstring -> jsstring)
  (STATE_DIR : jsstring) (envConfigPath : option jsstring)
  (renameFails : jsstring -> bool) (f : Files.files) :
  let canon := Config.canonical pathJoin STATE_DIR in
  let claw := pathJoin STATE_DIR (str "clawdbot.json") in
  let molt := pathJoin STATE_DIR (str "moltbot.json") in
  canon <> claw -> canon <> molt -> claw <> molt ->
  let f' := Config.migrateLegacyConfigFile pathJoin STATE_DIR envConfigPath
              renameFails f in
  (trim (fieldString envConfigPath) <> [] \/ f canon <> None ->
   forall q, f' q = f q)
  /\ (trim (fieldString envConfigPath) = [] -> f canon = None ->
      (forall x, f claw = Some x -> renameFails claw = false ->
         f' canon = Some x /\ f' claw = None
         /\ forall q, q <> canon -> q <> claw -> f' q = f q)
      /\ (forall x, f claw = None \/ renameFails claw = true ->
         f molt = Some x -> renameFails molt = false ->
         f' canon = Some x /\ f' molt = None
         /\ forall q, q <> canon -> q <> molt -> f' q = f q)
      /\ (f claw = None -> f molt = None -> forall q, f' q = f q)).
Proof.
  intros canon claw molt H1 H2 H3 f'.
  assert (Henv : fieldString (option_map trim envConfigPath)
                 = trim (fieldString envConfigPath))
    by (destruct envConfigPath; reflexivity).
  split.
  - intros Hkeep q; subst f'; unfold Config.migrateLegacyConfigFile.
    rewrite Henv; fold canon; destruct Hkeep as [Hset | Hex].
    + apply truthy_iff in Hset; rewrite Hset; reflexivity.
    + destruct (truthy _); [reflexivity|].
      unfold Files.existsSync; destruct (f canon); [reflexivity | congruence].
  - intros Het Hc.
    assert (Hf' : f' = if Files.existsSync f claw then
                         if renameFails claw then
                           if Files.existsSync f molt then
                             if renameFails molt then f
                             else Files.renameSync molt canon f
                           else f
                         else Files.renameSync claw canon f
                       else
                         if Files.existsSync f molt then
                           if renameFails molt then f
                           else Files.renameSync molt canon f
                         else f).
    { subst f'; unfold Config.migrateLegacyConfigFile.
      rewrite Henv, Het; fold canon.
      unfold Files.existsSync at 1; rewrite Hc; reflexivity. }
    clearbody f'; subst f'.
    assert (Hren : forall src x, f src = Some x -> src <> canon ->
               Files.renameSync src canon f canon = Some x
               /\ Files.renameSync src canon f src = None
               /\ forall q, q <> canon -> q <> src ->
                            Files.renameSync src canon f q = f q).
    { intros src x Hx Hne; unfold Files.renameSync; rewrite Hx.
      split; [apply ConfigFacts.write_same | split].
      - rewrite ConfigFacts.write_other by exact Hne.
        apply ConfigFacts.rm_same.
      - intros q Hq1 Hq2; rewrite ConfigFacts.write_other by exact Hq1.
        apply ConfigFacts.rm_other; exact Hq2. }
    unfold Files.existsSync.
    split; [|split].
    + intros x Hx Hok; rewrite Hx, Hok.
      apply Hren; [exact Hx | congruence].
    + intros x Hclaw Hx Hok; rewrite Hx, Hok.
      destruct Hclaw as [-> | ->].
      * apply Hren; [exact Hx | congruence].
      * destruct (f claw); apply Hren; solve [exact Hx | congruence].
    + intros -> -> q; reflexivity.
Qed.

Lemma slashJoin_names (dir a b : jsstring) :
  a <> b -> slashJoin dir a <> slashJoin dir b.
Proof.
  unfold slashJoin; intros Hne E; apply app_inv_head in E.
  inversion E; congruence.
Qed.

Lemma legacy_config_migrated_witness :
  Config.migrateLegacyConfigFile slashJoin (str "/data/.openclaw")
    None (fun _ => false)
    (Files.writeFileSync (str "/data/.openclaw/clawdbot.json") (str "{}")
       (fun _ => None))
    (Config.canonical slashJoin (str "/data/.openclaw"))
  = Some (str "{}").
Proof.
  destruct (legacy_config_migrated slashJoin (str "/data/.openclaw")
              None (fun _ => false)
              (Files.writeFileSync (str "/data/.openclaw/clawdbot.json")
                 (str "{}") (fun _ => None))) as [_ H];
    try (apply slashJoin_names; discriminate).
  destruct (H eq_refl eq_refl) as [Hclaw _].
  apply (Hclaw (str "{}")); reflexivity.
Defined.

(** ** Environment variable migration *)

Module EnvFacts.
Import Env.

Lemma delete_same (k : jsstring) (e : env) : deleteVar k e k = None.
Proof. unfold deleteVar; rewrite str_eqb_refl; reflexivity. Qed.

Lemma delete_other (k q : jsstring) (e : env) :
  q <> k -> deleteVar k e q = e q.
Proof.
  intros H; unfold deleteVar.
  destruct (str_eqb q k) eqn:E; [apply str_eqb_eq in E; congruence | reflexivity].
Qed.

Lemma set_same (k v : jsstring) (e : env) : setVar k v e k = Some v.
Proof. unfold setVar; rewrite str_eqb_refl; reflexivity. Qed.

Lemma set_other (k q v : jsstring) (e : env) : q <> k -> setVar k v e q = e q.
Proof.
  intros H; unfold setVar.
  destruct (str_eqb q k) eqn:E; [apply str_eqb_eq in E; congruence | reflexivity].
Qed.

(** One turn of the loop touches the two keys of its suffix only. *)
Lemma migrateOne_other (e : env) (s q : jsstring) :
  q <> oldKey s -> q <> newKey s -> migrateOne e s q = e q.
Proof.
  intros H1 H2; unfold migrateOne.
  rewrite delete_other by exact H1.
  destruct (_ && _); [apply set_other; exact H2 | reflexivity].
Qed.

Lemma migrateOne_old (e : env) (s : jsstring) : migrateOne e s (oldKey s) = None.
Proof. unfold migrateOne; apply delete_same. Qed.

Lemma old_new_differ (s t : jsstring) : newKey s <> oldKey t.
Proof. unfold newKey, oldKey; simpl; intros E; inversion E. Qed.

Lemma migrateOne_new (e : env) (s : jsstring) :
  migrateOne e s (newKey s)
  = if truthy (fieldString (e (newKey s))) then e (newKey s)
    else if truthy (fieldString (e (oldKey s)))
         then Some (fieldString (e (oldKey s)))
         else e (newKey s).
Proof.
  unfold migrateOne; rewrite delete_other by apply old_new_differ.
  destruct (truthy (fieldString (e (newKey s)))),
           (truthy (fieldString (e (oldKey s)))); simpl;
    try reflexivity.
  apply set_same.
Qed.

Lemma key_inj (s t : jsstring) :
  (oldKey s = oldKey t -> s = t) /\ (newKey s = newKey t -> s = t).
Proof.
  unfold oldKey, newKey; split; intros E; apply app_inv_head in E; exact E.
Qed.

(** Turns for other suffixes leave the two keys of [s] alone. *)
Lemma migrate_others (ss : list jsstring) (s q : jsstring) (e : env) :
  ~ In s ss -> q = oldKey s \/ q = newKey s ->
  fold_left migrateOne ss e q = e q.
Proof.
  revert e; induction ss as [|t ss IH]; intros e Hno Hq; simpl;
    [reflexivity|].
  rewrite IH; [|intros H; apply Hno; right; exact H | exact Hq].
  assert (Hts : t <> s) by (intros ->; apply Hno; left; reflexivity).
  apply migrateOne_other; destruct Hq as [-> | ->]; intros E.
  - apply key_inj in E; congruence.
  - exact (old_new_differ s t E).
  - exact (old_new_differ t s (eq_sym E)).
  - apply key_inj in E; congruence.
Qed.

Lemma migrate_split (ss : list jsstring) (s : jsstring) :
  In s ss -> NoDup ss ->
  exists before after,
    ss = before ++ s :: after /\ ~ In s before /\ ~ In s after.
Proof.
  intros HIn Hnd; apply in_split in HIn; destruct HIn as (b & a & ->).
  exists b, a; split; [reflexivity|].
  apply NoDup_remove_2 in Hnd; split; intros H; apply Hnd;
    apply in_or_app; [left | right]; exact H.
Qed.

Lemma suffixes_nodup : NoDup suffixes.
Proof.
  unfold suffixes; simpl.
  repeat (constructor; [simpl; intuition discriminate|]); constructor.
Qed.

End EnvFacts.

(** X15.  After the start-up migration of the environment, none of the
    five legacy [CLAWDBOT_*] variables is left; each [OPENCLAW_*] variable
    keeps its own value when it had a non-empty one, and otherwise takes
    the non-empty value of its legacy variable; every other variable is
    untouched. *)
Theorem env_migration (e : Env.env) (suffix : jsstring) :
  In suffix Env.suffixes ->
  let e' := Env.migrateEnv e in
  e' (Env.oldKey suffix) = None
  /\ e' (Env.newKey suffix)
     = (if truthy (fieldString (e (Env.newKey suffix)))
        then e (Env.newKey suffix)
        else if truthy (fieldString (e (Env.oldKey suffix)))
             then Some (fieldString (e (Env.oldKey suffix)))
             else e (Env.newKey suffix))
  /\ (forall k,
        (forall s, In s Env.suffixes ->
                   k <> Env.oldKey s /\ k <> Env.newKey s) ->
        e' k = e k).
Proof.
  intros HIn e'; subst e'; unfold Env.migrateEnv.
  destruct (EnvFacts.migrate_split _ _ HIn EnvFacts.suffixes_nodup)
    as (before & after & Hss & Hb & Ha).
  split; [|split].
  - rewrite Hss, fold_left_app; simpl.
    rewrite (EnvFacts.migrate_others after suffix _ _ Ha) by (left; reflexivity).
    apply EnvFacts.migrateOne_old.
  - rewrite Hss, fold_left_app; simpl.
    rewrite (EnvFacts.migrate_others after suffix _ _ Ha) by (right; reflexivity).
    rewrite EnvFacts.migrateOne_new.
    rewrite !(EnvFacts.migrate_others before suffix _ _ Hb) by auto.
    reflexivity.
  - intros k Hk; clear Hss HIn.
    assert (G : forall ss e0, (forall s, In s ss -> In s Env.suffixes) ->
                fold_left Env.migrateOne ss e0 k = e0 k).
    { induction ss as [|t ss IH]; intros e0 Hsub; simpl; [reflexivity|].
      rewrite IH by (intros s Hs; apply Hsub; right; exact Hs).
      destruct (Hk t (Hsub t (or_introl eq_refl))) as [Ho Hn].
      apply EnvFacts.migrateOne_other; assumption. }
    apply G; auto.
Qed.

Lemma env_migration_witness :
  Env.migrateEnv
    (Env.setVar (str "CLAWDBOT_STATE_DIR") (str "/data/.clawdbot") (fun _ => None))
    (Env.oldKey (str "STATE_DIR")) = None.
Proof.
  apply (env_migration
           (Env.setVar (str "CLAWDBOT_STATE_DIR") (str "/data/.clawdbot")
              (fun _ => None)) (str "STATE_DIR")).
  simpl; tauto.
Defined.

(** ** Reading an upload *)

Module BodyFacts.
Import Body.

Lemma settle_settled (o : outcome) (st : state) :
  settled (settle o st)
  = match settled st with Some u => Some u | None => Some o end.
Proof.
  unfold settle; destruct (settled st) eqn:E; simpl; [exact E | reflexivity].
Qed.

Lemma settle_fields (o : outcome) (st : state) :
  chunks (settle o st) = chunks st /\ total (settle o st) = total st
  /\ destroyed (settle o st) = destroyed st.
Proof. unfold settle; destruct (settled st); simpl; auto. Qed.

Lemma bounded_step (maxBytes : nat) (st : state) (ev : event) :
  bounded maxBytes st -> bounded maxBytes (step maxBytes st ev).
Proof.
  unfold bounded; intros (H1 & H2 & H3 & H4); destruct ev as [c| |err]; simpl.
  - destruct (maxBytes <? total st + length c)%nat eqn:E.
    + apply Nat.ltb_lt in E.
      destruct (settle_fields (Rejected tooLarge)
                  {| chunks := chunks st; total := total st + length c;
                     destroyed := true; settled := settled st |})
        as (-> & -> & _); simpl.
      rewrite settle_settled; simpl.
      repeat split; try lia.
      intros b; destruct (settled st) eqn:Es; [|discriminate].
      intros Hb; apply H4; congruence.
    + apply Nat.ltb_ge in E; simpl.
      rewrite concat_app, length_app; simpl; rewrite app_nil_r.
      assert (total st <= maxBytes) by lia.
      specialize (H3 H); repeat split; try lia; exact H4.
  - destruct (settle_fields (Resolved (concat (chunks st))) st)
      as (-> & -> & _).
    rewrite settle_settled.
    repeat split; try assumption.
    intros b; destruct (settled st) eqn:Es.
    + intros Hb; apply H4; congruence.
    + intros Hb; inversion Hb; subst; exact H1.
  - destruct (settle_fields (Rejected err) st) as (-> & -> & _).
    rewrite settle_settled.
    repeat split; try assumption.
    intros b; destruct (settled st) eqn:Es; [|discriminate].
    intros Hb; apply H4; congruence.
Qed.

Lemma bounded_run (maxBytes : nat) (evs : list event) (st : state) :
  bounded maxBytes st -> bounded maxBytes (fold_left (step maxBytes) evs st).
Proof.
  revert st; induction evs as [|ev evs IH]; intros st H; simpl; [exact H|].
  apply IH, bounded_step, H.
Qed.

(** Chunks that fit are all kept. *)
Lemma fitting_chunks (maxBytes : nat) (cs : list jsstring) (st : state) :
  total st + length (concat cs) <= maxBytes ->
  fold_left (step maxBytes) (map Data cs) st
  = {| chunks := chunks st ++ cs; total := total st + length (concat cs);
       destroyed := destroyed st; settled := settled st |}.
Proof.
  revert st; induction cs as [|c cs IH]; intros st H; simpl.
  - rewrite app_nil_r, Nat.add_0_r; destruct st; reflexivity.
  - simpl in H; rewrite length_app in H.
    destruct (maxBytes <? total st + length c)%nat eqn:E;
      [apply Nat.ltb_lt in E; lia|].
    rewrite IH by (simpl; lia); simpl.
    rewrite <- app_assoc, length_app, Nat.add_assoc; reflexivity.
Qed.

(** Once the limit is passed, the upload stays rejected. *)
Lemma over_stays (maxBytes : nat) (evs : list event) (st : state) :
  maxBytes < total st -> destroyed st = true ->
  settled st = Some (Rejected tooLarge) ->
  let st' := fold_left (step maxBytes) evs st in
  destroyed st' = true /\ settled st' = Some (Rejected tooLarge)
  /\ maxBytes < total st'.
Proof.
  revert st; induction evs as [|ev evs IH]; intros st Ht Hd Hs; simpl;
    [auto|].
  destruct ev as [c| |err]; simpl.
  - destruct (maxBytes <? total st + length c)%nat eqn:E;
      [|apply Nat.ltb_ge in E; lia].
    apply IH; unfold settle; simpl; rewrite Hs; simpl; auto; lia.
  - apply IH; unfold settle; rewrite Hs; assumption.
  - apply IH; unfold settle; rewrite Hs; assumption.
Qed.

(** A stream that passes the limit is rejected at the chunk that does. *)
Lemma exceeding_chunks (maxBytes : nat) (cs : list jsstring) (st : state) :
  settled st = None -> total st <= maxBytes ->
  maxBytes < total st + length (concat cs) ->
  let st' := fold_left (step maxBytes) (map Data cs) st in
  destroyed st' = true /\ settled st' = Some (Rejected tooLarge)
  /\ maxBytes < total st'.
Proof.
  revert st; induction cs as [|c cs IH]; intros st Hs Ht Hover; simpl in *.
  - lia.
  - rewrite length_app in Hover.
    destruct (maxBytes <? total st + length c)%nat eqn:E.
    + apply Nat.ltb_lt in E.
      set (st1 := settle _ _).
      assert (H1 : maxBytes < total st1 /\ destroyed st1 = true
                   /\ settled st1 = Some (Rejected tooLarge)).
      { subst st1; unfold settle; simpl; rewrite Hs; simpl; auto. }
      destruct H1 as (Ha & Hb & Hc).
      exact (over_stays maxBytes (map Data cs) st1 Ha Hb Hc).
    + apply Nat.ltb_ge in E; apply IH; simpl; try assumption; lia.
Qed.

End BodyFacts.

(** X16.  [readBodyBuffer] never holds more than [maxBytes] bytes and
    never resolves with more, whatever the request emits.  For an upload
    that arrives in chunks and then ends: if it fits the limit the promise
    resolves with exactly the bytes sent; if it does not, the promise is
    rejected with "payload too large" and the request is destroyed. *)
Theorem readBodyBuffer_bounded (maxBytes : nat) (evs : list Body.event)
  (cs : list jsstring) :
  Body.bounded maxBytes (Body.readBodyBuffer maxBytes evs)
  /\ (length (concat cs) <= maxBytes ->
      Body.settled (Body.readBodyBuffer maxBytes (map Body.Data cs ++ [Body.End_]))
      = Some (Body.Resolved (concat cs))
      /\ Body.destroyed
           (Body.readBodyBuffer maxBytes (map Body.Data cs ++ [Body.End_]))
         = false)
  /\ (maxBytes < length (concat cs) ->
      Body.settled (Body.readBodyBuffer maxBytes (map Body.Data cs ++ [Body.End_]))
      = Some (Body.Rejected Body.tooLarge)
      /\ Body.destroyed
           (Body.readBodyBuffer maxBytes (map Body.Data cs ++ [Body.End_]))
         = true).
Proof.
  split; [|split].
  - apply BodyFacts.bounded_run; unfold Body.bounded; simpl.
    repeat split; try lia; discriminate.
  - intros Hfit; unfold Body.readBodyBuffer.
    rewrite fold_left_app, BodyFacts.fitting_chunks by (simpl; lia).
    split; reflexivity.
  - intros Hover; unfold Body.readBodyBuffer; rewrite fold_left_app.
    destruct (BodyFacts.exceeding_chunks maxBytes cs Body.start)
      as (Hd & Hs & _); simpl; try lia; try reflexivity.
    unfold Body.settle; rewrite Hs; split; assumption.
Qed.

Lemma readBodyBuffer_bounded_witness :
  Body.settled (Body.readBodyBuffer 4 (map Body.Data [str "abc"; str "de"]
                                       ++ [Body.End_]))
  = Some (Body.Rejected Body.tooLarge)
  /\ Body.destroyed
       (Body.readBodyBuffer 4 (map Body.Data [str "abc"; str "de"]
                               ++ [Body.End_])) = true.
Proof.
  apply (readBodyBuffer_bounded 4 [] [str "abc"; str "de"]).
  simpl; lia.
Defined.

Lemma waiters_share_the_attempt_witness :
  Supervisor.awaiting
    (Supervisor.step
       (Supervisor.run (Supervisor.stopped true)
          [Supervisor.Call 1; Supervisor.ProcExit; Supervisor.Call 2])
       Supervisor.Ready) = [].
Proof.
  destruct (waiters_share_the_attempt true
              [Supervisor.Call 1; Supervisor.ProcExit; Supervisor.Call 2])
    as [_ H].
  destruct (H Supervisor.Ready) as [H0 _];
    [discriminate | reflexivity | exact H0].
Defined.

Lemma reset_unconfigures_witness :
  Config.isConfigured slashJoin (str "/data/.openclaw") None
    (snd (Config.reset slashJoin (str "/data/.openclaw") None
            (fun _ => false) true
            (Files.writeFileSync (str "/data/.openclaw/openclaw.json")
               (str "{}") (fun _ => None))))
  = false.
Proof.
  apply (reset_unconfigures slashJoin (str "/data/.openclaw") None
           (fun _ => false) true
           (Files.writeFileSync (str "/data/.openclaw/openclaw.json")
              (str "{}") (fun _ => None))).
  intros p _; reflexivity.
Defined.

Lemma writeRawConfig_keeps_backup_witness :
  snd (Config.writeRawConfig slashJoin (str "/data/.openclaw") None
         Config.NoFault (str "2026-01-01T00-00-00-000Z")
         (Console.Resolved true []) (str "{}")
         (Files.writeFileSync (str "/data/.openclaw/openclaw.json")
            (str "{old}") (fun _ => None)))
      (Config.backupPath (str "/data/.openclaw/openclaw.json")
         (str "2026-01-01T00-00-00-000Z"))
  = Some (str "{old}").
Proof.
  pose proof (writeRawConfig_keeps_backup slashJoin (str "/data/.openclaw")
                None Config.NoFault (str "2026-01-01T00-00-00-000Z")
                (Console.Resolved true []) (str "{}")
                (Files.writeFileSync (str "/data/.openclaw/openclaw.json")
                   (str "{old}") (fun _ => None))) as H.
  cbv zeta in H; destruct H as (_ & H & _).
  assert (Hlen : (length (str "{}") <= Config.configTooLarge)%nat)
    by (unfold Config.configTooLarge; simpl length; lia).
  destruct (H Hlen eq_refl) as (_ & _ & _ & Hold & _).
  apply (Hold (str "{old}")); reflexivity.
Defined.

(** ** Pending device requests *)

Module CaptureFacts.
Import Capture.

Lemma backtrackParts_sound (f : jsstring -> option (list nat)) (k : nat)
  (s : jsstring) :
  forall j parts, backtrackParts f k j s = Some parts ->
    exists n ps, parts = n :: ps /\ k <= n <= k + j
                 /\ f (skipn n s) = Some ps.
Proof.
  induction j as [|j IH]; intros parts H; simpl in H.
  - destruct (f (skipn (k + 0) s)) as [ps|] eqn:E; [|discriminate].
    inversion H; subst; exists (k + 0), ps; repeat split; auto; lia.
  - destruct (f (skipn (k + S j) s)) as [ps|] eqn:E.
    + inversion H; subst; exists (k + S j), ps; repeat split; auto; lia.
    + destruct (IH _ H) as (n & ps & -> & Hn & Hf).
      exists n, ps; repeat split; auto; lia.
Qed.

(** The capture search is the search of [matchSeq]: it succeeds on the
    same inputs, and the pieces add up to the length of the match. *)
Lemma backtrackParts_total (f : jsstring -> option nat)
  (g : jsstring -> option (list nat)) (k : nat) (s : jsstring) :
  (forall t, f t = option_map list_sum (g t)) ->
  forall j, backtrack f k j s = option_map list_sum (backtrackParts g k j s).
Proof.
  intros Hfg; induction j as [|j IH]; simpl; rewrite Hfg.
  - destruct (g (skipn (k + 0) s)); reflexivity.
  - destruct (g (skipn (k + S j) s)); [reflexivity | exact IH].
Qed.

Lemma matchParts_total (r : pattern) :
  forall s, matchSeq r s = option_map list_sum (matchParts r s).
Proof.
  induction r as [|[c|p|k p] r IH]; intros s; simpl; [reflexivity| | |].
  - destruct s as [|x s]; [reflexivity|].
    destruct (chr_eqb x c); [|reflexivity].
    rewrite IH; destruct (matchParts r s); reflexivity.
  - destruct s as [|x s]; [reflexivity|].
    destruct (p x); [|reflexivity].
    rewrite IH; destruct (matchParts r s); reflexivity.
  - destruct (k <=? runLen p s); [|reflexivity].
    apply backtrackParts_total; exact IH.
Qed.

Lemma piece_first (n : nat) (ps : list nat) (s : jsstring) :
  piece 0 (n :: ps) s = firstn n s.
Proof. reflexivity. Qed.

Lemma piece_next (i n : nat) (ps : list nat) (s : jsstring) :
  piece (S i) (n :: ps) s = piece i ps (skipn n s).
Proof.
  unfold piece; simpl; rewrite Nat.add_comm, <- skipn_skipn; reflexivity.
Qed.

Lemma runLen_firstn (p : ascii -> bool) (s : jsstring) :
  forall n, n <= runLen p s ->
            forallb p (firstn n s) = true /\ length (firstn n s) = n.
Proof.
  induction s as [|c s IH]; intros n Hn; simpl in Hn.
  - assert (n = 0) by lia; subst; auto.
  - destruct n as [|n]; [auto|]; simpl.
    destruct (p c) eqn:E; [|lia].
    destruct (IH n) as [H1 H2]; [lia|].
    rewrite H1, H2; auto.
Qed.

(** What a repetition atom captured is made of its class and has at least
    its minimal length. *)
Lemma matchParts_sound (r : pattern) :
  forall s parts, matchParts r s = Some parts ->
    forall i k p, nth_error r i = Some (AtLeast k p) ->
      k <= length (piece i parts s)
      /\ forallb p (piece i parts s) = true.
Proof.
  induction r as [|[c|q|k0 q] r IH]; intros s parts H i k p Hi.
  - destruct i; discriminate.
  - simpl in H; destruct s as [|x s]; [discriminate|].
    destruct (chr_eqb x c); [|discriminate].
    destruct (matchParts r s) as [ps|] eqn:E; [|discriminate].
    inversion H; subst.
    destruct i as [|i]; [discriminate|].
    rewrite piece_next; simpl skipn; exact (IH _ _ E i k p Hi).
  - simpl in H; destruct s as [|x s]; [discriminate|].
    destruct (q x); [|discriminate].
    destruct (matchParts r s) as [ps|] eqn:E; [|discriminate].
    inversion H; subst.
    destruct i as [|i]; [discriminate|].
    rewrite piece_next; simpl skipn; exact (IH _ _ E i k p Hi).
  - simpl in H.
    destruct (k0 <=? runLen q s) eqn:Ek; [|discriminate].
    apply Nat.leb_le in Ek.
    destruct (backtrackParts_sound _ _ _ _ _ H) as (n & ps & -> & Hn & Hf).
    destruct i as [|i].
    + inversion Hi; subst; rewrite piece_first.
      destruct (runLen_firstn p s n) as [H1 H2]; [lia|].
      rewrite H1, H2; split; [lia | reflexivity].
    + rewrite piece_next; exact (IH _ _ Hf i k p Hi).
Qed.

Lemma piece_infix (i : nat) (parts : list nat) (s : jsstring) :
  Infix (piece i parts s) s.
Proof.
  unfold piece.
  exists (firstn (list_sum (firstn i parts)) s),
         (skipn (nth i parts 0) (skipn (list_sum (firstn i parts)) s)).
  rewrite (firstn_skipn (nth i parts 0)), firstn_skipn; reflexivity.
Qed.

Lemma infix_suffix (w a t : jsstring) : Infix w t -> Infix w (a ++ t).
Proof.
  intros (x & y & ->); exists (a ++ x), y; rewrite <- app_assoc; reflexivity.
Qed.

(** Every capture of [matchAll] is the piece of a match found at some
    place of the text. *)
Lemma matchAll_in (r : pattern) (group : nat) (x : jsstring) :
  forall s skip, In x (matchAll r group skip s) ->
    exists before here parts,
      s = before ++ here /\ matchParts r here = Some parts
      /\ x = piece group parts here.
Proof.
  induction s as [|c t IH]; intros skip H; simpl in H; [contradiction|].
  assert (Hlater : forall k, In x (matchAll r group k t) ->
            exists before here parts,
              c :: t = before ++ here /\ matchParts r here = Some parts
              /\ x = piece group parts here).
  { intros k Hk; destruct (IH k Hk) as (b & h & ps & -> & Hm & Hx).
    exists (c :: b), h, ps; auto. }
  destruct skip as [|k]; [|exact (Hlater k H)].
  destruct (matchParts r (c :: t)) as [parts|] eqn:E; [|exact (Hlater 0 H)].
  destruct (list_sum parts) as [|n]; [exact (Hlater 0 H)|].
  destruct H as [<-|H]; [|exact (Hlater n H)].
  exists [], (c :: t), parts; auto.
Qed.

Lemma add_in (xs : list jsstring) :
  forall out x, In x (fold_left add xs out) <-> In x out \/ In x xs.
Proof.
  induction xs as [|y xs IH]; intros out x; simpl; [tauto|].
  rewrite IH; unfold add.
  destruct (includes y out) eqn:E.
  - apply includes_In in E; split; [tauto|].
    intros [H|[<-|H]]; auto.
  - rewrite in_app_iff; simpl; tauto.
Qed.

Lemma add_nodup (xs : list jsstring) :
  forall out, NoDup out -> NoDup (fold_left add xs out).
Proof.
  induction xs as [|y xs IH]; intros out H; simpl; [exact H|].
  apply IH; unfold add.
  destruct (includes y out) eqn:E; [exact H|].
  apply includes_false in E.
  apply NoDup_app; [exact H | repeat constructor; simpl; tauto |].
  intros z Hz [<-|[]]; contradiction.
Qed.

End CaptureFacts.

Lemma wordDash_not_space (c : ascii) : isWordDash c = true -> isNonSpace c = true.
Proof.
  destruct c as [[] [] [] [] [] [] [] []]; vm_compute; congruence.
Qed.

Lemma wordDash_plain (s : jsstring) :
  forallb isWordDash s = true -> forallb isNonSpace s = true.
Proof.
  rewrite !forallb_forall; intros H c Hc; apply wordDash_not_space, H, Hc.
Qed.

(** [/^[A-Za-z0-9_-]+$/] accepts every non-empty string of letters,
    digits, [_] and [-]. *)
Lemma identifierRe_complete (s : jsstring) :
  s <> [] -> forallb isWordDash s = true -> testWhole identifierRe s = true.
Proof.
  intros Hne Hs; unfold testWhole, identifierRe; cbn [matchSeq].
  assert (Hrun : runLen isWordDash s = length s).
  { clear Hne; induction s as [|c s IH]; simpl in *; [reflexivity|].
    apply andb_true_iff in Hs; destruct Hs as [-> Hs]; rewrite IH; auto. }
  rewrite Hrun.
  destruct (1 <=? length s) eqn:E.
  - rewrite backtrack_first; apply Nat.leb_le in E; apply Nat.eqb_eq; lia.
  - apply Nat.leb_gt in E; destruct s; [congruence | simpl in E; lia].
Qed.

Lemma extracted_id_shape (text id : jsstring) :
  In id (extractDeviceRequestIds text) ->
  6 <= length id /\ forallb isWordDash id = true /\ Infix id text.
Proof.
  unfold extractDeviceRequestIds; rewrite !CaptureFacts.add_in.
  assert (G : forall head tail,
             In id (Capture.matchAll (head ++ requestIdGroup :: tail)
                      (length head) 0 text) ->
             6 <= length id /\ forallb isWordDash id = true /\ Infix id text).
  { intros head tail H.
    destruct (CaptureFacts.matchAll_in _ _ _ _ _ H)
      as (b & h & parts & -> & Hm & ->).
    destruct (CaptureFacts.matchParts_sound _ _ _ Hm (length head) 6 isWordDash)
      as [H1 H2].
    { rewrite nth_error_app2, Nat.sub_diag by lia; reflexivity. }
    repeat split; try assumption.
    apply CaptureFacts.infix_suffix, CaptureFacts.piece_infix. }
  intros [[[]|H]|H].
  - apply (G plainRequestIdHead []); exact H.
  - apply (G quotedRequestIdHead [Chr dquote]); exact H.
Qed.

(** X17.  Every request id that [/setup/api/devices/pending] returns is
    taken from the redacted output of [devices list], is at least six
    letters, digits, [_] or [-], and is not itself a secret-shaped string;
    handed back to [/setup/api/devices/approve] it passes the validation
    there, so that the approve command is run with exactly this id.  No id
    is listed twice. *)
Theorem pending_ids_approvable (E N : jsstring) (w : world) (id : jsstring) :
  In id (requestIds (fst (devicesPending E N w))) ->
  Infix id (pendingOutput (fst (devicesPending E N w)))
  /\ 6 <= length id /\ forallb isWordDash id = true
  /\ ~ secretShape id
  /\ devicesApprove E N w (Some id)
     = runAndReport E N w ["devices"; "approve"]%string [id]
  /\ NoDup (requestIds (fst (devicesPending E N w))).
Proof.
  cbn [devicesPending fst requestIds pendingOutput]; intros H.
  destruct (extracted_id_shape _ _ H) as (Hlen & Hcls & Hin).
  split; [exact Hin | split; [exact Hlen | split; [exact Hcls|]]].
  split; [|split].
  - intros Hs; exact (redactSecrets_no_secret _ _ Hs Hin).
  - unfold devicesApprove; cbn [fieldString].
    rewrite (trim_plain id (wordDash_plain id Hcls)).
    assert (Hne : id <> []) by (intros ->; simpl in Hlen; lia).
    destruct id as [|c id']; [congruence|].
    rewrite (identifierRe_complete (c :: id') Hne Hcls); reflexivity.
  - unfold extractDeviceRequestIds.
    apply CaptureFacts.add_nodup, CaptureFacts.add_nodup; constructor.
Qed.

Lemma pending_ids_approvable_witness :
  devicesApprove defaultEntry defaultNode
    (printing (str "requestId: abc-123_x"))
    (Some (str "abc-123_x"))
  = runAndReport defaultEntry defaultNode
      (printing (str "requestId: abc-123_x"))
      ["devices"; "approve"]%string [str "abc-123_x"].
Proof.
  apply (pending_ids_approvable defaultEntry defaultNode
           (printing (str "requestId: abc-123_x")) (str "abc-123_x")).
  vm_compute; left; reflexivity.
Defined.

(** ** Export and import *)

Module ArchiveFacts.
Import Archive.

Lemma split_pieces (c : ascii) (s : jsstring) :
  Forall (fun seg => ~ In c seg) (split c s).
Proof.
  induction s as [|x s IH]; simpl.
  - constructor; [intros [] | constructor].
  - destruct (chr_eqb x c) eqn:E.
    + constructor; [intros [] | exact IH].
    + destruct (split c s) as [|seg segs]; [constructor; [|constructor]|].
      * intros [->|[]]; rewrite chr_eqb_refl in E; discriminate.
      * inversion IH; subst; constructor; [|assumption].
        intros [->|H]; [rewrite chr_eqb_refl in E; discriminate | auto].
Qed.

Lemma resolveFrom_plain (segs : list jsstring) :
  forall acc, Forall plainName acc ->
              Forall (fun seg => ~ In "/"%char seg) segs ->
              Forall plainName (resolveFrom acc segs).
Proof.
  induction segs as [|seg segs IH]; intros acc Hacc Hsegs;
    cbn [resolveFrom]; [exact Hacc|].
  inversion Hsegs; subst.
  destruct (str_eqb seg []) eqn:E0; cbn [orb]; [apply IH; assumption|].
  destruct (str_eqb seg (str ".")) eqn:E1; [apply IH; assumption|].
  destruct (str_eqb seg (str "..")) eqn:E2.
  - apply IH; [|assumption].
    destruct acc; [constructor | inversion Hacc; assumption].
  - apply IH; [|assumption].
    constructor; [|assumption].
    repeat split; try assumption; intros ->; simpl in *; discriminate.
Qed.

Lemma resolve_plain (cwd p : jsstring) : Forall plainName (resolve cwd p).
Proof.
  unfold resolve; destruct (startsWith (str "/") p); apply Forall_rev;
    repeat apply resolveFrom_plain; try apply split_pieces; constructor.
Qed.

Lemma plain_no_sep (segs : list jsstring) :
  Forall plainName segs -> Forall (fun seg => ~ In "/"%char seg) segs.
Proof. apply Forall_impl; intros seg (_ & _ & _ & H); exact H. Qed.

Lemma resolveFrom_names (segs : list jsstring) :
  forall acc, Forall plainName segs -> resolveFrom acc segs = rev segs ++ acc.
Proof.
  induction segs as [|seg segs IH]; intros acc H; cbn [resolveFrom];
    [reflexivity|].
  inversion H as [|? ? (H0 & H1 & H2 & _) Hrest]; subst.
  destruct (str_eqb seg []) eqn:E0; [apply str_eqb_eq in E0; congruence|].
  destruct (str_eqb seg (str ".")) eqn:E1; [apply str_eqb_eq in E1; congruence|].
  destruct (str_eqb seg (str "..")) eqn:E2; [apply str_eqb_eq in E2; congruence|].
  cbn [orb rev]; rewrite IH by assumption; rewrite <- app_assoc; reflexivity.
Qed.

Lemma resolveFrom_app (a b : list jsstring) :
  forall acc, resolveFrom acc (a ++ b) = resolveFrom (resolveFrom acc a) b.
Proof.
  induction a as [|seg a IH]; intros acc; cbn [resolveFrom app];
    [reflexivity|].
  destruct (str_eqb seg [] || str_eqb seg (str ".")); [apply IH|].
  destruct (str_eqb seg (str "..")); apply IH.
Qed.

(** Cutting a joined path gives the names back, also with more text
    after it. *)
Lemma split_join_more (segs : list jsstring) (more : jsstring) :
  segs <> [] -> Forall (fun seg => ~ In "/"%char seg) segs ->
  split "/" (join segs ++ "/"%char :: more) = segs ++ split "/" more.
Proof.
  induction segs as [|seg segs IH]; intros Hne H; [congruence|].
  inversion H; subst.
  destruct segs as [|seg' segs].
  - simpl join; rewrite split_at_sep by assumption; reflexivity.
  - change (join (seg :: seg' :: segs))
      with (seg ++ "/"%char :: join (seg' :: segs)).
    replace ((seg ++ "/"%char :: join (seg' :: segs)) ++ "/"%char :: more)
      with (seg ++ "/"%char :: (join (seg' :: segs) ++ "/"%char :: more))
      by (rewrite <- app_assoc; reflexivity).
    rewrite split_at_sep by assumption.
    rewrite IH by (congruence || assumption); reflexivity.
Qed.

Lemma split_join (segs : list jsstring) :
  segs <> [] -> Forall (fun seg => ~ In "/"%char seg) segs ->
  split "/" (join segs) = segs.
Proof.
  induction segs as [|seg segs IH]; intros Hne H; [congruence|].
  inversion H; subst.
  destruct segs as [|seg' segs].
  - simpl join; apply split_no_sep; assumption.
  - change (join (seg :: seg' :: segs))
      with (seg ++ "/"%char :: join (seg' :: segs)).
    rewrite split_at_sep by assumption.
    rewrite IH by (congruence || assumption); reflexivity.
Qed.

Lemma join_head (seg : jsstring) (segs : list jsstring) :
  exists more, join (seg :: segs) = seg ++ more
               /\ (segs = [] -> more = [])
               /\ (segs <> [] -> exists j, more = "/"%char :: j).
Proof.
  destruct segs as [|seg' segs].
  - exists []; simpl; rewrite app_nil_r; repeat split; congruence.
  - exists ("/"%char :: join (seg' :: segs)); repeat split;
      [congruence | intros _; eexists; reflexivity].
Qed.

Lemma startsWith_app (pre s : jsstring) :
  startsWith pre s = true <-> exists x, s = pre ++ x.
Proof.
  revert s; induction pre as [|c pre IH]; intros s; simpl.
  - split; [intros _; exists s; reflexivity | reflexivity].
  - destruct s as [|y s]; [split; [discriminate | intros (x & E); discriminate]|].
    rewrite andb_true_iff, chr_eqb_eq, IH; split.
    + intros (-> & x & ->); exists x; reflexivity.
    + intros (x & E); inversion E; subst; split; [reflexivity | exists x; reflexivity].
Qed.

(** The joined text of plain names never starts with a slash. *)
Lemma join_relative (segs : list jsstring) :
  Forall plainName segs -> startsWith (str "/") (join segs) = false.
Proof.
  intros H; destruct segs as [|seg segs]; [reflexivity|].
  inversion H as [|? ? (Hne & _ & _ & Hno) _]; subst.
  destruct (join_head seg segs) as (more & -> & _).
  destruct seg as [|c seg]; [congruence|].
  change (str "/") with ["/"%char]; cbn [app startsWith].
  destruct (chr_eqb "/" c) eqn:E; [|reflexivity].
  apply chr_eqb_eq in E; subst; exfalso; apply Hno; left; reflexivity.
Qed.

Lemma join_empty (segs : list jsstring) :
  Forall plainName segs -> join segs = [] -> segs = [].
Proof.
  intros H E; destruct segs as [|seg segs]; [reflexivity|].
  inversion H as [|? ? (Hne & _) _]; subst.
  destruct (join_head seg segs) as (more & Hj & _).
  rewrite Hj in E; apply app_eq_nil in E; tauto.
Qed.

(** [path.resolve] leaves a resolved path as it is. *)
Lemma resolve_resolved (cwd p : jsstring) :
  resolve cwd (resolved cwd p) = resolve cwd p.
Proof.
  unfold resolved; pose proof (resolve_plain cwd p) as Hp.
  set (segs := resolve cwd p) in *; clearbody segs.
  unfold resolve at 1; simpl startsWith; cbv iota.
  cbn [split]; rewrite chr_eqb_refl; cbn [resolveFrom str_eqb orb].
  destruct segs as [|seg segs]; [reflexivity|].
  rewrite split_join by (congruence || apply plain_no_sep, Hp).
  rewrite resolveFrom_names by exact Hp.
  rewrite app_nil_r, rev_involutive; reflexivity.
Qed.

(** Where a path below a resolved directory resolves. *)
Lemma resolve_below (cwd : jsstring) (segs : list jsstring) (sub : jsstring) :
  Forall plainName segs -> segs <> [] ->
  resolve cwd (("/"%char :: join segs) ++ "/"%char :: sub)
  = rev (resolveFrom (rev segs) (split "/" sub)).
Proof.
  intros Hp Hne; unfold resolve.
  set (X := join segs ++ "/"%char :: sub).
  change (("/"%char :: join segs) ++ "/"%char :: sub) with ("/"%char :: X).
  assert (Hs : startsWith (str "/") ("/"%char :: X) = true) by reflexivity.
  assert (Hsp : split "/" ("/"%char :: X) = [] :: split "/" X).
  { cbn [split]; rewrite chr_eqb_refl; reflexivity. }
  rewrite Hs, Hsp; subst X.
  rewrite split_join_more by (assumption || apply plain_no_sep, Hp).
  cbn [resolveFrom str_eqb orb].
  rewrite resolveFrom_app, (resolveFrom_names _ _ Hp), app_nil_r.
  reflexivity.
Qed.

(** The text test of the export is the test on directory names: the path
    is [/data] or lies below it. *)
Lemma underData_names (segs : list jsstring) :
  Forall plainName segs ->
  underData ("/"%char :: join segs) = true ->
  exists rest, segs = str "data" :: rest.
Proof.
  intros Hp; unfold underData, dataRoot.
  change (str_eqb ("/"%char :: join segs) (str "/data"))
    with (str_eqb (join segs) (str "data")).
  change (startsWith (str "/data" ++ str "/") ("/"%char :: join segs))
    with (startsWith (str "data/") (join segs)).
  destruct segs as [|seg segs]; [discriminate|].
  inversion Hp as [|? ? (Hne & _ & _ & Hno) Hrest]; subst.
  intros H; apply orb_true_iff in H; destruct H as [H|H].
  - apply str_eqb_eq in H.
    destruct segs as [|seg' segs]; [simpl in H; subst; eexists; reflexivity|].
    exfalso.
    change (join (seg :: seg' :: segs))
      with (seg ++ "/"%char :: join (seg' :: segs)) in H.
    assert (Hin : In "/"%char (str "data")).
    { rewrite <- H; apply in_or_app; right; left; reflexivity. }
    simpl in Hin; intuition discriminate.
  - apply startsWith_app in H; destruct H as (x & Hx).
    change (str "data/" ++ x) with (str "data" ++ "/"%char :: x) in Hx.
    destruct segs as [|seg' segs].
    + simpl in Hx; exfalso; apply Hno; rewrite Hx; simpl; tauto.
    + change (join (seg :: seg' :: segs))
        with (seg ++ "/"%char :: join (seg' :: segs)) in Hx.
      apply (f_equal (split "/")) in Hx.
      rewrite !split_at_sep in Hx;
        [|simpl; intuition discriminate | exact Hno].
      inversion Hx; subst; eexists; reflexivity.
Qed.

Lemma underData_complete (rest : list jsstring) :
  underData ("/"%char :: join (str "data" :: rest)) = true.
Proof.
  destruct rest as [|seg rest]; reflexivity.
Qed.

(** The test of the export and the test of the import's guard agree. *)
Lemma underData_isUnderDir (p : jsstring) :
  underData (resolved (str "/") p) = isUnderDir p dataRoot.
Proof.
  unfold isUnderDir, resolved.
  pose proof (resolve_plain (str "/") p) as Hp.
  change (resolve (str "/") dataRoot) with [str "data"].
  destruct (underData ("/"%char :: join (resolve (str "/") p))) eqn:E.
  - destruct (underData_names _ Hp E) as (rest & ->); reflexivity.
  - destruct (resolve (str "/") p) as [|seg rest]; [reflexivity|].
    cbn [segsStartWith]; rewrite andb_true_r.
    destruct (str_eqb (str "data") seg) eqn:Es; [|reflexivity].
    apply str_eqb_eq in Es; subst seg.
    rewrite underData_complete in E; discriminate.
Qed.

(** One exported directory: the path the archive holds for it, and what
    that path and everything under it resolve to against [/data]. *)
Lemma exported_path (procCwd dir : jsstring) :
  underData (resolved procCwd dir) = true ->
  let p := orDot (relative procCwd dataRoot (resolved procCwd dir)) in
  p <> []
  /\ startsWith (str "/") p = false
  /\ ~ hasParentSegment p
  /\ resolve dataRoot p = resolve procCwd dir
  /\ forall sub,
       resolve dataRoot (p ++ "/"%char :: sub)
       = resolve procCwd (resolved procCwd dir ++ "/"%char :: sub).
Proof.
  intros Hu p; subst p; unfold relative.
  rewrite (resolve_resolved procCwd dir).
  pose proof (resolve_plain procCwd dir) as Hp.
  destruct (underData_names _ Hp Hu) as (rest & Hrest).
  unfold resolved; rewrite Hrest in *.
  assert (Hd : resolve procCwd dataRoot = [str "data"]) by reflexivity.
  assert (Hrel0 : relativeSegs [str "data"] (str "data" :: rest) = rest).
  { cbn [relativeSegs]; rewrite str_eqb_refl; destruct rest; reflexivity. }
  rewrite Hd, Hrel0.
  inversion Hp as [|? ? _ Hpr]; subst.
  assert (Hfrom : forall segs : list jsstring,
            resolveFrom (resolveFrom [] (split "/" dataRoot)) segs
            = resolveFrom [str "data"] segs) by reflexivity.
  assert (Habs : forall sub,
            resolve procCwd (("/"%char :: join (str "data" :: rest))
                             ++ "/"%char :: sub)
            = rev (resolveFrom (rev rest ++ [str "data"]) (split "/" sub))).
  { intros sub; rewrite (resolve_below procCwd _ sub Hp) by congruence.
    reflexivity. }
  destruct rest as [|seg rest].
  - (* the directory is /data itself *)
    change (orDot (join [])) with (str ".").
    split; [discriminate | split; [reflexivity | split; [|split]]].
    + unfold hasParentSegment; simpl; intuition discriminate.
    + reflexivity.
    + intros sub; etransitivity; [|symmetry; apply (Habs sub)]; reflexivity.
  - assert (Hne : join (seg :: rest) <> []).
    { intros E; apply (join_empty _ Hpr) in E; discriminate. }
    assert (Ho : orDot (join (seg :: rest)) = join (seg :: rest)).
    { unfold orDot; destruct (join (seg :: rest)); [congruence | reflexivity]. }
    rewrite Ho.
    assert (Hrel := join_relative _ Hpr).
    repeat split; try assumption.
    + unfold hasParentSegment.
      rewrite split_join by (congruence || apply plain_no_sep, Hpr).
      intros HIn; rewrite Forall_forall in Hpr.
      destruct (Hpr _ HIn) as (_ & _ & H2 & _); congruence.
    + unfold resolve; rewrite Hrel, Hfrom.
      rewrite split_join by (congruence || apply plain_no_sep, Hpr).
      rewrite (resolveFrom_names _ _ Hpr), rev_app_distr, rev_involutive.
      reflexivity.
    + intros sub; rewrite Habs.
      unfold resolve.
      assert (Hrel' : startsWith (str "/")
                        (join (seg :: rest) ++ "/"%char :: sub) = false).
      { destruct (join (seg :: rest)) as [|c j]; [congruence|].
        simpl in *; exact Hrel. }
      rewrite Hrel', Hfrom.
      rewrite split_join_more by (congruence || apply plain_no_sep, Hpr).
      rewrite resolveFrom_app, (resolveFrom_names _ _ Hpr); reflexivity.
Qed.

End ArchiveFacts.

Lemma exported_path_filter (p : jsstring) :
  p <> [] -> startsWith (str "/") p = false -> ~ hasParentSegment p ->
  looksSafeTarPath p
  = negb (startsWith (str "\") p) && negb (testAnchored driveLetterRe p).
Proof.
  intros Hne Hrel Hpar; unfold looksSafeTarPath.
  destruct p as [|c p]; [congruence|]; cbn [truthy negb].
  rewrite Hrel; cbn [orb].
  destruct (startsWith (str "\") (c :: p)); [reflexivity|].
  destruct (testAnchored driveLetterRe (c :: p)); [reflexivity|].
  destruct (includes (str "..") (split "/" (c :: p))) eqn:E; [|reflexivity].
  apply includes_In in E; contradiction.
Qed.

(** X18.  When [GET /setup/export] archives relative to [/data] (both
    directories resolve to [/data] or below it), each of the two paths it
    puts into the archive is non-empty, relative and free of [..]
    segments, and [path.resolve] of it against [/data] names the directory
    it was taken from; the same holds for everything below it.  The path
    filter of the import accepts such a path unless it begins with a
    backslash or with a drive letter, a colon and a separator; a directory
    such as [/data/C:state] is thus archived as [C:state], which the
    filter accepts. *)
Theorem export_paths_resolve_in_place (procCwd STATE_DIR WORKSPACE_DIR : jsstring) :
  let L := Archive.exportLayout procCwd STATE_DIR WORKSPACE_DIR in
  Archive.cwd L = dataRoot ->
  map (resolve dataRoot) (Archive.paths L)
  = [resolve procCwd STATE_DIR; resolve procCwd WORKSPACE_DIR]
  /\ (forall sub,
        map (fun p => resolve dataRoot (p ++ "/"%char :: sub)) (Archive.paths L)
        = map (fun dir => resolve procCwd
                            (Archive.resolved procCwd dir ++ "/"%char :: sub))
              [STATE_DIR; WORKSPACE_DIR])
  /\ (forall p, In p (Archive.paths L) ->
        p <> [] /\ startsWith (str "/") p = false
        /\ ~ hasParentSegment p
        /\ looksSafeTarPath p
           = negb (startsWith (str "\") p)
             && negb (testAnchored driveLetterRe p)).
Proof.
  intros L; subst L; unfold Archive.exportLayout.
  destruct (Archive.underData (Archive.resolved procCwd STATE_DIR)) eqn:Hs;
    [|discriminate].
  destruct (Archive.underData (Archive.resolved procCwd WORKSPACE_DIR)) eqn:Hw;
    [|discriminate].
  intros _; cbn [andb Archive.paths map].
  destruct (ArchiveFacts.exported_path procCwd STATE_DIR Hs)
    as (S1 & S2 & S3 & S4 & S5).
  destruct (ArchiveFacts.exported_path procCwd WORKSPACE_DIR Hw)
    as (W1 & W2 & W3 & W4 & W5).
  split; [rewrite S4, W4; reflexivity|].
  split; [intros sub; rewrite S5, W5; reflexivity|].
  intros p [<-|[<-|[]]];
    (split; [assumption | split; [assumption | split; [assumption|]]]);
    apply exported_path_filter; assumption.
Qed.

Lemma export_paths_resolve_in_place_witness :
  map (resolve dataRoot)
    (Archive.paths (Archive.exportLayout (str "/app") (str "/data/C:state")
                      (str "/data/workspace/")))
  = [resolve (str "/app") (str "/data/C:state");
     resolve (str "/app") (str "/data/workspace/")].
Proof.
  apply (export_paths_resolve_in_place (str "/app") (str "/data/C:state")
           (str "/data/workspace/")).
  reflexivity.
Defined.

(** X22.  The export and the import agree on what they support: in a
    process working in [/], [GET /setup/export] archives relative to
    [/data] exactly when the guard of [POST /setup/import] lets the import
    go ahead, that is when the state and the workspace directory both
    resolve to [/data] or below it; otherwise the archive is taken from
    [/], with the leading slash of both paths removed. *)
Theorem export_layout_matches_import_guard (STATE_DIR WORKSPACE_DIR : jsstring) :
  let supported :=
    isUnderDir STATE_DIR dataRoot && isUnderDir WORKSPACE_DIR dataRoot in
  let L := Archive.exportLayout (str "/") STATE_DIR WORKSPACE_DIR in
  Archive.cwd L = (if supported then dataRoot else str "/")
  /\ (supported = false ->
      Archive.paths L
      = [Archive.join (resolve (str "/") STATE_DIR);
         Archive.join (resolve (str "/") WORKSPACE_DIR)]).
Proof.
  intros supported L; subst supported L; unfold Archive.exportLayout.
  rewrite !ArchiveFacts.underData_isUnderDir.
  destruct (isUnderDir STATE_DIR dataRoot && isUnderDir WORKSPACE_DIR dataRoot);
    split; try reflexivity; discriminate.
Qed.

Lemma export_layout_matches_import_guard_witness :
  Archive.paths (Archive.exportLayout (str "/") (str "/srv/state")
                   (str "/data/workspace"))
  = [Archive.join (resolve (str "/") (str "/srv/state"));
     Archive.join (resolve (str "/") (str "/data/workspace"))].
Proof.
  apply (export_layout_matches_import_guard (str "/srv/state")
           (str "/data/workspace")).
  reflexivity.
Defined.

(** ** Onboarding arguments *)

Module OnboardFacts.
Import Onboard.

Lemma get_in (key v : jsstring) (h : headers) :
  Http.get key h = Some v -> In key (map fst h).
Proof.
  induction h as [|[k x] h IH]; simpl; [discriminate|].
  destruct (str_eqb k key) eqn:E; [|auto].
  apply str_eqb_eq in E; auto.
Qed.

(** No own key of the table is also an inherited name, and none is
    [token] or empty. *)
Lemma own_keys (key v : jsstring) :
  Http.get key flags = Some v ->
  includes key inherited = false /\ str_eqb key (str "token") = false
  /\ key <> [].
Proof.
  intros H; apply get_in in H; simpl in H.
  repeat (destruct H as [<-|H];
          [repeat split; (reflexivity || discriminate)|]).
  contradiction.
Qed.

Lemma lookup_cases (key : jsstring) :
  (exists flag, lookup key = Some (Text flag)
                /\ includes key inherited = false
                /\ str_eqb key (str "token") = false /\ key <> [])
  \/ (lookup key = Some (Member key) /\ includes key inherited = true
      /\ str_eqb key (str "token") = false /\ key <> [])
  \/ (lookup key = None /\ includes key inherited = false).
Proof.
  unfold lookup; destruct (Http.get key flags) as [flag|] eqn:E.
  - left; exists flag; split; [reflexivity | exact (own_keys _ _ E)].
  - destruct (includes key inherited) eqn:Ei; [|right; right; auto].
    right; left; split; [reflexivity | split; [reflexivity|]].
    apply includes_In in Ei; simpl in Ei.
    repeat (destruct Ei as [<-|Ei];
            [split; (reflexivity || discriminate)|]).
    contradiction.
Qed.

Lemma baseArgs_text (W port token : jsstring) (p : payload) :
  forallb isText (baseArgs W port token p) = isPlain (flow p).
Proof.
  unfold baseArgs; rewrite forallb_app.
  destruct (flow p) as [|s|t]; cbn [truthyValue pushed isPlain];
    [reflexivity | destruct (truthy s); reflexivity | reflexivity].
Qed.

Lemma Args_inj (a b : list arg) : Args a = Args b -> a = b.
Proof. intros H; injection H as H; exact H. Qed.

Lemma last_pair (l : list arg) (a b : arg) : last (l ++ [a; b]) (Text []) = b.
Proof.
  change [a; b] with ([a] ++ [b]); rewrite app_assoc; apply last_last.
Qed.

Lemma pushed_text (v : value) :
  truthyValue v = true -> isText (pushed v) = isPlain v.
Proof. destruct v; [discriminate | reflexivity | reflexivity]. Qed.

(** The call once the choice is known to be truthy, its key [key] and the
    trimmed secret [secret]. *)
Lemma build_with (W port token : jsstring) (p : payload)
  (key secret : jsstring) :
  truthyValue (authChoice p) = true ->
  keyOf (authChoice p) = Some key -> trimmed (authSecret p) = Some secret ->
  let r := buildOnboardArgs W port token p in
  let takes := isSome (lookup key) || isToken (authChoice p) in
  ((exists m, r = Throws m) <-> takes = true /\ secret = [])
  /\ (forall m, r = Throws m -> m = missingSecret key)
  /\ r <> ThrowsTypeError
  /\ (forall args, r = Args args ->
        (exists more, args = baseArgs W port token p ++ more)
        /\ (takes = true ->
            secret <> [] /\ last args (Text []) = Text secret)
        /\ (takes = false ->
            args = baseArgs W port token p
                   ++ [Text (str "--auth-choice"); pushed (authChoice p)])
        /\ forallb isText args
           = isPlain (flow p) && isPlain (authChoice p)
             && negb (includes key inherited)).
Proof.
  intros Hc Hk Hs r takes; subst r takes; unfold buildOnboardArgs.
  rewrite Hc, Hk, Hs.
  pose proof (baseArgs_text W port token p) as Htext.
  pose proof (pushed_text _ Hc) as Hpush.
  assert (Htok : isToken (authChoice p) = true ->
                 key = str "token" /\ isPlain (authChoice p) = true).
  { destruct (authChoice p) as [|s|t]; simpl; try discriminate.
    intros H; apply str_eqb_eq in H; simpl in Hk; split; congruence. }
  destruct (OnboardFacts.lookup_cases key)
    as [(flag & Hl & Hi & Ht & Hne)|[(Hl & Hi & Ht & Hne)|(Hl & Hi)]];
    rewrite Hl, ?Hi; cbn [isSome orb andb negb].
  - assert (Hnt : isToken (authChoice p) = false).
    { destruct (isToken (authChoice p)) eqn:E; [|reflexivity].
      destruct (Htok eq_refl) as [-> _]; discriminate. }
    rewrite Hnt; destruct secret as [|x secret']; cbn [truthy negb].
    + split; [split; [auto | intros _; eexists; reflexivity]|].
      split; [intros m H; injection H as <-; reflexivity|].
      split; [discriminate | intros args H; discriminate].
    + split; [split; [intros (m & H); discriminate
                     | intros [_ H]; discriminate]|].
      split; [intros m H; discriminate|].
      split; [discriminate|].
      intros args H; apply Args_inj in H; subst args.
      split; [eexists; rewrite <- app_assoc; reflexivity|].
      split; [intros _; split; [discriminate | apply last_pair]|].
      split; [discriminate|].
      rewrite !forallb_app, Htext; cbn [forallb isText].
      rewrite Hpush, !andb_true_r; reflexivity.
  - assert (Hnt : isToken (authChoice p) = false).
    { destruct (isToken (authChoice p)) eqn:E; [|reflexivity].
      destruct (Htok eq_refl) as [-> _]; discriminate. }
    rewrite Hnt; destruct secret as [|x secret']; cbn [truthy negb].
    + split; [split; [auto | intros _; eexists; reflexivity]|].
      split; [intros m H; injection H as <-; reflexivity|].
      split; [discriminate | intros args H; discriminate].
    + split; [split; [intros (m & H); discriminate
                     | intros [_ H]; discriminate]|].
      split; [intros m H; discriminate|].
      split; [discriminate|].
      intros args H; apply Args_inj in H; subst args.
      split; [eexists; rewrite <- app_assoc; reflexivity|].
      split; [intros _; split; [discriminate | apply last_pair]|].
      split; [discriminate|].
      rewrite !forallb_app, Htext; cbn [forallb isText].
      rewrite !andb_false_r; reflexivity.
  - destruct (isToken (authChoice p)) eqn:Etok.
    + destruct (Htok eq_refl) as [-> Hplain].
      destruct secret as [|x secret']; cbn [truthy negb].
      * split; [split; [auto | intros _; eexists; reflexivity]|].
        split; [intros m H; injection H as <-; reflexivity|].
        split; [discriminate | intros args H; discriminate].
      * split; [split; [intros (m & H); discriminate
                       | intros [_ H]; discriminate]|].
        split; [intros m H; discriminate|].
        split; [discriminate|].
        intros args H; apply Args_inj in H; subst args.
        split; [eexists; rewrite <- app_assoc; reflexivity|].
        split; [intros _; split; [discriminate|]|].
        { change (map Text [str "--token-provider"; str "anthropic";
                            str "--token"; x :: secret'])
            with ([Text (str "--token-provider"); Text (str "anthropic")]
                  ++ [Text (str "--token"); Text (x :: secret')]).
          rewrite app_assoc; apply last_pair. }
        split; [discriminate|].
        rewrite !forallb_app, Htext; cbn [forallb isText map].
        rewrite Hpush, Hplain, !andb_true_r; reflexivity.
    + split; [split; [intros (m & H); discriminate
                     | intros [H _]; discriminate]|].
      split; [intros m H; discriminate|].
      split; [discriminate|].
      intros args H; apply Args_inj in H; subst args.
      split; [eexists; reflexivity|].
      split; [discriminate|].
      split; [reflexivity|].
      rewrite !forallb_app, Htext; cbn [forallb isText].
      rewrite Hpush, !andb_true_r; reflexivity.
Qed.

End OnboardFacts.

(** X19.  [buildOnboardArgs] on the unchecked JSON body.  With a truthy
    auth choice it throws a [TypeError] exactly when the secret is a truthy
    value that is no string, or the choice cannot be converted to a
    property key.  It throws [Missing auth secret for authChoice=<choice>]
    exactly when the choice takes a secret (its key has a provider flag in
    the table, names a member the table inherits, or the choice is the
    string [token]) and the secret, absent or a string, is empty once
    trimmed.  When it returns, the arguments begin with the fixed gateway
    options; if the choice takes a secret, the non-empty trimmed secret is
    the last argument; if it takes none, the result is the same for every
    secret that does not make it throw; and every argument is a string
    exactly when flow and choice are strings or absent and the choice does
    not name an inherited member. *)
Theorem buildOnboardArgs_fails_fast (W port token : jsstring)
  (p : Onboard.payload) :
  let choice := Onboard.authChoice p in
  let r := Onboard.buildOnboardArgs W port token p in
  (r = Onboard.ThrowsTypeError
   <-> Onboard.truthyValue choice = true
       /\ (Onboard.trimmed (Onboard.authSecret p) = None
           \/ Onboard.keyOf choice = None))
  /\ ((exists m, r = Onboard.Throws m)
      <-> Onboard.takesSecret choice = true
          /\ Onboard.trimmed (Onboard.authSecret p) = Some [])
  /\ (forall m, r = Onboard.Throws m ->
        exists key, Onboard.keyOf choice = Some key
                    /\ m = Onboard.missingSecret key)
  /\ (forall args, r = Onboard.Args args ->
        (exists more, args = Onboard.baseArgs W port token p ++ more)
        /\ (Onboard.takesSecret choice = true ->
            exists secret,
              Onboard.trimmed (Onboard.authSecret p) = Some secret
              /\ secret <> []
              /\ last args (Onboard.Text []) = Onboard.Text secret)
        /\ (Onboard.takesSecret choice = false ->
            forall other,
              (Onboard.truthyValue choice = true ->
               Onboard.trimmed other <> None) ->
              Onboard.buildOnboardArgs W port token
                {| Onboard.flow := Onboard.flow p;
                   Onboard.authChoice := Onboard.authChoice p;
                   Onboard.authSecret := other |}
              = r)
        /\ forallb Onboard.isText args
           = Onboard.isPlain (Onboard.flow p) && Onboard.isPlain choice
             && negb (Onboard.namesInherited choice)).
Proof.
  intros choice r.
  destruct (Onboard.truthyValue choice) eqn:Hc.
  - destruct (Onboard.trimmed (Onboard.authSecret p)) as [secret|] eqn:Hs;
      [destruct (Onboard.keyOf choice) as [key|] eqn:Hk|].
    + destruct (OnboardFacts.build_with W port token p key secret Hc Hk Hs)
        as (H1 & H2 & H3 & H4).
      fold r in H1, H2, H3, H4.
      assert (Htakes : Onboard.takesSecret choice
                       = (Onboard.isSome (Onboard.lookup key)
                          || Onboard.isToken choice)).
      { unfold Onboard.takesSecret; rewrite Hc, Hk; reflexivity. }
      split; [split; [intros H; contradiction
                     | intros [_ [H|H]]; discriminate]|].
      split.
      { rewrite H1, Htakes; split.
        - intros [Ha ->]; split; [exact Ha | reflexivity].
        - intros [Ha Hb]; injection Hb as ->; split; [exact Ha | reflexivity]. }
      split; [intros m H; exists key; split; [reflexivity | exact (H2 m H)]|].
      intros args Hargs; destruct (H4 args Hargs) as (A1 & A2 & A3 & A4).
      split; [exact A1|].
      split; [intros Ht; rewrite Htakes in Ht; exists secret;
              split; [reflexivity | exact (A2 Ht)]|].
      split.
      * intros Ht other Hother; rewrite Htakes in Ht.
        destruct (Onboard.trimmed other) as [secret'|] eqn:Hs';
          [|exfalso; exact (Hother eq_refl eq_refl)].
        set (p' := {| Onboard.flow := Onboard.flow p;
                      Onboard.authChoice := Onboard.authChoice p;
                      Onboard.authSecret := other |}).
        destruct (OnboardFacts.build_with W port token p' key secret'
                    Hc Hk Hs') as (B1 & _ & B3 & B4).
        destruct (Onboard.buildOnboardArgs W port token p')
          as [args'|m|] eqn:Er'.
        -- destruct (B4 args' eq_refl) as (_ & _ & B & _).
           rewrite Hargs, (A3 Ht), (B Ht); reflexivity.
        -- exfalso; cbn [Onboard.authChoice p'] in B1.
           assert (Hex : exists m0, Onboard.Throws m = Onboard.Throws m0)
             by (exists m; reflexivity).
           apply B1 in Hex; destruct Hex as [Hex _].
           cbn [Onboard.authChoice p'] in Hex; unfold choice in Ht.
           rewrite Ht in Hex; discriminate.
        -- exfalso; apply B3; reflexivity.
      * rewrite A4; unfold Onboard.namesInherited; fold choice; rewrite Hk.
        reflexivity.
    + assert (Er : r = Onboard.ThrowsTypeError).
      { subst r; unfold Onboard.buildOnboardArgs; fold choice.
        rewrite Hc, Hs, Hk; reflexivity. }
      rewrite Er.
      split; [split; auto|].
      split; [split; [intros (m & H); discriminate|]|].
      { unfold Onboard.takesSecret; rewrite Hc, Hk; intros [H _]; discriminate. }
      split; [intros m H; discriminate | intros args H; discriminate].
    + assert (Er : r = Onboard.ThrowsTypeError).
      { subst r; unfold Onboard.buildOnboardArgs; fold choice.
        rewrite Hc, Hs; reflexivity. }
      rewrite Er.
      split; [split; auto|].
      split; [split; [intros (m & H); discriminate
                     | intros [_ H]; discriminate]|].
      split; [intros m H; discriminate | intros args H; discriminate].
  - assert (Er : forall other,
              Onboard.buildOnboardArgs W port token
                {| Onboard.flow := Onboard.flow p;
                   Onboard.authChoice := Onboard.authChoice p;
                   Onboard.authSecret := other |}
              = Onboard.Args (Onboard.baseArgs W port token p)).
    { intros other; unfold Onboard.buildOnboardArgs.
      cbn [Onboard.authChoice]; fold choice; rewrite Hc; reflexivity. }
    assert (Er0 : r = Onboard.Args (Onboard.baseArgs W port token p)).
    { subst r; unfold Onboard.buildOnboardArgs; fold choice.
      rewrite Hc; reflexivity. }
    assert (Htakes : Onboard.takesSecret choice = false).
    { unfold Onboard.takesSecret; rewrite Hc; reflexivity. }
    rewrite Er0, Htakes.
    split; [split; [discriminate | intros [H _]; discriminate]|].
    split; [split; [intros (m & H); discriminate
                   | intros [H _]; discriminate]|].
    split; [intros m H; discriminate|].
    intros args H; apply OnboardFacts.Args_inj in H; subst args.
    split; [exists []; rewrite app_nil_r; reflexivity|].
    split; [discriminate|].
    split; [intros _ other _; apply Er|].
    rewrite OnboardFacts.baseArgs_text.
    assert (Hplain : Onboard.isPlain choice = true
                     /\ Onboard.namesInherited choice = false).
    { unfold Onboard.namesInherited.
      destruct choice as [|s|t]; simpl in *; try discriminate.
      - split; reflexivity.
      - destruct s; [split; reflexivity | discriminate]. }
    destruct Hplain as [-> ->]; rewrite !andb_true_r; reflexivity.
Qed.

Lemma buildOnboardArgs_fails_fast_witness :
  Onboard.buildOnboardArgs (str "/data/workspace") (str "18789") (str "t0ken")
    {| Onboard.flow := Onboard.Missing;
       Onboard.authChoice := Onboard.Str (str "apiKey");
       Onboard.authSecret := Onboard.Other (Some (str "42")) |}
  = Onboard.ThrowsTypeError.
Proof.
  apply (buildOnboardArgs_fails_fast (str "/data/workspace") (str "18789")
           (str "t0ken")
           {| Onboard.flow := Onboard.Missing;
              Onboard.authChoice := Onboard.Str (str "apiKey");
              Onboard.authSecret := Onboard.Other (Some (str "42")) |}).
  split; [reflexivity | left; reflexivity].
Defined.

(** ** Redacting twice *)

Lemma firstn_plus (n m : nat) (s : jsstring) :
  firstn (n + m) s = firstn n s ++ firstn m (skipn n s).
Proof.
  revert s; induction n as [|n IH]; intros s; simpl; [reflexivity|].
  destruct s as [|c s]; simpl; [destruct m; reflexivity|].
  rewrite IH; reflexivity.
Qed.

(** What [matchSeq] reports as matched is a match. *)
Lemma matchSeq_sound (r : pattern) :
  forall s n, matchSeq r s = Some n ->
              matches r (firstn n s) /\ n <= length s.
Proof.
  induction r as [|[c|p|k p] r IH]; intros s n H; simpl in H.
  - inversion H; subst; split; [constructor | lia].
  - destruct s as [|x s]; [discriminate|].
    destruct (chr_eqb x c) eqn:E; [|discriminate].
    apply chr_eqb_eq in E; subst x.
    destruct (matchSeq r s) as [l|] eqn:El; [|discriminate].
    inversion H; subst; destruct (IH _ _ El) as [Hm Hl].
    split; [simpl; constructor; exact Hm | simpl; lia].
  - destruct s as [|x s]; [discriminate|].
    destruct (p x) eqn:E; [|discriminate].
    destruct (matchSeq r s) as [l|] eqn:El; [|discriminate].
    inversion H; subst; destruct (IH _ _ El) as [Hm Hl].
    split; [simpl; constructor; assumption | simpl; lia].
  - destruct (k <=? runLen p s) eqn:Ek; [|discriminate].
    apply Nat.leb_le in Ek.
    destruct (backtrack_sound _ _ _ _ _ H) as (i & l & Hi & Hl & ->).
    destruct (IH _ _ Hl) as [Hm Hlen].
    destruct (CaptureFacts.runLen_firstn p s (k + i)) as [Hp Hn]; [lia|].
    rewrite firstn_plus; split.
    + constructor; [lia | exact Hp | exact Hm].
    + rewrite length_skipn in Hlen.
      pose proof (runLen_le p s); lia.
Qed.

(** Where the pattern matches nowhere, the replacement changes nothing. *)
Lemma scan_nothing (r : pattern) (rep : jsstring) :
  forall s,
    (forall a b n, s = a ++ b -> matchSeq r b <> Some (S n)) ->
    scan r rep 0 s = s.
Proof.
  induction s as [|c t IH]; intros H; [reflexivity|]; cbn [scan].
  assert (Ht : scan r rep 0 t = t).
  { apply IH; intros a b n E; apply (H (c :: a) b n); rewrite E; reflexivity. }
  destruct (matchSeq r (c :: t)) as [[|n]|] eqn:E; rewrite ?Ht; try reflexivity.
  exfalso; exact (H [] (c :: t) n eq_refl E).
Qed.

Lemma runLen_app_all (p : ascii -> bool) (u rest : jsstring) :
  forallb p u = true -> runLen p (u ++ rest) = length u + runLen p rest.
Proof.
  induction u as [|c u IH]; simpl; intros H; [reflexivity|].
  apply andb_true_iff in H; destruct H as [-> H]; rewrite IH; auto.
Qed.

Section Continued.

Variable r : pattern.
Variables lb rb : ascii.
Variable mid : jsstring.

Let rep : jsstring := lb :: mid ++ [rb].

(** A bracket-free prefix of the output was copied from the input, no
    match began where it was copied from, and the output goes on as the
    replacement of what follows in the input. *)
Lemma scan_prefix_continues :
  forall (v t rest : jsstring),
    ~ In lb v -> scan r rep 0 t = v ++ rest ->
    exists rest',
      t = v ++ rest'
      /\ (v <> [] -> forall n, matchSeq r t <> Some (S n))
      /\ rest = scan r rep 0 rest'.
Proof.
  induction v as [|x v IH]; intros t rest Hv E.
  - exists t; repeat split; [congruence | symmetry; exact E].
  - destruct t as [|c t]; [discriminate|].
    cbn [scan] in E.
    assert (Hcopy : c :: scan r rep 0 t = (x :: v) ++ rest ->
              (forall n, matchSeq r (c :: t) <> Some (S n)) ->
              exists rest',
                c :: t = (x :: v) ++ rest'
                /\ ((x :: v) <> [] ->
                    forall n, matchSeq r (c :: t) <> Some (S n))
                /\ rest = scan r rep 0 rest').
    { intros E0 Hno; inversion E0; subst.
      destruct (IH t rest) as (rest' & -> & _ & Hrest); [|assumption|].
      - intros H; apply Hv; right; exact H.
      - exists rest'; repeat split; auto. }
    destruct (matchSeq r (c :: t)) as [[|n]|] eqn:Em.
    + apply Hcopy; [exact E | intros n; discriminate].
    + unfold rep in E; inversion E; subst.
      exfalso; apply Hv; left; reflexivity.
    + apply Hcopy; [exact E | intros n; discriminate].
Qed.

Variable w : jsstring.
Hypothesis no_lb : ~ In lb w.
Hypothesis no_rb : ~ In rb w.
Hypothesis long : length mid < length w.

(** An occurrence that begins in [rep ++ X] lies in [X], with what
    follows it. *)
Lemma occurrence_past_placeholder (X A B : jsstring) :
  rep ++ X = A ++ w ++ B -> exists A', X = A' ++ w ++ B.
Proof.
  intros E.
  apply app_eq_app in E; destruct E as (l & [[Hrep HX] | [Ha HX]]).
  - symmetry in HX; apply app_eq_app in HX.
    destruct HX as (l' & [[Hl Hb] | [Hw HX]]).
    + exfalso; apply (not_inside_placeholder lb rb mid w no_lb no_rb long A l').
      fold rep; rewrite Hrep, Hl; reflexivity.
    + destruct (last_cases l) as [->|(l0 & z & Hl)].
      * simpl in Hw; exists []; simpl; rewrite HX, <- Hw; reflexivity.
      * exfalso; apply no_rb.
        assert (z = rb).
        { unfold rep in Hrep; rewrite Hl, app_assoc in Hrep.
          change (lb :: mid ++ [rb]) with ((lb :: mid) ++ [rb]) in Hrep.
          apply app_inj_tail in Hrep; destruct Hrep; congruence. }
        subst z; rewrite Hw, Hl; apply in_or_app; left.
        apply in_or_app; right; left; reflexivity.
  - exists l; exact HX.
Qed.

(** Where [w] occurs in the output, it occurs in the input at a place
    where no match begins, and the output after it is the replacement of
    the input after it. *)
Lemma scan_occurrence :
  forall (s : jsstring) (skip : nat) (A B : jsstring),
    scan r rep skip s = A ++ w ++ B ->
    exists a b, skipn skip s = a ++ w ++ b
                /\ (forall n, matchSeq r (w ++ b) <> Some (S n))
                /\ B = scan r rep 0 b.
Proof.
  assert (Hw : w <> []) by (intros ->; simpl in long; lia).
  induction s as [|c t IH]; intros skip A B E.
  - simpl in E; symmetry in E; apply app_eq_nil in E; destruct E as [_ E].
    apply app_eq_nil in E; tauto.
  - destruct skip as [|k]; cbn [scan] in E; [|simpl; exact (IH k A B E)].
    assert (Hcopy : c :: scan r rep 0 t = A ++ w ++ B ->
              (forall n, matchSeq r (c :: t) <> Some (S n)) ->
              scan r rep 0 (c :: t) = A ++ w ++ B ->
              exists a b, skipn 0 (c :: t) = a ++ w ++ b
                /\ (forall n, matchSeq r (w ++ b) <> Some (S n))
                /\ B = scan r rep 0 b).
    { intros E0 Hno Efull; destruct A as [|x A]; simpl in E0.
      - destruct (scan_prefix_continues w (c :: t) B no_lb Efull)
          as (rest' & Ht & _ & HB).
        exists [], rest'; simpl; repeat split; [exact Ht | | exact HB].
        rewrite <- Ht; exact Hno.
      - injection E0 as Hc E'.
        destruct (IH 0 A B E') as (a' & b' & Ht & Hno' & HB).
        simpl in Ht; exists (c :: a'), b'; simpl; repeat split; auto.
        rewrite Ht; reflexivity. }
    destruct (matchSeq r (c :: t)) as [[|n]|] eqn:Em.
    + apply Hcopy; [exact E | intros n; discriminate |].
      cbn [scan]; rewrite Em; exact E.
    + apply occurrence_past_placeholder in E; destruct E as (A' & E).
      destruct (IH n A' B E) as (a' & b' & Ht & Hno' & HB).
      exists (c :: firstn n t ++ a'), b'; repeat split; auto.
      simpl; rewrite <- app_assoc, <- Ht, firstn_skipn; reflexivity.
    + apply Hcopy; [exact E | intros n; discriminate |].
      cbn [scan]; rewrite Em; exact E.
Qed.

End Continued.

Section Runs.

(** A class [q] that holds every match of [r] and the replacement text,
    where no match is shorter than the replacement text. *)
Variable r : pattern.
Variable rep : jsstring.
Variable q : ascii -> bool.
Hypothesis match_in : forall s m, matchSeq r s = Some m -> m <= runLen q s.
Hypothesis rep_in : forallb q rep = true.
Hypothesis rep_short : forall s m, matchSeq r s = Some (S m) -> length rep <= S m.

(** The replacement makes no run of [q] longer. *)
Lemma scan_run :
  forall s k, k <= runLen q s ->
              runLen q (scan r rep k s) + k <= runLen q s.
Proof.
  induction s as [|c t IH]; intros k Hk; [simpl in *; lia|].
  destruct k as [|k]; cbn [scan].
  - destruct (matchSeq r (c :: t)) as [[|n]|] eqn:Em.
    + simpl; destruct (q c); [|lia].
      specialize (IH 0 (Nat.le_0_l _)); lia.
    + pose proof (match_in _ _ Em) as Hin.
      pose proof (rep_short _ _ Em) as Hlen.
      rewrite (runLen_app_all q rep _ rep_in).
      simpl in Hin |- *; destruct (q c); [|lia].
      assert (Hn : n <= runLen q t) by lia.
      specialize (IH n Hn); lia.
    + simpl; destruct (q c); [|lia].
      specialize (IH 0 (Nat.le_0_l _)); lia.
  - simpl in Hk |- *; destruct (q c); [|lia].
    assert (Hk' : k <= runLen q t) by lia.
    specialize (IH k Hk'); lia.
Qed.

End Runs.

Lemma wordDash_no_bracket (c : ascii) :
  isWordDash c = true -> c <> "["%char /\ c <> "]"%char.
Proof.
  destruct c as [[] [] [] [] [] [] [] []]; vm_compute; intros H;
    split; congruence.
Qed.

Lemma forallb_in (p : ascii -> bool) (u : jsstring) (c : ascii) :
  forallb p u = true -> In c u -> p c = true.
Proof. rewrite forallb_forall; auto. Qed.

(** The shape of a match of the last pattern of [redactSecrets]. *)
Lemma aaRe_shape (m : jsstring) :
  matches aaRe m ->
  exists u v,
    m = (str "AA" ++ u ++ [":"%char]) ++ v
    /\ 10 <= length u /\ forallb isWordDash u = true
    /\ 10 <= length v /\ forallb isNonSpace v = true.
Proof.
  unfold aaRe; simpl; intros H.
  inversion H as [|? ? ? H1| |]; subst; clear H.
  inversion H1 as [|? ? ? H2| |]; subst; clear H1.
  inversion H2 as [| | |? ? ? u ? Hu1 Hu2 H3]; subst; clear H2.
  inversion H3 as [|? ? ? H4| |]; subst; clear H3.
  inversion H4 as [| | |? ? ? v ? Hv1 Hv2 H5]; subst; clear H4.
  inversion H5; subst.
  exists u, v; rewrite app_nil_r; repeat split; auto.
  simpl; rewrite <- app_assoc; reflexivity.
Qed.

Lemma aaRe_matches (u v : jsstring) :
  10 <= length u -> forallb isWordDash u = true ->
  10 <= length v -> forallb isNonSpace v = true ->
  matches aaRe ((str "AA" ++ u ++ [":"%char]) ++ v).
Proof.
  intros Hu1 Hu2 Hv1 Hv2; unfold aaRe; simpl.
  rewrite <- app_assoc; simpl.
  do 2 constructor; constructor; [assumption | assumption |].
  constructor.
  rewrite <- (app_nil_r v); constructor; [assumption | assumption | constructor].
Qed.

Lemma aaRe_plain (s : jsstring) (m : nat) :
  matchSeq aaRe s = Some m -> m <= runLen isNonSpace s.
Proof.
  intros H; destruct (matchSeq_sound _ _ _ H) as [Hm Hlen].
  destruct (aaRe_shape _ Hm) as (u & v & E & _ & Hu & _ & Hv).
  assert (Hall : forallb isNonSpace (firstn m s) = true).
  { rewrite E, !forallb_app; simpl.
    rewrite (wordDash_plain u Hu), Hv; reflexivity. }
  rewrite <- (firstn_skipn m s) at 1.
  pose proof (runLen_app_ge isNonSpace _ (skipn m s) Hall) as Hge.
  rewrite length_firstn in Hge; lia.
Qed.

(** The last replacement of [redactSecrets] leaves nothing it would
    match. *)
Lemma aaRe_gone (x a b : jsstring) (n : nat) :
  replaceAll aaRe REDACTED x = a ++ b -> matchSeq aaRe b <> Some (S n).
Proof.
  intros E Hm.
  destruct (matchSeq_sound _ _ _ Hm) as [Hmatch Hlen].
  destruct (aaRe_shape _ Hmatch) as (u & v & Eb & Hu1 & Hu2 & Hv1 & Hv2).
  set (w0 := str "AA" ++ u ++ [":"%char]) in *.
  assert (Hb : b = w0 ++ (v ++ skipn (S n) b)).
  { rewrite app_assoc, <- Eb, firstn_skipn; reflexivity. }
  rewrite Hb in E; unfold replaceAll in E.
  change REDACTED with ("["%char :: str "REDACTED" ++ ["]"%char]) in E.
  assert (Hnb : forall c, (c = "["%char \/ c = "]"%char) -> ~ In c w0).
  { intros c Hc HIn; unfold w0 in HIn; simpl in HIn.
    destruct HIn as [<-|[<-|HIn]];
      [destruct Hc; discriminate | destruct Hc; discriminate |].
    apply in_app_or in HIn; destruct HIn as [HIn|[<-|[]]];
      [|destruct Hc; discriminate].
    destruct (wordDash_no_bracket c (forallb_in _ _ _ Hu2 HIn)).
    destruct Hc; congruence. }
  assert (Hlong : length (str "REDACTED") < length w0).
  { unfold w0; simpl; rewrite length_app; simpl; lia. }
  destruct (scan_occurrence aaRe "[" "]" (str "REDACTED") w0
              (Hnb _ (or_introl eq_refl)) (Hnb _ (or_intror eq_refl)) Hlong
              x 0 a (v ++ skipn (S n) b) E)
    as (a' & b' & _ & Hno & Hrest).
  assert (Hrun : 10 <= runLen isNonSpace b').
  { pose proof (scan_run aaRe ("["%char :: str "REDACTED" ++ ["]"%char])
                  isNonSpace aaRe_plain eq_refl) as Hsr.
    assert (Hshort : forall s m, matchSeq aaRe s = Some (S m) ->
              length ("["%char :: str "REDACTED" ++ ["]"%char]) <= S m).
    { intros s m Hs; pose proof (matchSeq_minLen _ _ _ Hs) as Hmin.
      simpl in Hmin |- *; lia. }
    specialize (Hsr Hshort b' 0 (Nat.le_0_l _)).
    rewrite <- Hrest in Hsr.
    pose proof (runLen_app_ge isNonSpace v (skipn (S n) b) Hv2); lia. }
  destruct (CaptureFacts.runLen_firstn isNonSpace b' 10 Hrun) as [Hp Hl].
  assert (Hagain : matches aaRe (w0 ++ firstn 10 b')).
  { apply aaRe_matches; try assumption; lia. }
  pose proof (matchSeq_complete _ _ Hagain (skipn 10 b')) as Hsome.
  rewrite <- app_assoc, firstn_skipn in Hsome.
  destruct (matchSeq aaRe (w0 ++ b')) as [[|k]|] eqn:Ek; [| |congruence].
  - pose proof (matchSeq_minLen _ _ _ Ek) as Hmin; simpl in Hmin; lia.
  - exact (Hno k eq_refl).
Qed.

(** A text with no secret-shaped piece is left alone by the first four
    replacements. *)
Lemma clean_untouched (r : pattern) (t : jsstring) :
  (forall w, matches r w -> ~ Infix w t) ->
  replaceAll r REDACTED t = t.
Proof.
  intros H; apply scan_nothing; intros a b n E Hm.
  destruct (matchSeq_sound _ _ _ Hm) as [Hmatch Hlen].
  apply (H _ Hmatch); exists a, (skipn (S n) b).
  rewrite E, app_assoc, <- app_assoc, firstn_skipn; reflexivity.
Qed.

(** X20.  Redacting is idempotent: a text that went through
    [redactSecrets] comes back unchanged from a second pass.  And a text
    in which none of the five patterns matches anywhere is returned as it
    is. *)
Theorem redactSecrets_idempotent (text : jsstring) :
  redactSecrets (redactSecrets text) = redactSecrets text
  /\ ((forall r w, In r [skRe; ghoRe; xoxRe; telegramRe; aaRe] ->
                   matches r w -> ~ Infix w text) ->
      redactSecrets text = text).
Proof.
  assert (Hclean : forall t,
            (forall r w, In r [skRe; ghoRe; xoxRe; telegramRe; aaRe] ->
                         matches r w -> ~ Infix w t) ->
            redactSecrets t = t).
  { intros t H; unfold redactSecrets.
    destruct (negb (truthy t)); [reflexivity|].
    rewrite (clean_untouched skRe t) by (intros w; apply H; simpl; tauto).
    rewrite (clean_untouched ghoRe t) by (intros w; apply H; simpl; tauto).
    rewrite (clean_untouched xoxRe t) by (intros w; apply H; simpl; tauto).
    rewrite (clean_untouched telegramRe t) by (intros w; apply H; simpl; tauto).
    apply clean_untouched; intros w; apply H; simpl; tauto. }
  split; [|apply Hclean].
  apply Hclean; intros r w Hr Hm Hin.
  simpl in Hr; destruct Hr as [<-|[<-|[<-|[<-|[<-|[]]]]]];
    try (apply (redactSecrets_no_secret text w); [unfold secretShape; tauto
                                                 | exact Hin]).
  unfold redactSecrets in Hin.
  destruct (negb (truthy text)) eqn:Et.
  - destruct text; [|discriminate].
    apply infix_nil in Hin; subst.
    pose proof (matches_minLen _ _ Hm) as Hmin; simpl in Hmin; lia.
  - destruct Hin as (a & b & E).
    pose proof (matchSeq_complete _ _ Hm b) as Hsome.
    destruct (matchSeq aaRe (w ++ b)) as [[|k]|] eqn:Ek; [| |congruence].
    + pose proof (matchSeq_minLen _ _ _ Ek) as Hmin; simpl in Hmin; lia.
    + exact (aaRe_gone _ a (w ++ b) k E Ek).
Qed.

Lemma redactSecrets_idempotent_witness :
  redactSecrets (str "gateway ready") = str "gateway ready".
Proof.
  apply (redactSecrets_idempotent (str "gateway ready")).
  intros r w Hr Hm (a & b & E).
  assert (Hlen : length w <= 13).
  { apply (f_equal (@length ascii)) in E; rewrite !length_app in E.
    simpl in E; lia. }
  pose proof (matches_minLen _ _ Hm) as Hmin.
  simpl in Hr; destruct Hr as [<-|[<-|[<-|[<-|[<-|[]]]]]]; simpl in Hmin;
    try lia.
  inversion Hm as [|? ? ? H1| |]; subst.
  inversion H1 as [|? ? ? H2| |]; subst.
  inversion H2 as [|? ? ? H3| |]; subst.
  assert (HIn : In "-"%char (str "gateway ready")).
  { rewrite E; apply in_or_app; right; simpl; tauto. }
  simpl in HIn; intuition discriminate.
Defined.

(** ** Doctor runs over time *)

Lemma spaced_snoc (times : list Z) :
  forall after t,
    spaced after times -> fiveMinutesOn (latest after times) t ->
    spaced after (times ++ [t]).
Proof.
  induction times as [|x times IH]; intros after t Hs Hl.
  - simpl; split; [exact Hl | exact I].
  - destruct Hs as [Hx Hs]; split; [exact Hx|].
    apply IH; [exact Hs|].
    destruct times as [|y times]; exact Hl.
Qed.

Lemma latest_snoc (before : option Z) (times : list Z) (t : Z) :
  latest before (times ++ [t]) = Some t.
Proof.
  unfold latest; destruct (times ++ [t]) eqn:E.
  - destruct times; discriminate.
  - rewrite <- E, last_last; reflexivity.
Qed.

Lemma ranRecently_gap (now : Z) (st : doctorState) :
  ranRecently now st = false -> fiveMinutesOn (lastDoctorAt st) now.
Proof.
  unfold ranRecently, fiveMinutesOn; destruct (lastDoctorAt st) as [t0|];
    [|auto].
  intros Hr; apply andb_false_iff in Hr; destruct Hr as [Hr|Hr].
  - apply negb_false_iff, Z.eqb_eq in Hr; left; exact Hr.
  - apply Z.ltb_ge in Hr; right; lia.
Qed.

(** What a call keeps true: the runs so far are spaced, and
    [lastDoctorAt] is the time of the latest one. *)
Lemma doctorCall_keeps (E N : jsstring) (w : world) (before : option Z)
  (acc : doctorState * list Z) (now : Z) :
  spaced before (snd acc) /\ lastDoctorAt (fst acc) = latest before (snd acc) ->
  let acc' := doctorCall E N w acc now in
  (spaced before (snd acc')
   /\ lastDoctorAt (fst acc') = latest before (snd acc'))
  /\ exists more, snd acc' = snd acc ++ more /\ incl more [now].
Proof.
  intros [Hs Hl]; unfold doctorCall, runDoctorBestEffort.
  destruct (ranRecently now (fst acc)) eqn:Hr; cbn [fst snd].
  - split; [auto|]; exists []; rewrite app_nil_r; split;
      [reflexivity | intros x []].
  - split; [split|].
    + apply spaced_snoc; [exact Hs|].
      rewrite <- Hl; apply ranRecently_gap; exact Hr.
    + rewrite latest_snoc; reflexivity.
    + exists [now]; split; [reflexivity | apply incl_refl].
Qed.

Lemma spaced_adjacent (a : list Z) :
  forall after t0 t b,
    spaced after (a ++ t0 :: t :: b) ->
    (t0 = 0 \/ 5 * 60 * 1000 <= t - t0)%Z.
Proof.
  induction a as [|x a IH]; intros after t0 t b Hs.
  - destruct Hs as (_ & H & _); exact H.
  - destruct Hs as [_ Hs]; exact (IH _ _ _ _ Hs).
Qed.

(** X21.  The doctor is not run in a crash loop.  However often and at
    whatever times [runDoctorBestEffort] is called, the doctor command is
    run only at the time of one of the calls, [lastDoctorAt] is the time
    of the latest run, and each run comes five minutes or more after the
    run before it (the first one after the [lastDoctorAt] it started
    from), save for one exception: a run recorded at time 0, like a
    [lastDoctorAt] of 0 to start from, leaves [lastDoctorAt] falsy, and
    the next call runs the doctor whatever its time.  When no call is made
    at time 0, there is no exception between runs: each run comes five
    minutes or more after the run before it. *)
Theorem doctor_rate_limited (E N : jsstring) (w : world) (nows : list Z)
  (st : doctorState) :
  let ran := snd (doctorCalls E N w nows st) in
  incl ran nows
  /\ lastDoctorAt (fst (doctorCalls E N w nows st))
     = match ran with
       | [] => lastDoctorAt st
       | _ :: _ => Some (last ran 0%Z)
       end
  /\ (forall t0 t rest,
        lastDoctorAt st = Some t0 -> ran = t :: rest ->
        (t0 = 0 \/ 5 * 60 * 1000 <= t - t0)%Z)
  /\ (forall a t0 t b,
        ran = a ++ t0 :: t :: b ->
        (t0 = 0 \/ 5 * 60 * 1000 <= t - t0)%Z)
  /\ (Forall (fun now => now <> 0%Z) nows ->
      forall a t0 t b,
        ran = a ++ t0 :: t :: b -> (5 * 60 * 1000 <= t - t0)%Z).
Proof.
  unfold doctorCalls.
  assert (G : forall nows acc,
            spaced (lastDoctorAt st) (snd acc)
            /\ lastDoctorAt (fst acc) = latest (lastDoctorAt st) (snd acc) ->
            let r := fold_left (doctorCall E N w) nows acc in
            (spaced (lastDoctorAt st) (snd r)
             /\ lastDoctorAt (fst r) = latest (lastDoctorAt st) (snd r))
            /\ exists more, snd r = snd acc ++ more /\ incl more nows).
  { clear nows; induction nows as [|now nows IH]; intros acc Hacc; simpl.
    - split; [exact Hacc|]; exists []; rewrite app_nil_r; split;
        [reflexivity | intros x []].
    - destruct (doctorCall_keeps E N w _ acc now Hacc)
        as (Hacc' & m1 & E1 & I1).
      destruct (IH _ Hacc') as (Hr & m2 & E2 & I2).
      split; [exact Hr|]; exists (m1 ++ m2); split.
      + rewrite E2, E1, app_assoc; reflexivity.
      + intros x Hx; apply in_app_or in Hx; destruct Hx as [Hx|Hx].
        * apply I1 in Hx; destruct Hx as [<-|[]]; left; reflexivity.
        * right; apply I2; exact Hx. }
  destruct (G nows (st, [])) as ((Hs & Hl) & more & Em & Im);
    [simpl; auto|].
  set (ran := snd (fold_left (doctorCall E N w) nows (st, []))) in *.
  assert (Hincl : incl ran nows) by (rewrite Em; exact Im).
  cbv zeta; split; [exact Hincl | split; [exact Hl|]].
  split; [|split].
  - intros t0 t rest Ht0 Hran; rewrite Hran, Ht0 in Hs.
    destruct Hs as [H _]; exact H.
  - intros a t0 t b Hran; rewrite Hran in Hs.
    exact (spaced_adjacent _ _ _ _ _ Hs).
  - intros Hnz a t0 t b Hran.
    assert (Ht0 : t0 <> 0%Z).
    { rewrite Forall_forall in Hnz; apply Hnz, Hincl; rewrite Hran.
      apply in_or_app; right; left; reflexivity. }
    rewrite Hran in Hs.
    destruct (spaced_adjacent _ _ _ _ _ Hs) as [H|H];
      [contradiction | exact H].
Qed.

Lemma doctor_rate_limited_witness :
  snd (doctorCalls defaultEntry defaultNode (printing [])
         [1000; 2000; 400000]%Z
         {| lastDoctorAt := None; lastDoctorOutput := None |})
  = [1000; 400000]%Z
  /\ (5 * 60 * 1000 <= 400000 - 1000)%Z.
Proof.
  split; [reflexivity|].
  destruct (doctor_rate_limited defaultEntry defaultNode (printing [])
              [1000; 2000; 400000]%Z
              {| lastDoctorAt := None; lastDoctorOutput := None |})
    as (_ & _ & _ & _ & H).
  apply (H ltac:(repeat constructor; discriminate) [] 1000%Z 400000%Z []).
  reflexivity.
Defined.

(** ** The console's answers *)

Ltac console_leaf :=
  cbn [fst snd status resBody okOutput failError json length];
  repeat split; intros;
  try discriminate; try lia; try congruence; eauto;
  try (left; reflexivity); try (right; left; reflexivity);
  try (right; right; reflexivity).

Lemma runAndReport_contract (E N : jsstring) (w : world) (verb : list string)
  (extra : list jsstring) :
  let r := runAndReport E N w verb extra in
  (status (fst r) = 200 \/ status (fst r) = 400 \/ status (fst r) = 500)%Z
  /\ length (snd r) <= 1
  /\ (status (fst r) = 400%Z ->
      snd r = [] /\ exists e, resBody (fst r) = Json false None (Some e))
  /\ (status (fst r) = 500%Z -> snd r <> [])
  /\ (forall o e, resBody (fst r) = Json true o e ->
        status (fst r) = 200%Z /\ e = None).
Proof.
  unfold runAndReport.
  destruct (Cmd.code (exec w N (clawArgs E (map str verb ++ extra))) =? 0)%Z;
    console_leaf.
Qed.

(** What the handler answers, once the guard has let the request
    through. *)
Lemma consoleRun_answers (E N : jsstring) (w : world) (p : payload) :
  let r := consoleRun E N w p in
  (status (fst r) = 200 \/ status (fst r) = 400 \/ status (fst r) = 500)%Z
  /\ length (snd r) <= 1
  /\ (status (fst r) = 400%Z ->
      snd r = [] /\ exists e, resBody (fst r) = Json false None (Some e))
  /\ (status (fst r) = 500%Z -> snd r <> [])
  /\ (forall o e, resBody (fst r) = Json true o e ->
        status (fst r) = 200%Z /\ e = None).
Proof.
  unfold consoleRun.
  set (c := trim (fieldString (cmd p))).
  set (a := trim (fieldString (arg p))).
  destruct (negb (has c)); [console_leaf|].
  destruct (isCmd c "gateway.restart").
  { destruct (restartSettles w); console_leaf. }
  destruct (isCmd c "gateway.stop").
  { destruct (gatewayUp w); console_leaf. }
  destruct (isCmd c "gateway.start").
  { destruct (ensureSettles w) as [[] ?|]; console_leaf. }
  destruct (isCmd c "openclaw.version"); [apply runAndReport_contract|].
  destruct (isCmd c "openclaw.status"); [apply runAndReport_contract|].
  destruct (isCmd c "openclaw.health"); [apply runAndReport_contract|].
  destruct (isCmd c "openclaw.doctor"); [apply runAndReport_contract|].
  destruct (isCmd c "openclaw.logs.tail"); [apply runAndReport_contract|].
  destruct (isCmd c "openclaw.config.get").
  { destruct (negb (truthy a)); [console_leaf | apply runAndReport_contract]. }
  destruct (isCmd c "openclaw.devices.list"); [apply runAndReport_contract|].
  destruct (isCmd c "openclaw.devices.approve").
  { destruct (negb (truthy (trim a))); [console_leaf|].
    destruct (negb (testWhole identifierRe (trim a)));
      [console_leaf | apply runAndReport_contract]. }
  destruct (isCmd c "openclaw.plugins.list"); [apply runAndReport_contract|].
  destruct (isCmd c "openclaw.plugins.enable").
  { destruct (negb (truthy (trim a))); [console_leaf|].
    destruct (negb (testWhole identifierRe (trim a)));
      [console_leaf | apply runAndReport_contract]. }
  console_leaf.
Qed.

(** What the guard answers when it does not call [next()]. *)
Lemma requireSetupAuth_answers (base64Decode : jsstring -> jsstring)
  (env : option jsstring) (req : request) (r : response) :
  requireSetupAuth base64Decode env req = Answered r ->
  (status r = 500%Z /\ resBody r = Send noPasswordMessage
   /\ fieldString (option_map trim env) = [])
  \/ (status r = 401%Z
      /\ get (str "WWW-Authenticate") (resHeaders r) = Some basicRealm
      /\ exists text, resBody r = Send text).
Proof.
  unfold requireSetupAuth, SETUP_PASSWORD.
  destruct (fieldString (option_map trim env)) as [|c pw] eqn:Epw;
    cbn [truthy negb].
  - intros H; injection H as <-; left; repeat split; reflexivity.
  - destruct (negb (str_eqb _ (str "Basic")) || negb (truthy _)).
    + intros H; injection H as <-; right; repeat split; eexists; reflexivity.
    + destruct (negb (str_eqb _ (c :: pw))); [|discriminate].
      intros H; injection H as <-; right; repeat split; eexists; reflexivity.
Qed.


